(** * Offline media PWA: the synchronisation engine

    A shallow embedding of the offline queue of [src/sync.js] together with
    the parts of [src/db.js], [src/api.js] and [src/utils.js] it drives, and
    of the handlers of [src/ui.js] that call it.

    Conventions of the embedding.
    - JavaScript numbers that hold byte counts, counters and times are whole
      numbers below 2^53, where a double is exact: they are [Z].  A quotient
      or a product that need not be whole is a [Q], and [double] rounds it to
      the nearest binary64 number, ties to even, as the division and the
      multiplication of JavaScript do.  The percentage of the progress
      callback is computed this way, [Math.round] of the double product of
      the double quotient.  The chunk count is [Math.ceil] of the exact
      quotient; [totalChunksOf_double] shows that the double quotient has the
      same ceiling for every file of at most 2^44 bytes.
    - The two IndexedDB object stores are finite maps from the generated key
      to the stored object, with the store's key generator beside them.
    - A transaction of IndexedDB finishes when the task that opened it ends
      with no request pending.  Every function of [db.js] but one places its
      request in the task that opened the transaction.  [enqueueMedia] places
      it in the [onload] handler of a [FileReader], a later task: in a store
      that follows the standard the request throws there, where nothing
      catches it, so nothing is stored and the promise never settles.  The
      field [keepsTransaction] of the [World] says whether the store still
      takes that late request; the theorems about what is stored hold for
      both kinds of store, and those about what [enqueueMedia] returns name
      the kind they need.
    - A promise that never settles is the value [Pending] of [Awaited]; the
      code after an [await] on it does not run.
    - Asynchronous code is a state-and-exception monad over the [World]: the
      persisted stores, the module-level variables of [sync.js], and the
      environment (connectivity, storage estimate, clock, the outcome of every
      store request and of every network request), plus a trace of what the
      engine did to the outside.  Tasks started together ([Promise.all],
      [Promise.allSettled]) run one after the other in the order they were
      created; a promise that is not awaited runs at once and its outcome is
      dropped.
    - The bytes of a file are never inspected by the engine; a payload is known
      by its length and an opaque identity, a slice by its bounds.
    - The page is not part of the [World]: a handler of [ui.js] returns what
      it shows, an alert or the content of a list, as a value. *)

From Stdlib Require Import ZArith QArith Qround Qpower String List Lia Lqa.
From Stdlib Require Import Floats.SpecFloat.
From stdpp Require Import base gmap list strings sorting pretty list_numbers fin_maps.

Local Open Scope Z_scope.

(** ** Data *)

Inductive ItemStatus := pending | uploading | synced | failed.

Inductive SyncStatus := IDLE | SYNCING | SUCCESS | ERROR.

Global Instance ItemStatus_eq_dec : EqDecision ItemStatus.
Proof. solve_decision. Defined.

Global Instance SyncStatus_eq_dec : EqDecision SyncStatus.
Proof. solve_decision. Defined.

(** A JavaScript [Error]: its [name] and its [message]. *)
Record Error := mkError { err_name : string; err_message : string }.

(** [new Error(message)] *)
Definition newError (msg : string) : Error := mkError "Error" msg.

Record ArrayBuffer := mkBuffer { byteLength : Z; payload : N }.

Record File := mkFile { file_name : string; file_type : string; file_content : ArrayBuffer }.

(** [file.size] *)
Definition size (f : File) : Z := byteLength (file_content f).

(** [file.slice(start, end)] *)
Record Blob := mkBlob { blob_source : ArrayBuffer; blob_start : Z; blob_end : Z }.

Definition slice (f : File) (start end_ : Z) : Blob := mkBlob (file_content f) start end_.

Record Metadata := mkMetadata { md_title : option string; md_description : option string }.

Record MediaDescriptor := mkDescriptor { d_name : string; d_type : string; d_size : Z }.

(** The object handed to [db.createRecord]. *)
Record NewRecord := mkNewRecord {
  nr_title : string;
  nr_description : option string;
  nr_mediaFiles : list MediaDescriptor;
  nr_synced : bool
}.

(** An object of the [records] store. *)
Record LocalRecord := mkRecord {
  rec_id : nat;
  rec_title : string;
  rec_description : option string;
  rec_mediaFiles : list MediaDescriptor;
  rec_createdAt : Z;
  rec_synced : bool
}.

(** The object handed to [db.enqueueMedia]; absent properties are [None]. *)
Record MediaRequest := mkMediaRequest {
  mr_submissionId : nat;
  mr_file : File;
  mr_metadata : option Metadata;
  mr_status : option ItemStatus;
  mr_attempts : option Z;
  mr_maxAttempts : option Z;
  mr_useChunked : option bool
}.

(** An object of the [mediaQueue] store. *)
Record QueueItem := mkItem {
  id : nat;
  submissionId : nat;
  fileName : string;
  fileType : string;
  fileSize : Z;
  fileData : ArrayBuffer;
  metadata : Metadata;
  status : ItemStatus;
  attempts : Z;
  maxAttempts : Z;
  error : option string;
  useChunked : bool;
  uploadProgress : Z;
  bytesUploaded : Z;
  createdAt : Z;
  lastAttemptAt : option Z;
  syncedAt : option Z
}.

(** One property of the [updates] object of [db.updateQueueItem]. *)
Inductive ItemUpdate :=
| upd_status (s : ItemStatus)
| upd_attempts (n : Z)
| upd_uploadProgress (p : Z)
| upd_bytesUploaded (b : Z)
| upd_error (e : option string)
| upd_lastAttemptAt (t : Z)
| upd_syncedAt (t : Z).

Definition assign (it : QueueItem) (u : ItemUpdate) : QueueItem :=
  match u with
  | upd_status s =>
      mkItem (id it) (submissionId it) (fileName it) (fileType it) (fileSize it) (fileData it)
             (metadata it) s (attempts it) (maxAttempts it) (error it) (useChunked it)
             (uploadProgress it) (bytesUploaded it) (createdAt it) (lastAttemptAt it) (syncedAt it)
  | upd_attempts n =>
      mkItem (id it) (submissionId it) (fileName it) (fileType it) (fileSize it) (fileData it)
             (metadata it) (status it) n (maxAttempts it) (error it) (useChunked it)
             (uploadProgress it) (bytesUploaded it) (createdAt it) (lastAttemptAt it) (syncedAt it)
  | upd_uploadProgress p =>
      mkItem (id it) (submissionId it) (fileName it) (fileType it) (fileSize it) (fileData it)
             (metadata it) (status it) (attempts it) (maxAttempts it) (error it) (useChunked it)
             p (bytesUploaded it) (createdAt it) (lastAttemptAt it) (syncedAt it)
  | upd_bytesUploaded b =>
      mkItem (id it) (submissionId it) (fileName it) (fileType it) (fileSize it) (fileData it)
             (metadata it) (status it) (attempts it) (maxAttempts it) (error it) (useChunked it)
             (uploadProgress it) b (createdAt it) (lastAttemptAt it) (syncedAt it)
  | upd_error e =>
      mkItem (id it) (submissionId it) (fileName it) (fileType it) (fileSize it) (fileData it)
             (metadata it) (status it) (attempts it) (maxAttempts it) e (useChunked it)
             (uploadProgress it) (bytesUploaded it) (createdAt it) (lastAttemptAt it) (syncedAt it)
  | upd_lastAttemptAt t =>
      mkItem (id it) (submissionId it) (fileName it) (fileType it) (fileSize it) (fileData it)
             (metadata it) (status it) (attempts it) (maxAttempts it) (error it) (useChunked it)
             (uploadProgress it) (bytesUploaded it) (createdAt it) (Some t) (syncedAt it)
  | upd_syncedAt t =>
      mkItem (id it) (submissionId it) (fileName it) (fileType it) (fileSize it) (fileData it)
             (metadata it) (status it) (attempts it) (maxAttempts it) (error it) (useChunked it)
             (uploadProgress it) (bytesUploaded it) (createdAt it) (lastAttemptAt it) (Some t)
  end.

(** [{ ...item, ...updates }] *)
Definition merge (it : QueueItem) (updates : list ItemUpdate) : QueueItem :=
  foldl assign it updates.

(** The key path [id] of a stored object always holds its key. *)
Definition keyed (k : nat) (it : QueueItem) : QueueItem :=
  mkItem k (submissionId it) (fileName it) (fileType it) (fileSize it) (fileData it)
         (metadata it) (status it) (attempts it) (maxAttempts it) (error it) (useChunked it)
         (uploadProgress it) (bytesUploaded it) (createdAt it) (lastAttemptAt it) (syncedAt it).

Definition keyedRecord (k : nat) (r : LocalRecord) : LocalRecord :=
  mkRecord k (rec_title r) (rec_description r) (rec_mediaFiles r) (rec_createdAt r) (rec_synced r).

(** ** The network and the trace *)

Inductive Json :=
| JNull
| JObj (j_message j_upload_id j_chunk_url : option string).

Record Response := mkResponse {
  ok : bool;
  http_status : Z;
  statusText : string;
  json : option Json
}.

(** What the network does with one request: [fetch] is rejected, or a response
    arrives. *)
Inductive NetOutcome :=
| NetworkError (msg : string)
| Responded (response : Response).

Inductive Body :=
| InitBody (submission_id : nat) (file_name : string) (file_size : Z) (file_type : string)
           (total_chunks : Z) (upload_id : string)
| ChunkBody (chunk : Blob) (upload_id : option string) (chunk_index total_chunks : Z)
| FinalizeBody (upload_id : option string) (submission_id : nat)
| MediaBody (media : File) (submission_id : nat).

Record Request := mkRequest { req_url : string; req_body : Body }.

Definition Callback := nat.

Inductive Event :=
| EvFetch (req : Request) (out : NetOutcome)
| EvTimeout (ms : Z)
| EvListener (cb : Callback) (s : SyncStatus)
| EvUploadProgress (queueItemId : nat) (progress bytes total : Z).

(** ** The world *)

Record World := mkWorld {
  (* IndexedDB *)
  records : gmap nat LocalRecord;
  recordKey : nat;
  mediaQueue : gmap nat QueueItem;
  queueKey : nat;
  (* module variables of sync.js *)
  syncStatus : SyncStatus;
  syncListeners : list Callback;
  (* environment *)
  onLine : bool;
  estimate : option (option Z * option Z);
  clock : Z;
  storeFaults : list (option Error);
  network : list NetOutcome;
  keepsTransaction : bool;
  (* what the engine did *)
  trace : list Event
}.

Definition set_records (f : gmap nat LocalRecord → gmap nat LocalRecord) (w : World) : World :=
  mkWorld (f (records w)) (recordKey w) (mediaQueue w) (queueKey w)
          (syncStatus w) (syncListeners w) (onLine w) (estimate w)
          (clock w) (storeFaults w) (network w) (keepsTransaction w) (trace w).

Definition set_recordKey (k : nat) (w : World) : World :=
  mkWorld (records w) k (mediaQueue w) (queueKey w)
          (syncStatus w) (syncListeners w) (onLine w) (estimate w)
          (clock w) (storeFaults w) (network w) (keepsTransaction w) (trace w).

Definition set_mediaQueue (f : gmap nat QueueItem → gmap nat QueueItem) (w : World) : World :=
  mkWorld (records w) (recordKey w) (f (mediaQueue w)) (queueKey w)
          (syncStatus w) (syncListeners w) (onLine w) (estimate w)
          (clock w) (storeFaults w) (network w) (keepsTransaction w) (trace w).

Definition set_queueKey (k : nat) (w : World) : World :=
  mkWorld (records w) (recordKey w) (mediaQueue w) k
          (syncStatus w) (syncListeners w) (onLine w) (estimate w)
          (clock w) (storeFaults w) (network w) (keepsTransaction w) (trace w).

Definition set_syncStatus (s : SyncStatus) (w : World) : World :=
  mkWorld (records w) (recordKey w) (mediaQueue w) (queueKey w)
          s (syncListeners w) (onLine w) (estimate w)
          (clock w) (storeFaults w) (network w) (keepsTransaction w) (trace w).

Definition set_syncListeners (l : list Callback) (w : World) : World :=
  mkWorld (records w) (recordKey w) (mediaQueue w) (queueKey w)
          (syncStatus w) l (onLine w) (estimate w)
          (clock w) (storeFaults w) (network w) (keepsTransaction w) (trace w).

Definition set_storeFaults (sf : list (option Error)) (w : World) : World :=
  mkWorld (records w) (recordKey w) (mediaQueue w) (queueKey w)
          (syncStatus w) (syncListeners w) (onLine w) (estimate w)
          (clock w) sf (network w) (keepsTransaction w) (trace w).

Definition set_network (n : list NetOutcome) (w : World) : World :=
  mkWorld (records w) (recordKey w) (mediaQueue w) (queueKey w)
          (syncStatus w) (syncListeners w) (onLine w) (estimate w)
          (clock w) (storeFaults w) n (keepsTransaction w) (trace w).

Definition emit (ev : Event) (w : World) : World :=
  mkWorld (records w) (recordKey w) (mediaQueue w) (queueKey w)
          (syncStatus w) (syncListeners w) (onLine w) (estimate w)
          (clock w) (storeFaults w) (network w) (keepsTransaction w) (trace w ++ [ev]).

(** What an operation finds around it when it starts. *)
Record Env := mkEnv {
  env_onLine : bool;
  env_estimate : option (option Z * option Z);
  env_clock : Z;
  env_storeFaults : list (option Error);
  env_network : list NetOutcome;
  env_keepsTransaction : bool
}.

Definition with_env (e : Env) (w : World) : World :=
  mkWorld (records w) (recordKey w) (mediaQueue w) (queueKey w) (syncStatus w) (syncListeners w)
          (env_onLine e) (env_estimate e) (env_clock e) (env_storeFaults e) (env_network e)
          (env_keepsTransaction e) (trace w).

(** ** The monad of asynchronous code *)

Inductive Outcome (A : Type) :=
| Ok (a : A)
| Throw (e : Error).
Arguments Ok {A} a.
Arguments Throw {A} e.

Definition M (A : Type) : Type := World → Outcome A * World.

Definition ret {A} (a : A) : M A := λ w, (Ok a, w).

Definition throw {A} (e : Error) : M A := λ w, (Throw e, w).

Definition bind {A B} (m : M A) (k : A → M B) : M B :=
  λ w, match m w with
       | (Ok a, w1) => k a w1
       | (Throw e, w1) => (Throw e, w1)
       end.

(** [try { m } catch (error) { h error }] *)
Definition try_catch {A} (m : M A) (h : Error → M A) : M A :=
  λ w, match m w with
       | (Ok a, w1) => (Ok a, w1)
       | (Throw e, w1) => h e w1
       end.

(** A promise run to its end: fulfilled with a value or rejected with a
    reason. *)
Definition settle {A} (m : M A) : M (Outcome A) :=
  λ w, match m w with (r, w1) => (Ok r, w1) end.

(** A promise nobody awaits. *)
Definition detached {A} (m : M A) : M unit :=
  λ w, (Ok tt, (m w).2).

(** What an [await] gives when the promise is not rejected: the value the
    promise is fulfilled with, or nothing, because the promise stays pending
    for ever; the code after the [await] then never runs. *)
Inductive Awaited (A : Type) :=
| Fulfilled (a : A)
| Pending.
Arguments Fulfilled {A} a.
Arguments Pending {A}.

Definition fulfilled {A} (r : Awaited A) : bool :=
  match r with
  | Fulfilled _ => true
  | Pending => false
  end.

Definition gets {A} (f : World → A) : M A := λ w, (Ok (f w), w).

Definition modify (f : World → World) : M unit := λ w, (Ok tt, f w).

Declare Scope M_scope.
Delimit Scope M_scope with M.
Bind Scope M_scope with M.
Notation "x <- m ;; k" := (bind m (λ x, k))
  (at level 100, m at next level, right associativity) : M_scope.
Notation "m ;; k" := (bind m (λ _, k))
  (at level 100, right associativity) : M_scope.
Local Open Scope M_scope.

Fixpoint mapM {A B} (f : A → M B) (l : list A) : M (list B) :=
  match l with
  | [] => ret []
  | x :: l' => y <- f x ;; ys <- mapM f l' ;; ret (y :: ys)
  end.

(** [for (const x of l) { body x }] *)
Fixpoint forEach {A} (l : list A) (body : A → M unit) : M unit :=
  match l with
  | [] => ret tt
  | x :: l' => body x ;; forEach l' body
  end.

(** [Promise.allSettled]: every task runs; nothing is thrown. *)
Definition Promise_allSettled {A} (tasks : list (M A)) : M (list (Outcome A)) :=
  mapM settle tasks.

Fixpoint first_rejection {A} (rs : list (Outcome A)) : option Error :=
  match rs with
  | [] => None
  | Ok _ :: rs' => first_rejection rs'
  | Throw e :: _ => Some e
  end.

Definition fulfilled_values {A} (rs : list (Outcome A)) : list A :=
  omap (λ r, match r with Ok a => Some a | Throw _ => None end) rs.

(** [Promise.all]: every task was already started and runs; the result is
    rejected with the first rejection. *)
Definition Promise_all {A} (tasks : list (M A)) : M (list A) :=
  rs <- Promise_allSettled tasks ;;
  match first_rejection rs with
  | Some e => throw e
  | None => ret (fulfilled_values rs)
  end.

(** ** Environment primitives *)

(** [new Date()] / [Date.now()] *)
Definition Date_now : M Z := gets clock.

(** [setTimeout(resolve, ms)] *)
Definition setTimeout (ms : Z) : M unit := modify (emit (EvTimeout ms)).

Definition plainOk : Response := mkResponse true 200 "OK" (Some (JObj None None None)).

Definition respond (req : Request) (out : NetOutcome) (w : World) : Outcome Response * World :=
  match out with
  | NetworkError msg => (Throw (mkError "TypeError" msg), emit (EvFetch req out) w)
  | Responded response => (Ok response, emit (EvFetch req out) w)
  end.

(** [fetch]: the next outcome the environment has for the network; with
    nothing scripted the server answers 200 with an empty object. *)
Definition fetch (req : Request) : M Response :=
  λ w, match network w with
       | [] => respond req (Responded plainOk) w
       | out :: rest => respond req out (set_network rest w)
       end.

(** JavaScript numbers.  Division by zero, where [Q] and JavaScript part
    ways, does not arise: the divisors are the chunk size, a power of 1024
    and the size of a file that has at least one chunk. *)
Definition num (z : Z) : Q := inject_Z z.
Definition Math_ceil (x : Q) : Z := Qceiling x.
Definition Math_round (x : Q) : Z := Qfloor (x + (1 # 2)).

(** A number is a double, known here by the value it holds.  The result of
    an operation is the double nearest to the exact result, a tie going to
    the even mantissa of 53 bits.  The range of the exponent is left out: the
    quotients and products below lie between 2^-53 and 100, far from the
    smallest and the largest double. *)

(** The whole part of the binary logarithm of a positive number. *)
Definition Qlog2 (x : Q) : Z :=
  let d := Z.log2 (Qnum x) - Z.log2 (Zpos (Qden x)) in
  if Qle_bool (2 ^ d) x then d else d - 1.

(** The nearest integer, a tie going to the even one. *)
Definition roundTiesToEven (x : Q) : Z :=
  let n := Qfloor x in
  match (x - inject_Z n ?= 1 # 2)%Q with
  | Lt => n
  | Eq => if Z.even n then n else n + 1
  | Gt => n + 1
  end.

(** The double nearest to [x]: [x] is scaled to a mantissa of 53 bits,
    which is rounded. *)
Definition double (x : Q) : Q :=
  match Qnum x with
  | Z0 => 0%Q
  | Zpos _ =>
      let e := Qlog2 x - 52 in
      (inject_Z (roundTiesToEven (x / 2 ^ e)) * 2 ^ e)%Q
  | Zneg _ =>
      let e := Qlog2 (- x) - 52 in
      (- (inject_Z (roundTiesToEven (- x / 2 ^ e)) * 2 ^ e))%Q
  end.

(** [a / b] and [a * b] on numbers *)
Definition Number_div (a b : Q) : Q := double (a / b).
Definition Number_mul (a b : Q) : Q := double (a * b).

Arguments double : simpl never.
Arguments Math_round : simpl never.

(** [s.includes(sub)] *)
Definition includes (s sub : string) : bool :=
  match String.index 0 sub s with Some _ => true | None => false end.

(** [a || b] on strings *)
Definition str_or (a : option string) (b : string) : string :=
  match a with
  | Some s => if String.eqb s "" then b else s
  | None => b
  end.

(** [a || b] on numbers *)
Definition num_or (a : option Z) (b : Z) : Z :=
  match a with
  | Some n => if n =? 0 then b else n
  | None => b
  end.

(** ** db.js: the IndexedDB helper *)

Module db.

(** One operation against the store: opening the database, opening the
    transaction and the requests inside it succeed, or the promise is rejected
    with the error the environment gives, and nothing is written. *)
Definition request : M unit :=
  λ w, match storeFaults w with
       | [] => (Ok tt, w)
       | None :: rest => (Ok tt, set_storeFaults rest w)
       | Some e :: rest => (Throw e, set_storeFaults rest w)
       end.

Definition key_le {A} (a b : nat * A) : Prop := (a.1 ≤ b.1)%nat.

Global Instance key_le_dec {A} (a b : nat * A) : Decision (key_le a b).
Proof. unfold key_le. apply _. Defined.

(** [store.getAll()]: the stored objects in key order. *)
Definition getAll (m : gmap nat QueueItem) : list QueueItem :=
  (λ kv, keyed kv.1 kv.2) <$> merge_sort key_le (map_to_list m).

Definition createRecord (record : NewRecord) : M nat :=
  request ;;
  now <- Date_now ;;
  k <- gets recordKey ;;
  modify (set_records <[k := mkRecord k (nr_title record) (nr_description record)
                                      (nr_mediaFiles record) now false]>) ;;
  modify (set_recordKey (S k)) ;;
  ret k.

Inductive RecordUpdate := upd_synced (b : bool).

Definition mergeRecord (r : LocalRecord) (updates : list RecordUpdate) : LocalRecord :=
  foldl (λ r u, match u with
                | upd_synced b => mkRecord (rec_id r) (rec_title r) (rec_description r)
                                           (rec_mediaFiles r) (rec_createdAt r) b
                end) r updates.

Definition updateRecord (k : nat) (updates : list RecordUpdate) : M nat :=
  request ;;
  rs <- gets records ;;
  match rs !! k with
  | None => throw (newError "Record not found")
  | Some record =>
      modify (set_records <[k := mergeRecord (keyedRecord k record) updates]>) ;;
      ret k
  end.

Definition getRecord (k : nat) : M (option LocalRecord) :=
  request ;;
  rs <- gets records ;;
  ret (keyedRecord k <$> rs !! k).

(** [store.getAll()] on the [records] store. *)
Definition getAllOf (m : gmap nat LocalRecord) : list LocalRecord :=
  (λ kv, keyedRecord kv.1 kv.2) <$> merge_sort key_le (map_to_list m).

Definition getAllRecords : M (list LocalRecord) :=
  request ;;
  rs <- gets records ;;
  ret (getAllOf rs).

Definition deleteRecord (k : nat) : M unit :=
  request ;;
  modify (set_records (delete k)).

(** The transaction is opened first; the item is only added in [reader.onload],
    a later task.  A store that still takes the request there answers it as
    usual.  A store that follows the standard has finished the transaction by
    then: [store.add] throws inside the handler, where nothing catches it, so
    the promise is neither resolved nor rejected and nothing is stored.  The
    read of a file the page has selected is taken to succeed. *)
Definition enqueueMedia (queueItem : MediaRequest) : M (Awaited nat) :=
  request ;;
  let file := mr_file queueItem in
  now <- Date_now ;;
  k <- gets queueKey ;;
  let item :=
    {| id := k;
       submissionId := mr_submissionId queueItem;
       fileName := file_name file;
       fileType := file_type file;
       fileSize := size file;
       fileData := file_content file;
       metadata := default (mkMetadata None None) (mr_metadata queueItem);
       status := default pending (mr_status queueItem);
       attempts := num_or (mr_attempts queueItem) 0;
       maxAttempts := num_or (mr_maxAttempts queueItem) 5;
       error := None;
       useChunked := default false (mr_useChunked queueItem);
       uploadProgress := 0;
       bytesUploaded := 0;
       createdAt := now;
       lastAttemptAt := None;
       syncedAt := None |} in
  active <- gets keepsTransaction ;;
  if active : bool then
    modify (set_mediaQueue <[k := item]>) ;;
    modify (set_queueKey (S k)) ;;
    ret (Fulfilled k)
  else ret Pending.

Definition getPendingQueueItems : M (list QueueItem) :=
  request ;;
  q <- gets mediaQueue ;;
  ret (filter (λ it, status it = pending) (getAll q)).

Definition getAllQueueItems : M (list QueueItem) :=
  request ;;
  q <- gets mediaQueue ;;
  ret (getAll q).

Definition getQueueItemsBySubmissionId (sid : nat) : M (list QueueItem) :=
  request ;;
  q <- gets mediaQueue ;;
  ret (filter (λ it, submissionId it = sid) (getAll q)).

Definition updateQueueItem (k : nat) (updates : list ItemUpdate) : M nat :=
  request ;;
  q <- gets mediaQueue ;;
  match q !! k with
  | None => throw (newError "Queue item not found")
  | Some item =>
      modify (set_mediaQueue <[k := merge (keyed k item) updates]>) ;;
      ret k
  end.

Definition deleteQueueItem (k : nat) : M unit :=
  request ;;
  modify (set_mediaQueue (delete k)).

Definition arrayBufferToFile (arrayBuffer : ArrayBuffer) (fileName fileType : string) : File :=
  mkFile fileName fileType arrayBuffer.

End db.

(** ** api.js: the transfer client *)

Module api.

Definition API_BASE_URL : string := "http://localhost:3000/api".

Definition handleResponse (response : Response) : M Json :=
  if negb (ok response) then
    let error := default (JObj (Some (statusText response)) None None) (json response) in
    match error with
    | JNull => throw (mkError "TypeError" "Cannot read properties of null")
    | JObj m _ _ =>
        throw (newError (str_or m ("HTTP error! status: " +:+ pretty (http_status response))))
    end
  else
    match json response with
    | Some j => ret j
    | None => throw (mkError "SyntaxError" "Unexpected end of JSON input")
    end.

Definition post (endpoint : string) (data : Body) : M Json :=
  response <- fetch (mkRequest (API_BASE_URL +:+ endpoint) data) ;;
  handleResponse response.

Definition postFormData (endpoint : string) (formData : Body) : M Json :=
  response <- fetch (mkRequest (API_BASE_URL +:+ endpoint) formData) ;;
  handleResponse response.

Definition uploadMedia (submissionId : nat) (file : File) : M Json :=
  postFormData "/media-uploads" (MediaBody file submissionId).

Definition CHUNK_SIZE : Z := 5 * 1024 * 1024.

Definition totalChunksOf (fileSize : Z) : Z := Math_ceil (num fileSize / num CHUNK_SIZE).

Definition chunkStart (chunkIndex : Z) : Z := chunkIndex * CHUNK_SIZE.

Definition chunkEnd (fileSize chunkIndex : Z) : Z :=
  Z.min (chunkStart chunkIndex + CHUNK_SIZE) fileSize.

(** One pass of the body of [while (retries > 0 && !success)]. *)
Definition chunkAttempt (file : File) (fileSize totalChunks : Z) (upload_id chunk_url : option string)
    (onProgress : option (Z → Z → M unit)) (chunkIndex : Z) : M unit :=
  let start := chunkStart chunkIndex in
  let end_ := chunkEnd fileSize chunkIndex in
  let chunk := slice file start end_ in
  response <- fetch (mkRequest (API_BASE_URL +:+ str_or chunk_url "/media-uploads/chunk")
                               (ChunkBody chunk upload_id chunkIndex totalChunks)) ;;
  if negb (ok response) then
    throw (newError ("Chunk upload failed: " +:+ statusText response))
  else
    let bytesUploaded := end_ in
    match onProgress with
    | Some cb => detached (cb bytesUploaded fileSize)
    | None => ret tt
    end.

(** The [while] loop of one chunk, entered with [retries] attempts left. *)
Fixpoint chunkRetryLoop (retries : nat) (attempt : M unit) (chunkIndex totalChunks : Z) : M unit :=
  match retries with
  | O => ret tt
  | S retries' =>
      success <- try_catch (attempt ;; ret true)
        (λ error,
           if decide (retries' = O) then
             throw (newError ("Failed to upload chunk " +:+ pretty (chunkIndex + 1) +:+ "/" +:+
                              pretty totalChunks +:+ ": " +:+ err_message error))
           else
             setTimeout (2 ^ (3 - Z.of_nat retries') * 1000) ;;
             ret false) ;;
      if success : bool then ret tt else chunkRetryLoop retries' attempt chunkIndex totalChunks
  end.

(** The loop [for (let chunkIndex = 0; chunkIndex < totalChunks; chunkIndex++)],
    each chunk starting with [retries = 3]. *)
Definition uploadChunks (file : File) (fileSize totalChunks : Z)
    (upload_id chunk_url : option string) (onProgress : option (Z → Z → M unit)) : M unit :=
  forEach (seqZ 0 totalChunks) (λ chunkIndex,
    chunkRetryLoop 3
      (chunkAttempt file fileSize totalChunks upload_id chunk_url onProgress chunkIndex)
      chunkIndex totalChunks).

Definition uploadMediaChunked (submissionId : nat) (file : File)
    (onProgress : option (Z → Z → M unit)) : M Json :=
  let fileSize := size file in
  let totalChunks := totalChunksOf fileSize in
  now <- Date_now ;;
  let uploadId := pretty submissionId +:+ "-" +:+ file_name file +:+ "-" +:+ pretty now in
  initResponse <- post "/media-uploads/init"
    (InitBody submissionId (file_name file) fileSize (file_type file) totalChunks uploadId) ;;
  match initResponse with
  | JNull => throw (mkError "TypeError" "Cannot destructure property 'upload_id'")
  | JObj _ upload_id chunk_url =>
      uploadChunks file fileSize totalChunks upload_id chunk_url onProgress ;;
      post "/media-uploads/finalize" (FinalizeBody upload_id submissionId)
  end.

Definition LARGE_FILE_THRESHOLD : Z := 10 * 1024 * 1024.

Definition shouldUseChunkedUpload (file : File) : bool :=
  bool_decide (size file > LARGE_FILE_THRESHOLD).

End api.

(** ** utils.js: quota helpers *)

Module utils.

Record StorageQuota := mkQuota { quota : Z; usage : Z; available : Z }.

Definition getStorageQuota : M StorageQuota :=
  est <- gets estimate ;;
  match est with
  | Some (q, u) => ret (mkQuota (num_or q 0) (num_or u 0) (num_or q 0 - num_or u 0))
  | None => ret (mkQuota 0 0 0)
  end.

Definition sizes : list string := ["Bytes"; "KB"; "MB"; "GB"; "TB"].

(** A number of hundredths printed the way JavaScript prints the number. *)
Definition showHundredths (h : Z) : string :=
  let whole := pretty (h / 100) in
  let r := h mod 100 in
  if r =? 0 then whole
  else if r mod 10 =? 0 then whole +:+ "." +:+ pretty (r / 10)
  else if r <? 10 then whole +:+ ".0" +:+ pretty r
  else whole +:+ "." +:+ pretty r.

(** [Math.floor(Math.log(bytes) / Math.log(k))] is the number of whole powers
    of 1024 below [bytes]. *)
Definition formatBytes (bytes : Z) : string :=
  if bytes =? 0 then "0 Bytes"
  else if bytes <? 0 then "NaN undefined"
  else
    let k := 1024 in
    let i := Z.log2 bytes / 10 in
    showHundredths (Math_round (num bytes / num (k ^ i) * 100)) +:+ " " +:+
    default "undefined" (sizes !! Z.to_nat i).

Record StorageCheck := mkCheck { enough : bool; sc_available : Z; needed : Z }.

Definition checkStorageAvailability (fileSize : Z) : M StorageCheck :=
  q <- getStorageQuota ;;
  ret (mkCheck (bool_decide (available q >= fileSize)) (available q) fileSize).

Record QuotaError := mkQuotaError { qe_type : string; qe_message : string; recoverable : bool }.

Definition handleQuotaError (error : Error) (context : string) : QuotaError :=
  if String.eqb (err_name error) "QuotaExceededError" then
    mkQuotaError "quota_exceeded" "Storage quota exceeded. Please free up space." true
  else
    mkQuotaError "unknown" (str_or (Some (err_message error)) "Storage error occurred") false.

End utils.

(** ** sync.js: the queue and the coordinator *)

Module sync.

Record SubmissionData := mkSubmission {
  title : string;
  description : option string;
  mediaFiles : list File
}.

Record Counts := mkCounts { synced_count : Z; failed_count : Z }.

(** What [syncQueueItem] returns. *)
Record SyncResult := mkResult {
  success : bool;
  itemId : nat;
  res_error : option Error;
  shouldRetry : option bool
}.

(** [callback(status)] *)
Definition call (callback : Callback) (s : SyncStatus) : M unit :=
  modify (emit (EvListener callback s)).

Definition onSyncStatusChange (callback : Callback) : M unit :=
  ls <- gets syncListeners ;;
  modify (set_syncListeners (ls ++ [callback])) ;;
  s <- gets syncStatus ;;
  call callback s.

Definition notifySyncStatusChange (s : SyncStatus) : M unit :=
  modify (set_syncStatus s) ;;
  ls <- gets syncListeners ;;
  forEach ls (λ cb, call cb s).

Definition isOnline : M bool := gets onLine.

Definition createProgressCallback (queueItemId : nat) : Z → Z → M unit :=
  λ bytesUploaded totalBytes,
    let progress :=
      Math_round (Number_mul (Number_div (num bytesUploaded) (num totalBytes)) 100) in
    db.updateQueueItem queueItemId
      [upd_uploadProgress progress; upd_bytesUploaded bytesUploaded] ;;
    modify (emit (EvUploadProgress queueItemId progress bytesUploaded totalBytes)).

Definition checkAndUpdateRecordSyncStatus (sid : nat) : M unit :=
  queueItems <- db.getQueueItemsBySubmissionId sid ;;
  let allSynced := forallb (λ item, bool_decide (status item = synced)) queueItems in
  if allSynced then db.updateRecord sid [db.upd_synced true] ;; ret tt
  else ret tt.

(** [queueItem.useChunked || api.shouldUseChunkedUpload(file)]: the path
    [syncQueueItem] takes for [file], the stored payload of [queueItem]. *)
Definition chosenMode (queueItem : QueueItem) (file : File) : bool :=
  useChunked queueItem || api.shouldUseChunkedUpload file.

(** The [try] block of [syncQueueItem]. *)
Definition attemptItem (queueItem : QueueItem) : M SyncResult :=
  let file := db.arrayBufferToFile (fileData queueItem) (fileName queueItem)
                                   (fileType queueItem) in
  db.updateQueueItem (id queueItem)
    [upd_status uploading; upd_attempts (attempts queueItem + 1);
     upd_uploadProgress 0; upd_bytesUploaded 0] ;;
  let useChunked := chosenMode queueItem file in
  (if useChunked then
     let progressCallback := createProgressCallback (id queueItem) in
     api.uploadMediaChunked (submissionId queueItem) file (Some progressCallback) ;;
     ret tt
   else
     api.uploadMedia (submissionId queueItem) file ;;
     db.updateQueueItem (id queueItem)
       [upd_uploadProgress 100; upd_bytesUploaded (size file)] ;;
     ret tt) ;;
  now <- Date_now ;;
  db.updateQueueItem (id queueItem)
    [upd_status synced; upd_syncedAt now; upd_uploadProgress 100] ;;
  checkAndUpdateRecordSyncStatus (submissionId queueItem) ;;
  ret (mkResult true (id queueItem) None None).

(** The [catch] block of [syncQueueItem]. *)
Definition recordFailure (queueItem : QueueItem) (error : Error) : M SyncResult :=
  let newAttempts := attempts queueItem + 1 in
  let shouldRetry := bool_decide (newAttempts < maxAttempts queueItem) in
  now <- Date_now ;;
  db.updateQueueItem (id queueItem)
    [upd_status (if shouldRetry then pending else failed);
     upd_attempts newAttempts;
     upd_error (Some (err_message error));
     upd_lastAttemptAt now;
     upd_uploadProgress 0] ;;
  ret (mkResult false (id queueItem) (Some error) (Some shouldRetry)).

Definition syncQueueItem (queueItem : QueueItem) : M SyncResult :=
  try_catch (attemptItem queueItem) (recordFailure queueItem).

(** What one promise of the pass resolves with: the result of
    [syncQueueItem], or the error it was rejected with. *)
Definition dispatch (index : nat) (item : QueueItem) : M (SyncResult + Error) :=
  let delay := Z.of_nat index * 100 in
  setTimeout delay ;;
  r <- settle (syncQueueItem item) ;;
  match r with
  | Ok v => ret (inl v)
  | Throw e => ret (inr e)
  end.

(** [r.status === 'fulfilled' && r.value.success] *)
Definition succeeded (r : Outcome (SyncResult + Error)) : bool :=
  match r with
  | Ok (inl v) => success v
  | Ok (inr _) => false
  | Throw _ => false
  end.

Definition syncQueue : M Counts :=
  online <- isOnline ;;
  if negb online then ret (mkCounts 0 0)
  else
    s <- gets syncStatus ;;
    if decide (s = SYNCING) then ret (mkCounts 0 0)
    else
      notifySyncStatusChange SYNCING ;;
      try_catch
        (pendingItems <- db.getPendingQueueItems ;;
         if decide (length pendingItems = 0%nat) then
           notifySyncStatusChange SUCCESS ;;
           ret (mkCounts 0 0)
         else
           results <- Promise_allSettled (imap dispatch pendingItems) ;;
           let synced := Z.of_nat (length (filter (λ r, succeeded r = true) results)) in
           let failed := Z.of_nat (length results) - synced in
           notifySyncStatusChange (if decide (failed = 0) then SUCCESS else ERROR) ;;
           ret (mkCounts synced failed))
        (λ error,
           notifySyncStatusChange ERROR ;;
           throw error).

Definition enqueueSubmission (submissionData : SubmissionData) : M (Awaited nat) :=
  try_catch
    (let totalSize := foldl (λ sum file, sum + size file) 0 (mediaFiles submissionData) in
     storageCheck <- utils.checkStorageAvailability totalSize ;;
     (if negb (utils.enough storageCheck) then
        throw (mkError "QuotaExceededError"
                 ("Not enough storage space. Available: " +:+
                  utils.formatBytes (utils.sc_available storageCheck) +:+ ", Needed: " +:+
                  utils.formatBytes (utils.needed storageCheck)))
      else ret tt) ;;
     let record :=
       mkNewRecord (title submissionData) (description submissionData)
         (map (λ f, mkDescriptor (file_name f) (file_type f) (size f))
              (mediaFiles submissionData))
         false in
     recordId <- db.createRecord record ;;
     let queuePromises :=
       map (λ file,
              db.enqueueMedia
                (mkMediaRequest recordId file
                   (Some (mkMetadata (Some (title submissionData)) (description submissionData)))
                   (Some pending) None None
                   (Some (api.shouldUseChunkedUpload file))))
           (mediaFiles submissionData) in
     queued <- Promise_all queuePromises ;;
     if forallb fulfilled queued then
       online <- isOnline ;;
       (if online then detached syncQueue else ret tt) ;;
       ret (Fulfilled recordId)
     else ret Pending)
    (λ error,
       if String.eqb (err_name error) "QuotaExceededError" || includes (err_message error) "quota"
       then
         let quotaError := utils.handleQuotaError error "enqueueSubmission" in
         throw (newError (utils.qe_message quotaError))
       else throw error).

Record Stats := mkStats {
  stat_total : Z;
  stat_pending : Z;
  stat_uploading : Z;
  stat_synced : Z;
  stat_failed : Z
}.

Definition getSyncStats : M Stats :=
  queueItems <- db.getAllQueueItems ;;
  let count (s : ItemStatus) := Z.of_nat (length (filter (λ i, status i = s) queueItems)) in
  ret (mkStats (Z.of_nat (length queueItems))
               (count pending) (count uploading) (count synced) (count failed)).

Definition retryFailedItems : M Counts :=
  allItems <- db.getAllQueueItems ;;
  let failedItems :=
    filter (λ item, status item = failed ∧ attempts item < maxAttempts item) allItems in
  Promise_all
    (map (λ item, db.updateQueueItem (id item) [upd_status pending; upd_error None])
         failedItems) ;;
  online <- isOnline ;;
  if bool_decide (0 < length failedItems)%nat && online then syncQueue
  else ret (mkCounts 0 0).

(** The two listeners [initSync] installs. *)
Definition onOnline : M unit := detached syncQueue.

Definition onOffline : M unit := notifySyncStatusChange IDLE.

End sync.

(** ** ui.js: what the page does with the engine *)

Module ui.

Definition MAX_FILE_SIZE : Z := 500 * 1024 * 1024.

Definition MAX_TOTAL_SIZE : Z := 2 * 1024 * 1024 * 1024.

(** What the [change] listener of the file input does with a selection: one
    of the two alerts, after which the input is cleared, or the files kept.
    A file is shown by its name and its size, and a kept file also by the
    mark of a chunked upload. *)
Inductive Selection :=
| TooLarge (oversizedFiles : list (string * Z))
| TotalTooLarge (totalSize : Z)
| Selected (fileInfo : list (string * Z * bool)).

Definition onFilesChange (files : list File) : Selection :=
  let totalSize := foldl (λ sum file, sum + size file) 0 files in
  let oversizedFiles :=
    (λ file, (file_name file, size file)) <$> filter (λ file, size file > MAX_FILE_SIZE) files in
  if bool_decide (0 < length oversizedFiles)%nat then TooLarge oversizedFiles
  else if bool_decide (totalSize > MAX_TOTAL_SIZE) then TotalTooLarge totalSize
  else Selected ((λ f, (file_name f, size f, bool_decide (size f > 10 * 1024 * 1024)))
                   <$> files).

(** The text of the [alert] a handler ends with. *)
Inductive Alert :=
| AlertMissing
| AlertCreated
| AlertQuota
| AlertSyncComplete (synced failed : Z)
| AlertError (message : string).

(** [submissions-list]: the records shown, or the error state. *)
Definition loadSubmissions : M (option (list LocalRecord)) :=
  try_catch (records <- db.getAllRecords ;; ret (Some records)) (λ _, ret None).

Definition statusOrder (s : ItemStatus) : Z :=
  match s with
  | pending => 0
  | uploading => 1
  | synced => 2
  | failed => 3
  end.

(** The comparator [loadQueue] sorts with. *)
Definition compareItems (a b : QueueItem) : Z :=
  if decide (statusOrder (status a) ≠ statusOrder (status b))
  then statusOrder (status a) - statusOrder (status b)
  else createdAt a - createdAt b.

Fixpoint insertBy {A} (compare : A → A → Z) (x : A) (l : list A) : list A :=
  match l with
  | [] => [x]
  | y :: l' => if decide (compare x y ≤ 0) then x :: l else y :: insertBy compare x l'
  end.

(** [array.sort(compare)]: a stable sort. *)
Fixpoint Array_sort {A} (compare : A → A → Z) (l : list A) : list A :=
  match l with
  | [] => []
  | x :: l' => insertBy compare x (Array_sort compare l')
  end.

(** [queue-count] and [queue-list]: what each of them shows after
    [loadQueue]; [None] is a count left as it was, and the error state of the
    list. *)
Record QueueView := mkView {
  queueCount : option Z;
  queueList : option (list QueueItem)
}.

Definition loadQueue : M QueueView :=
  read <- settle sync.getSyncStats ;;
  match read with
  | Throw _ => ret (mkView None None)
  | Ok stats =>
      try_catch
        (queueItems <- db.getAllQueueItems ;;
         ret (mkView (Some (sync.stat_pending stats))
                     (Some (Array_sort compareItems queueItems))))
        (λ _, ret (mkView (Some (sync.stat_pending stats)) None))
  end.

(** [error.name === 'QuotaExceededError' || error.message.includes('quota')] *)
Definition isQuotaError (error : Error) : bool :=
  String.eqb (err_name error) "QuotaExceededError" || includes (err_message error) "quota".

(** The [submit] listener of the form: the alert it ends with, or [Pending]
    when it stops at its [await] for ever, the button left disabled. *)
Definition onSubmit (title description : string) (mediaFiles : list File) : M (Awaited Alert) :=
  if String.eqb title "" || bool_decide (length mediaFiles = 0%nat)
  then ret (Fulfilled AlertMissing)
  else
    try_catch
      (created <- sync.enqueueSubmission (sync.mkSubmission title (Some description) mediaFiles) ;;
       match created with
       | Fulfilled _ =>
           detached loadSubmissions ;;
           detached loadQueue ;;
           ret (Fulfilled AlertCreated)
       | Pending => ret Pending
       end)
      (λ error,
         if isQuotaError error then ret (Fulfilled AlertQuota)
         else ret (Fulfilled (AlertError ("Error creating submission: " +:+
                                          err_message error)))).

(** The [click] listener of the sync button. *)
Definition onSyncNow : M Alert :=
  try_catch
    (result <- sync.syncQueue ;;
     detached loadQueue ;;
     detached loadSubmissions ;;
     ret (AlertSyncComplete (sync.synced_count result) (sync.failed_count result)))
    (λ error, ret (AlertError ("Error syncing: " +:+ err_message error))).

End ui.

(** ** Runs of the engine *)

(** What can happen to the engine from outside. *)
Inductive Op :=
| OpEnqueue (submissionData : sync.SubmissionData)
| OpSyncQueue
| OpRetryFailed
| OpSubscribe (callback : Callback)
| OpOnline
| OpOffline.

Definition perform (op : Op) : M unit :=
  match op with
  | OpEnqueue s => detached (sync.enqueueSubmission s)
  | OpSyncQueue => detached sync.syncQueue
  | OpRetryFailed => detached sync.retryFailedItems
  | OpSubscribe cb => sync.onSyncStatusChange cb
  | OpOnline => sync.onOnline
  | OpOffline => sync.onOffline
  end.

(** One operation, started in the environment it finds. *)
Definition step (w : World) (eo : Env * Op) : World :=
  (perform eo.2 (with_env eo.1 w)).2.

Definition calm : Env := mkEnv true (Some (Some 1000000000, Some 0)) 0 [] [] true.

(** A fresh installation: empty stores, nothing subscribed. *)
Definition initial : World :=
  mkWorld ∅ 1 ∅ 1 IDLE [] true None 0 [] [] false [].

Definition run (w : World) (script : list (Env * Op)) : World := foldl step w script.

Definition reachable (w : World) : Prop := ∃ script, w = run initial script.

(** * Reasoning about asynchronous code *)

(** [m] moves every world to an [R]-related one, whatever it returns. *)
Definition respects {A} (R : relation World) (m : M A) : Prop := ∀ w, R w (m w).2.

(** Relations that the environment primitives respect. *)
Class Ambient (R : relation World) := {
  ambient_preorder :: PreOrder R;
  ambient_request : respects R db.request;
  ambient_network : ∀ n w, R w (set_network n w);
  ambient_emit : ∀ ev w, R w (emit ev w)
}.

Section Respects.
Context (R : relation World) `{!PreOrder R}.

Lemma respects_ret {A} (a : A) : respects R (ret a).
Proof. intros w. reflexivity. Qed.

Lemma respects_throw {A} e : respects R (@throw A e).
Proof. intros w. reflexivity. Qed.

Lemma respects_gets {A} (f : World → A) : respects R (gets f).
Proof. intros w. reflexivity. Qed.

Lemma respects_modify f : (∀ w, R w (f w)) → respects R (modify f).
Proof. intros H w. apply H. Qed.

Lemma respects_bind {A B} (m : M A) (k : A → M B) :
  respects R m → (∀ a, respects R (k a)) → respects R (bind m k).
Proof.
  intros Hm Hk w. unfold bind. specialize (Hm w).
  destruct (m w) as [[a|e] w1]; simpl in *; [|done].
  etrans; [exact Hm | apply Hk].
Qed.

Lemma respects_try_catch {A} (m : M A) (h : Error → M A) :
  respects R m → (∀ e, respects R (h e)) → respects R (try_catch m h).
Proof.
  intros Hm Hh w. unfold try_catch. specialize (Hm w).
  destruct (m w) as [[a|e] w1]; simpl in *; [done|].
  etrans; [exact Hm | apply Hh].
Qed.

Lemma respects_settle {A} (m : M A) : respects R m → respects R (settle m).
Proof. intros Hm w. unfold settle. specialize (Hm w). by destruct (m w). Qed.

Lemma respects_detached {A} (m : M A) : respects R m → respects R (detached m).
Proof. intros Hm w. apply Hm. Qed.

Lemma respects_mapM {A B} (f : A → M B) (l : list A) :
  (∀ x, x ∈ l → respects R (f x)) → respects R (mapM f l).
Proof.
  induction l as [|x l IH]; intros H; simpl.
  - apply respects_ret.
  - apply respects_bind; [apply H; left|]. intros y.
    apply respects_bind; [apply IH; intros; apply H; by right|].
    intros ys. apply respects_ret.
Qed.

Lemma respects_forEach {A} (l : list A) (body : A → M unit) :
  (∀ x, x ∈ l → respects R (body x)) → respects R (forEach l body).
Proof.
  induction l as [|x l IH]; intros H; simpl.
  - apply respects_ret.
  - apply respects_bind; [apply H; left|]. intros _.
    apply IH. intros; apply H; by right.
Qed.

Lemma respects_allSettled {A} (tasks : list (M A)) :
  (∀ t, t ∈ tasks → respects R t) → respects R (Promise_allSettled tasks).
Proof. intros H. apply respects_mapM. intros t Ht. apply respects_settle, H, Ht. Qed.

Lemma respects_all {A} (tasks : list (M A)) :
  (∀ t, t ∈ tasks → respects R t) → respects R (Promise_all tasks).
Proof.
  intros H. apply respects_bind; [by apply respects_allSettled|].
  intros rs. destruct (first_rejection rs); [apply respects_throw | apply respects_ret].
Qed.
End Respects.

(** Structural steps shared by the proofs below. *)
Ltac respects_step :=
  lazymatch goal with
  | |- respects _ (bind _ _) => apply respects_bind; [try apply _ | | intros ?]
  | |- respects _ (ret _) => apply respects_ret; try apply _
  | |- respects _ (throw _) => apply respects_throw; try apply _
  | |- respects _ (gets _) => apply respects_gets; try apply _
  | |- respects _ Date_now => apply respects_gets; try apply _
  | |- respects _ sync.isOnline => apply respects_gets; try apply _
  | |- respects _ (try_catch _ _) => apply respects_try_catch; [try apply _ | | intros ?]
  | |- respects _ (detached _) => apply respects_detached
  | |- respects _ (settle _) => apply respects_settle
  | |- respects _ db.request => apply ambient_request
  | |- respects _ (if ?b then _ else _) => destruct b
  | |- respects _ (match ?x with _ => _ end) => destruct x
  end.

Ltac respects_with tac := repeat (first [assumption | tac | respects_step]).

Ltac respects_auto := respects_with fail.

Section AmbientRespects.
Context (R : relation World) `{!Ambient R}.

Lemma respects_emit ev : respects R (modify (emit ev)).
Proof. apply respects_modify, ambient_emit. Qed.

Lemma respects_setTimeout ms : respects R (setTimeout ms).
Proof. apply respects_emit. Qed.

Lemma respects_fetch req : respects R (fetch req).
Proof.
  intros w. unfold fetch, respond.
  destruct (network w) as [|[msg|resp] rest]; simpl;
    try apply ambient_emit; (etrans; [apply (ambient_network rest)|apply ambient_emit]).
Qed.

Lemma respects_handleResponse resp : respects R (api.handleResponse resp).
Proof. unfold api.handleResponse. respects_auto. Qed.

Lemma respects_post endpoint data : respects R (api.post endpoint data).
Proof.
  unfold api.post. respects_step; [apply respects_fetch | apply respects_handleResponse].
Qed.

Lemma respects_uploadMedia sid file : respects R (api.uploadMedia sid file).
Proof.
  unfold api.uploadMedia, api.postFormData.
  respects_step; [apply respects_fetch | apply respects_handleResponse].
Qed.

Lemma respects_chunkAttempt file fs tc uid url cb i :
  (∀ b t, respects R (cb b t)) →
  respects R (api.chunkAttempt file fs tc uid url (Some cb) i).
Proof.
  intros Hcb. unfold api.chunkAttempt. cbv zeta.
  respects_step; [apply respects_fetch|].
  respects_auto. apply Hcb.
Qed.

Lemma respects_chunkRetryLoop n attempt i tc :
  respects R attempt → respects R (api.chunkRetryLoop n attempt i tc).
Proof.
  intros Ha. induction n as [|n IH]; simpl; [apply respects_ret; apply _|].
  respects_step.
  - respects_step; [respects_auto|].
    case_decide; respects_auto. apply respects_setTimeout.
  - respects_auto.
Qed.

Lemma respects_uploadMediaChunked sid file cb :
  (∀ b t, respects R (cb b t)) →
  respects R (api.uploadMediaChunked sid file (Some cb)).
Proof.
  intros Hcb. unfold api.uploadMediaChunked. cbv zeta.
  respects_step; [respects_auto|].
  respects_step; [apply respects_post|].
  respects_step; [respects_auto|].
  respects_step; [|apply respects_post].
  unfold api.uploadChunks.
  apply respects_forEach; [apply _|]. intros i _.
  apply respects_chunkRetryLoop, respects_chunkAttempt, Hcb.
Qed.

Lemma respects_getQueueItemsBySubmissionId sid :
  respects R (db.getQueueItemsBySubmissionId sid).
Proof. unfold db.getQueueItemsBySubmissionId. respects_auto. Qed.

Lemma respects_getPendingQueueItems : respects R db.getPendingQueueItems.
Proof. unfold db.getPendingQueueItems. respects_auto. Qed.

Lemma respects_getAllQueueItems : respects R db.getAllQueueItems.
Proof. unfold db.getAllQueueItems. respects_auto. Qed.

Lemma respects_updateQueueItem k us :
  (∀ w it, mediaQueue w !! k = Some it →
           R w (set_mediaQueue <[k := merge (keyed k it) us]> w)) →
  respects R (db.updateQueueItem k us).
Proof.
  intros H. unfold db.updateQueueItem.
  respects_step; [respects_auto|]. intros w. unfold bind, gets. simpl.
  destruct (mediaQueue w !! k) eqn:E; simpl; [by apply H | reflexivity].
Qed.

Lemma respects_updateRecord k us :
  (∀ w r, records w !! k = Some r →
          R w (set_records <[k := db.mergeRecord (keyedRecord k r) us]> w)) →
  respects R (db.updateRecord k us).
Proof.
  intros H. unfold db.updateRecord.
  respects_step; [respects_auto|]. intros w. unfold bind, gets. simpl.
  destruct (records w !! k) eqn:E; simpl; [by apply H | reflexivity].
Qed.
End AmbientRespects.

(** The updates [syncQueueItem] sends for the item [q] it was given. *)
Inductive sync_update (q : QueueItem) : list ItemUpdate → Prop :=
| su_begin :
    sync_update q [upd_status uploading; upd_attempts (attempts q + 1);
                   upd_uploadProgress 0; upd_bytesUploaded 0]
| su_progress p b :
    sync_update q [upd_uploadProgress p; upd_bytesUploaded b]
| su_synced now :
    sync_update q [upd_status synced; upd_syncedAt now; upd_uploadProgress 100]
| su_failed msg now :
    sync_update q [upd_status (if bool_decide (attempts q + 1 < maxAttempts q)
                               then pending else failed);
                   upd_attempts (attempts q + 1); upd_error (Some msg);
                   upd_lastAttemptAt now; upd_uploadProgress 0].

Section SyncRespects.
Context (R : relation World) `{!Ambient R}.

Lemma respects_createProgressCallback k b t :
  (∀ p, respects R (db.updateQueueItem k [upd_uploadProgress p; upd_bytesUploaded b])) →
  respects R (sync.createProgressCallback k b t).
Proof.
  intros H. unfold sync.createProgressCallback. cbv zeta.
  respects_step; [apply H | apply respects_emit; apply _].
Qed.

Lemma respects_checkAndUpdateRecordSyncStatus sid :
  respects R (db.updateRecord sid [db.upd_synced true]) →
  respects R (sync.checkAndUpdateRecordSyncStatus sid).
Proof.
  intros H. unfold sync.checkAndUpdateRecordSyncStatus.
  respects_step; [by apply respects_getQueueItemsBySubmissionId|].
  cbv zeta. respects_auto.
Qed.

Lemma respects_attemptItem q :
  (∀ us, sync_update q us → respects R (db.updateQueueItem (id q) us)) →
  respects R (db.updateRecord (submissionId q) [db.upd_synced true]) →
  respects R (sync.attemptItem q).
Proof.
  intros Hq Hr. unfold sync.attemptItem. cbv zeta.
  respects_step; [apply Hq; constructor|].
  respects_step.
  - respects_step.
    + respects_step; [|respects_auto].
      apply respects_uploadMediaChunked; [apply _|]. intros b t.
      apply respects_createProgressCallback. intros p. apply Hq. constructor.
    + respects_step; [by apply respects_uploadMedia|].
      respects_step; [|respects_auto].
      apply Hq. constructor.
  - respects_step; [respects_auto|].
    respects_step; [apply Hq; constructor|].
    respects_step; [by apply respects_checkAndUpdateRecordSyncStatus|].
    respects_auto.
Qed.

Lemma respects_recordFailure q e :
  (∀ us, sync_update q us → respects R (db.updateQueueItem (id q) us)) →
  respects R (sync.recordFailure q e).
Proof.
  intros Hq. unfold sync.recordFailure. cbv zeta.
  respects_step; [respects_auto|].
  respects_step; [apply Hq; constructor|].
  respects_auto.
Qed.

Lemma respects_syncQueueItem q :
  (∀ us, sync_update q us → respects R (db.updateQueueItem (id q) us)) →
  respects R (db.updateRecord (submissionId q) [db.upd_synced true]) →
  respects R (sync.syncQueueItem q).
Proof.
  intros Hq Hr. unfold sync.syncQueueItem.
  apply respects_try_catch; [apply _|by apply respects_attemptItem|].
  intros e. by apply respects_recordFailure.
Qed.

Lemma respects_dispatch i q :
  (∀ us, sync_update q us → respects R (db.updateQueueItem (id q) us)) →
  respects R (db.updateRecord (submissionId q) [db.upd_synced true]) →
  respects R (sync.dispatch i q).
Proof.
  intros Hq Hr. unfold sync.dispatch. cbv zeta.
  respects_step; [apply respects_setTimeout; apply _|].
  respects_step; [by apply respects_settle, respects_syncQueueItem|].
  respects_auto.
Qed.

(** The items of a pass, dispatched from index [n] on. *)
Lemma respects_pass (f : nat → nat) items :
  (∀ q us, q ∈ items → sync_update q us → respects R (db.updateQueueItem (id q) us)) →
  (∀ q, q ∈ items → respects R (db.updateRecord (submissionId q) [db.upd_synced true])) →
  respects R (Promise_allSettled (imap (λ i, sync.dispatch (f i)) items)).
Proof.
  intros Hq Hr. apply respects_allSettled; [apply _|].
  intros t Ht. apply elem_of_lookup_imap in Ht as (i & q & -> & Hi).
  apply list_elem_of_lookup_2 in Hi.
  apply respects_dispatch; [intros us; by apply Hq | by apply Hr].
Qed.
End SyncRespects.

(** Relations respected by every write of the engine are respected by every
    operation. *)
Section EngineRespects.
Context (R : relation World) `{!Ambient R}.
Hypothesis Hnotify : ∀ s, respects R (sync.notifySyncStatusChange s).
Hypothesis Hsubscribe : ∀ cb, respects R (sync.onSyncStatusChange cb).
Hypothesis HupdateQueueItem : ∀ k us, respects R (db.updateQueueItem k us).
Hypothesis HupdateRecord : ∀ k us, respects R (db.updateRecord k us).
Hypothesis HcreateRecord : ∀ r, respects R (db.createRecord r).
Hypothesis HenqueueMedia : ∀ r, respects R (db.enqueueMedia r).
Hypothesis Henv : ∀ e w, R w (with_env e w).

Local Ltac engine_prim :=
  first [ apply Hnotify | apply HupdateQueueItem | apply HupdateRecord
        | apply HcreateRecord | apply HenqueueMedia
        | apply respects_getPendingQueueItems; apply _
        | apply respects_getAllQueueItems; apply _ ].

Lemma engine_syncQueue : respects R sync.syncQueue.
Proof.
  unfold sync.syncQueue. cbv zeta.
  respects_with engine_prim.
  apply (respects_pass R (λ i, i)); auto.
Qed.

Lemma engine_enqueueSubmission s : respects R (sync.enqueueSubmission s).
Proof.
  unfold sync.enqueueSubmission, utils.checkStorageAvailability, utils.getStorageQuota.
  cbv zeta.
  respects_with ltac:(first [engine_prim | apply engine_syncQueue]).
  all: apply respects_all; [apply _|]; intros t Ht;
    apply list_elem_of_fmap in Ht as (f & -> & _); apply HenqueueMedia.
Qed.

Lemma engine_retryFailedItems : respects R sync.retryFailedItems.
Proof.
  unfold sync.retryFailedItems. cbv zeta.
  respects_with ltac:(first [engine_prim | apply engine_syncQueue]).
  all: apply respects_all; [apply _|]; intros t Ht;
    apply list_elem_of_fmap in Ht as (f & -> & _); apply HupdateQueueItem.
Qed.

Lemma engine_perform op : respects R (perform op).
Proof.
  destruct op; simpl.
  - apply respects_detached, engine_enqueueSubmission.
  - apply respects_detached, engine_syncQueue.
  - apply respects_detached, engine_retryFailedItems.
  - apply Hsubscribe.
  - apply respects_detached, engine_syncQueue.
  - apply Hnotify.
Qed.

Lemma engine_step w eo : R w (step w eo).
Proof. unfold step. etrans; [apply (Henv eo.1)|apply engine_perform]. Qed.

Lemma engine_run script w : R w (run w script).
Proof.
  revert w. induction script as [|eo script IH]; intros w; simpl; [reflexivity|].
  etrans; [apply engine_step | apply IH].
Qed.
End EngineRespects.

(** * Status notifications *)

(** [ls.forEach(cb => cb(s))] *)
Definition announce (s : SyncStatus) (ls : list Callback) (w : World) : World :=
  foldl (λ w cb, emit (EvListener cb s) w) w ls.

Lemma forEach_call s ls w :
  forEach ls (λ cb, sync.call cb s) w = (Ok tt, announce s ls w).
Proof.
  revert w. induction ls as [|cb ls IH]; intros w; [done|].
  simpl. unfold bind at 1. unfold sync.call at 1, modify. simpl. apply IH.
Qed.

Lemma announce_trace s ls w :
  trace (announce s ls w) = trace w ++ ((λ c, EvListener c s) <$> ls).
Proof.
  revert w. induction ls as [|cb ls IH]; intros w; simpl.
  - by rewrite app_nil_r.
  - rewrite IH. simpl. by rewrite <- app_assoc.
Qed.

Lemma announce_fields s ls w :
  let w' := announce s ls w in
  records w' = records w ∧ recordKey w' = recordKey w ∧
  mediaQueue w' = mediaQueue w ∧ queueKey w' = queueKey w ∧
  syncStatus w' = syncStatus w ∧ syncListeners w' = syncListeners w ∧
  onLine w' = onLine w ∧ estimate w' = estimate w ∧ clock w' = clock w ∧
  storeFaults w' = storeFaults w ∧ network w' = network w.
Proof.
  revert w. induction ls as [|cb ls IH]; intros w; simpl; [done|].
  specialize (IH (emit (EvListener cb s) w)). simpl in IH. exact IH.
Qed.

Lemma notify_run s w :
  sync.notifySyncStatusChange s w
  = (Ok tt, announce s (syncListeners w) (set_syncStatus s w)).
Proof.
  unfold sync.notifySyncStatusChange, bind, modify, gets. simpl. apply forEach_call.
Qed.

(** Listeners stay registered, and a change of status is told to each of
    them. *)
Definition announces (w w' : World) : Prop :=
  syncListeners w `prefix_of` syncListeners w' ∧
  ∃ d, trace w' = trace w ++ d ∧
       (syncStatus w' ≠ syncStatus w →
        ∀ cb, cb ∈ syncListeners w → EvListener cb (syncStatus w') ∈ d).

Global Instance announces_preorder : PreOrder announces.
Proof.
  split.
  - intros w. split; [done|]. exists []. rewrite app_nil_r. split; [done|]. congruence.
  - intros w1 w2 w3 (Hl1 & d1 & Ht1 & Hs1) (Hl2 & d2 & Ht2 & Hs2).
    split; [by etrans|]. exists (d1 ++ d2). split.
    + rewrite Ht2, Ht1. by rewrite app_assoc.
    + intros Hne cb Hcb. apply elem_of_app.
      destruct (decide (syncStatus w3 = syncStatus w2)) as [E|NE].
      * left. rewrite E. apply Hs1; [congruence|done].
      * right. apply Hs2; [done|]. destruct Hl1 as [k ->]. apply elem_of_app. by left.
Qed.

Lemma announces_quiet w w' :
  syncListeners w' = syncListeners w → syncStatus w' = syncStatus w →
  (∃ d, trace w' = trace w ++ d) → announces w w'.
Proof.
  intros Hl Hs (d & Hd). split; [by rewrite Hl|].
  exists d. split; [done|]. intros Hne. by destruct Hne.
Qed.

Global Instance announces_ambient : Ambient announces.
Proof.
  split.
  - apply _.
  - intros w. unfold db.request.
    destruct (storeFaults w) as [|[e|] rest]; simpl;
      apply announces_quiet; simpl; try done; exists []; by rewrite app_nil_r.
  - intros n w. apply announces_quiet; simpl; try done. exists []. by rewrite app_nil_r.
  - intros ev w. apply announces_quiet; simpl; try done. by eexists.
Qed.

Lemma announces_notify s : respects announces (sync.notifySyncStatusChange s).
Proof.
  intros w. rewrite notify_run. simpl.
  pose proof (announce_fields s (syncListeners w) (set_syncStatus s w)) as F.
  simpl in F. destruct F as (_ & _ & _ & _ & Hs & Hl & _).
  split; [by rewrite Hl|].
  exists ((λ c, EvListener c s) <$> syncListeners w).
  split; [by rewrite announce_trace|].
  intros _ cb Hcb. apply list_elem_of_fmap. exists cb. by rewrite Hs.
Qed.

Lemma announces_subscribe cb : respects announces (sync.onSyncStatusChange cb).
Proof.
  intros w. unfold sync.onSyncStatusChange, bind, gets, modify, sync.call. simpl.
  split; simpl; [by apply prefix_app_r|].
  eexists. split; [done|]. intros Hne. by destruct Hne.
Qed.

Lemma announces_store {A} (m : M A) :
  (∀ w, syncListeners (m w).2 = syncListeners w ∧ syncStatus (m w).2 = syncStatus w ∧
        trace (m w).2 = trace w) →
  respects announces m.
Proof.
  intros H w. destruct (H w) as (Hl & Hs & Ht).
  apply announces_quiet; [done|done|]. exists []. by rewrite app_nil_r.
Qed.

(** What a store operation leaves behind. *)
Definition drawn (w : World) : World := set_storeFaults (tail (storeFaults w)) w.

Lemma request_world w : (db.request w).2 = drawn w.
Proof.
  unfold db.request, drawn. destruct w as [? ? ? ? ? ? ? ? ? sf ? ? ?]; simpl.
  by destruct sf as [|[e|] rest].
Qed.

Lemma request_run w :
  db.request w = (match storeFaults w with Some e :: _ => Throw e | _ => Ok tt end, drawn w).
Proof.
  unfold db.request, drawn. destruct w as [? ? ? ? ? ? ? ? ? sf ? ? ?]; simpl.
  by destruct sf as [|[e|] rest].
Qed.

Lemma bind_request {A} (k : M A) w :
  (db.request ;; k) w =
  match storeFaults w with
  | Some e :: _ => (Throw e, drawn w)
  | _ => k (drawn w)
  end.
Proof. unfold bind. rewrite request_run. by destruct (storeFaults w) as [|[e|] rest]. Qed.

Lemma updateQueueItem_run k us w :
  db.updateQueueItem k us w =
  match storeFaults w with
  | Some e :: _ => (Throw e, drawn w)
  | _ => match mediaQueue w !! k with
         | Some it => (Ok k, set_mediaQueue <[k := merge (keyed k it) us]> (drawn w))
         | None => (Throw (newError "Queue item not found"), drawn w)
         end
  end.
Proof.
  unfold db.updateQueueItem. rewrite bind_request.
  destruct (storeFaults w) as [|[e|] rest] eqn:E; try done;
    unfold bind, gets, modify; simpl; by destruct (mediaQueue w !! k).
Qed.

Lemma updateRecord_run k us w :
  db.updateRecord k us w =
  match storeFaults w with
  | Some e :: _ => (Throw e, drawn w)
  | _ => match records w !! k with
         | Some r => (Ok k, set_records <[k := db.mergeRecord (keyedRecord k r) us]> (drawn w))
         | None => (Throw (newError "Record not found"), drawn w)
         end
  end.
Proof.
  unfold db.updateRecord. rewrite bind_request.
  destruct (storeFaults w) as [|[e|] rest] eqn:E; try done;
    unfold bind, gets, modify; simpl; by destruct (records w !! k).
Qed.

Definition storedRecord (w : World) (r : NewRecord) : LocalRecord :=
  mkRecord (recordKey w) (nr_title r) (nr_description r) (nr_mediaFiles r) (clock w) false.

Lemma createRecord_run r w :
  db.createRecord r w =
  match storeFaults w with
  | Some e :: _ => (Throw e, drawn w)
  | _ => (Ok (recordKey w),
          set_recordKey (S (recordKey w))
            (set_records <[recordKey w := storedRecord w r]> (drawn w)))
  end.
Proof.
  unfold db.createRecord. rewrite bind_request.
  by destruct (storeFaults w) as [|[e|] rest] eqn:E.
Qed.

Definition storedItem (w : World) (r : MediaRequest) : QueueItem :=
  {| id := queueKey w;
     submissionId := mr_submissionId r;
     fileName := file_name (mr_file r);
     fileType := file_type (mr_file r);
     fileSize := size (mr_file r);
     fileData := file_content (mr_file r);
     metadata := default (mkMetadata None None) (mr_metadata r);
     status := default pending (mr_status r);
     attempts := num_or (mr_attempts r) 0;
     maxAttempts := num_or (mr_maxAttempts r) 5;
     error := None;
     useChunked := default false (mr_useChunked r);
     uploadProgress := 0;
     bytesUploaded := 0;
     createdAt := clock w;
     lastAttemptAt := None;
     syncedAt := None |}.

Lemma enqueueMedia_run r w :
  db.enqueueMedia r w =
  match storeFaults w with
  | Some e :: _ => (Throw e, drawn w)
  | _ => if keepsTransaction w
         then (Ok (Fulfilled (queueKey w)),
               set_queueKey (S (queueKey w))
                 (set_mediaQueue <[queueKey w := storedItem w r]> (drawn w)))
         else (Ok Pending, drawn w)
  end.
Proof.
  unfold db.enqueueMedia. rewrite bind_request.
  destruct (storeFaults w) as [|[e|] rest] eqn:E; try done;
    unfold bind, Date_now, gets; simpl; by destruct (keepsTransaction w).
Qed.

Ltac store_cases w :=
  destruct (storeFaults w) as [|[?|] ?] eqn:?; simpl.

(** The cases of [enqueueMedia]: the store rejects, takes the late request
    or has finished the transaction. *)
Ltac enqueue_cases w :=
  destruct (storeFaults w) as [|[?|] ?] eqn:?; destruct (keepsTransaction w) eqn:?; simpl.

Lemma announces_run script w : announces w (run w script).
Proof.
  apply engine_run; try apply _.
  - apply announces_notify.
  - apply announces_subscribe.
  - intros k us. apply announces_store. intros w0. rewrite updateQueueItem_run.
    store_cases w0; try done; by destruct (_ !! k).
  - intros k us. apply announces_store. intros w0. rewrite updateRecord_run.
    store_cases w0; try done; by destruct (_ !! k).
  - intros r. apply announces_store. intros w0. rewrite createRecord_run.
    by store_cases w0.
  - intros r. apply announces_store. intros w0. rewrite enqueueMedia_run.
    by enqueue_cases w0.
  - intros e w0. apply announces_quiet; simpl; try done. exists []. by rewrite app_nil_r.
Qed.

(** C10. Subscribing calls the callback once, at once, with the current
    status; the callback stays registered through every later operation;
    every later [notifySyncStatusChange] sets the status and calls every
    registered callback with it, and an operation that leaves the status
    changed has called every callback registered before it with the new
    status. *)
Theorem onSyncStatusChange_calls_now_and_later (w : World) (cb : Callback) :
  let w1 := (sync.onSyncStatusChange cb w).2 in
  trace w1 = trace w ++ [EvListener cb (syncStatus w)] ∧
  syncStatus w1 = syncStatus w ∧
  syncListeners w1 = syncListeners w ++ [cb] ∧
  ∀ script,
    let w2 := run w1 script in
    cb ∈ syncListeners w2 ∧
    (∀ s, let w3 := (sync.notifySyncStatusChange s w2).2 in
          syncStatus w3 = s ∧
          trace w3 = trace w2 ++ ((λ c, EvListener c s) <$> syncListeners w2)) ∧
    (∀ eo, let w3 := step w2 eo in
           ∃ d, trace w3 = trace w2 ++ d ∧
                (syncStatus w3 ≠ syncStatus w2 →
                 ∀ c, c ∈ syncListeners w2 → EvListener c (syncStatus w3) ∈ d)).
Proof.
  set (w1 := (sync.onSyncStatusChange cb w).2). cbv zeta.
  split; [done|]. split; [done|]. split; [done|].
  intros script. split; [|split].
  - destruct (announces_run script w1) as [[k Hk] _].
    rewrite Hk. apply elem_of_app. left. subst w1. simpl.
    apply elem_of_app. right. by left.
  - intros s. rewrite notify_run. cbn [snd].
    pose proof (announce_fields s (syncListeners (run w1 script))
                  (set_syncStatus s (run w1 script))) as F.
    cbv zeta in F. destruct F as (_ & _ & _ & _ & Hs & _).
    split; [exact Hs|]. by rewrite announce_trace.
  - intros eo. destruct (announces_run [eo] (run w1 script)) as [_ H]. exact H.
Qed.

(** * The single-flight guard *)

(** C3. A call of [syncQueue] that finds the status [syncing] returns zero
    counts and leaves the whole world as it was: no item, no record, no
    listener call, no request. *)
Theorem syncQueue_single_flight (w : World) :
  syncStatus w = SYNCING →
  sync.syncQueue w = (Ok (sync.mkCounts 0 0), w).
Proof.
  intros H. unfold sync.syncQueue, bind, sync.isOnline, gets. simpl.
  destruct (onLine w); simpl; [|done]. rewrite H. by rewrite decide_True.
Qed.

Definition MiB : Z := 1024 * 1024.

Definition photo : File := mkFile "photo.jpg" "image/jpeg" (mkBuffer (2 * MiB) 1).

Definition video : File := mkFile "video.mp4" "video/mp4" (mkBuffer (22 * MiB) 2).

Definition offline : Env := mkEnv false (Some (Some 1000000000, Some 0)) 0 [] [] true.

(** One photo queued while offline, and a pass marked as running. *)
Definition busy : World :=
  set_syncStatus SYNCING
    (with_env calm (run initial [(offline, OpEnqueue (sync.mkSubmission "trip" None [photo]))])).

Lemma syncQueue_single_flight_witness :
  sync.syncQueue busy = (Ok (sync.mkCounts 0 0), busy).
Proof. apply syncQueue_single_flight. reflexivity. Defined.

(** * What the stores always satisfy *)

Lemma elem_of_getAll (q : gmap nat QueueItem) (x : QueueItem) :
  x ∈ db.getAll q ↔ ∃ k it, q !! k = Some it ∧ x = keyed k it.
Proof.
  unfold db.getAll. rewrite list_elem_of_fmap. split.
  - intros ([k it] & -> & H). rewrite merge_sort_Permutation in H.
    apply elem_of_map_to_list in H. by exists k, it.
  - intros (k & it & H & ->). exists (k, it). split; [done|].
    rewrite merge_sort_Permutation. by apply elem_of_map_to_list.
Qed.

Lemma getAll_ids (q : gmap nat QueueItem) :
  id <$> db.getAll q = (merge_sort db.key_le (map_to_list q)).*1.
Proof.
  unfold db.getAll. rewrite <- list_fmap_compose. by apply list_fmap_ext.
Qed.

Lemma getAll_NoDup (q : gmap nat QueueItem) : NoDup (id <$> db.getAll q).
Proof.
  rewrite getAll_ids. rewrite merge_sort_Permutation. apply NoDup_fst_map_to_list.
Qed.

(** Updates never touch what identifies an item and its payload. *)
Lemma merge_static it us :
  id (merge it us) = id it ∧ submissionId (merge it us) = submissionId it ∧
  fileSize (merge it us) = fileSize it ∧ fileData (merge it us) = fileData it ∧
  maxAttempts (merge it us) = maxAttempts it ∧ useChunked (merge it us) = useChunked it.
Proof.
  revert it. induction us as [|u us IH]; intros it; [done|].
  unfold merge in *. simpl. destruct (IH (assign it u)) as (?&?&?&?&?&?).
  by destruct u.
Qed.

Definition item_ok (it : QueueItem) : Prop :=
  0 ≤ attempts it ≤ maxAttempts it ∧
  (status it = failed → attempts it = maxAttempts it) ∧
  (status it = pending → attempts it < maxAttempts it).

Definition flag_ok (it : QueueItem) : Prop :=
  fileSize it = byteLength (fileData it) ∧
  useChunked it = bool_decide (fileSize it > api.LARGE_FILE_THRESHOLD).

Record StoreInv (rs : gmap nat LocalRecord) (q : gmap nat QueueItem) (qk : nat) : Prop := {
  inv_keys : ∀ k it, q !! k = Some it → (k < qk)%nat;
  inv_items : ∀ k it, q !! k = Some it → item_ok it;
  inv_flags : ∀ k it, q !! k = Some it → flag_ok it;
  inv_synced : ∀ sid r, rs !! sid = Some r → rec_synced r = true →
                        ∃ k it, q !! k = Some it ∧ submissionId it = sid
}.

Definition Inv (w : World) : Prop := StoreInv (records w) (mediaQueue w) (queueKey w).

Lemma StoreInv_update rs q qk k it it' :
  StoreInv rs q qk → q !! k = Some it →
  item_ok it' → flag_ok it' → submissionId it' = submissionId it →
  StoreInv rs (<[k := it']> q) qk.
Proof.
  intros [Hk Hi Hf Hs] Hq Hok Hfl Hsid. split.
  - intros k' c. rewrite lookup_insert. case_decide; [intros _; subst; eauto|eauto].
  - intros k' c. rewrite lookup_insert. case_decide; [intros [= <-]; done|eauto].
  - intros k' c. rewrite lookup_insert. case_decide; [intros [= <-]; done|eauto].
  - intros sid r Hr Hsy. destruct (Hs sid r Hr Hsy) as (k' & c & Hc & Hcs).
    destruct (decide (k' = k)) as [->|Hne].
    + exists k, it'. rewrite lookup_insert_eq. split; [done|]. congruence.
    + exists k', c. by rewrite lookup_insert_ne.
Qed.

Lemma StoreInv_synced rs q qk sid r k it :
  StoreInv rs q qk → q !! k = Some it → submissionId it = sid →
  StoreInv (<[sid := r]> rs) q qk.
Proof.
  intros [Hk Hi Hf Hs] Hq Hsid. split; try done.
  intros sid' r'. rewrite lookup_insert. case_decide.
  - intros _ _. subst. by exists k, it.
  - apply Hs.
Qed.

Lemma StoreInv_createRecord rs q qk k r :
  StoreInv rs q qk → rec_synced r = false → StoreInv (<[k := r]> rs) q qk.
Proof.
  intros [Hk Hi Hf Hs] Hr. split; try done.
  intros sid' r'. rewrite lookup_insert. case_decide.
  - intros [= <-]. congruence.
  - apply Hs.
Qed.

Lemma StoreInv_enqueue rs q qk it :
  StoreInv rs q qk → item_ok it → flag_ok it → StoreInv rs (<[qk := it]> q) (S qk).
Proof.
  intros [Hk Hi Hf Hs] Hok Hfl. split.
  - intros k' c. rewrite lookup_insert. case_decide; [intros _; subst; lia|].
    intros Hc. apply Hk in Hc. lia.
  - intros k' c. rewrite lookup_insert. case_decide; [intros [= <-]; done|eauto].
  - intros k' c. rewrite lookup_insert. case_decide; [intros [= <-]; done|eauto].
  - intros sid r Hr Hsy. destruct (Hs sid r Hr Hsy) as (k' & c & Hc & Hcs).
    exists k', c. split; [|done]. rewrite lookup_insert_ne; [done|].
    apply Hk in Hc. lia.
Qed.

(** ** One pass *)

(** The items a pass was given are still stored, with the ceiling and the
    parent they were read with. *)
Definition snapshots_ok (items : list QueueItem) (w : World) : Prop :=
  ∀ q, q ∈ items →
    0 ≤ attempts q < maxAttempts q ∧
    ∃ it, mediaQueue w !! id q = Some it ∧
          maxAttempts it = maxAttempts q ∧ submissionId it = submissionId q.

Definition during (items : list QueueItem) (w w' : World) : Prop :=
  Inv w ∧ snapshots_ok items w → Inv w' ∧ snapshots_ok items w'.

Global Instance during_preorder items : PreOrder (during items).
Proof.
  split; [intros w H; exact H|]. intros w1 w2 w3 H1 H2 H. by apply H2, H1.
Qed.

Lemma during_store items w w' :
  records w' = records w → mediaQueue w' = mediaQueue w → queueKey w' = queueKey w →
  during items w w'.
Proof.
  intros Hr Hq Hk [HI HS]. unfold Inv, snapshots_ok. by rewrite Hr, Hq, Hk.
Qed.

Global Instance during_ambient items : Ambient (during items).
Proof.
  split; [apply _| | |].
  - intros w. rewrite request_world. by apply during_store.
  - intros n w. by apply during_store.
  - intros ev w. by apply during_store.
Qed.

Lemma sync_update_ok q it us :
  sync_update q us → 0 ≤ attempts q < maxAttempts q →
  maxAttempts it = maxAttempts q → item_ok it →
  item_ok (merge it us).
Proof.
  intros Hus Hq Hmax (Ha & Hf & Hp). unfold item_ok.
  destruct Hus; unfold merge; simpl; try case_bool_decide; simpl;
    repeat split; try lia; try done; intros; lia.
Qed.

Lemma during_updateQueueItem items q us :
  q ∈ items → sync_update q us → respects (during items) (db.updateQueueItem (id q) us).
Proof.
  intros Hin Hus. apply respects_updateQueueItem; [apply _|].
  intros w it Hit [HI HS].
  destruct (HS q Hin) as (Hq & it0 & Hit0 & Hmax & Hsid).
  rewrite Hit in Hit0. injection Hit0 as <-.
  destruct (merge_static (keyed (id q) it) us) as (_ & Ms & Mfs & Mfd & Mmax & Muc).
  simpl in *. split.
  - unfold Inv. simpl. eapply StoreInv_update; [exact HI|exact Hit| | |done].
    + apply (sync_update_ok q); [done|done|done|]. apply (inv_items _ _ _ HI _ _ Hit).
    + destruct (inv_flags _ _ _ HI _ _ Hit) as [F1 F2].
      unfold flag_ok. by rewrite Mfs, Mfd, Muc.
  - intros q' Hq'. destruct (HS q' Hq') as (Hq'ok & it' & Hit' & Hmax' & Hsid').
    split; [done|]. simpl. destruct (decide (id q = id q')) as [E|NE].
    + rewrite <- E in *. rewrite lookup_insert_eq. eexists. split; [done|].
      rewrite Mmax, Ms. simpl. rewrite Hit in Hit'. injection Hit' as <-. done.
    + rewrite lookup_insert_ne; [|done]. eauto.
Qed.

Lemma during_updateRecord items q :
  q ∈ items →
  respects (during items) (db.updateRecord (submissionId q) [db.upd_synced true]).
Proof.
  intros Hin. apply respects_updateRecord; [apply _|].
  intros w r Hr [HI HS].
  destruct (HS q Hin) as (Hq & it0 & Hit0 & Hmax & Hsid).
  split; [|exact HS]. unfold Inv. simpl. by eapply StoreInv_synced.
Qed.

Lemma during_pass items :
  respects (during items) (Promise_allSettled (imap sync.dispatch items)).
Proof.
  apply (respects_pass _ (λ i, i)).
  - intros q us. apply during_updateQueueItem.
  - intros q. apply during_updateRecord.
Qed.

(** ** Runs of a pass, step by step *)

(** Every task run in turn, with what each settled to. *)
Fixpoint settleAll {A} (tasks : list (M A)) (w : World) : list (Outcome A) * World :=
  match tasks with
  | [] => ([], w)
  | t :: ts =>
      let '(r, w1) := t w in
      let '(rs, w2) := settleAll ts w1 in
      (r :: rs, w2)
  end.

Lemma allSettled_run {A} (tasks : list (M A)) w :
  Promise_allSettled tasks w = (Ok (settleAll tasks w).1, (settleAll tasks w).2).
Proof.
  revert w. induction tasks as [|t ts IH]; intros w; [done|].
  unfold Promise_allSettled in *. simpl. unfold bind at 1. unfold settle at 1.
  destruct (t w) as [r w1]. unfold bind at 1. rewrite IH.
  by destruct (settleAll ts w1).
Qed.

Lemma settleAll_length {A} (tasks : list (M A)) w :
  length (settleAll tasks w).1 = length tasks.
Proof.
  revert w. induction tasks as [|t ts IH]; intros w; [done|]. simpl.
  destruct (t w) as [r w1]. specialize (IH w1).
  destruct (settleAll ts w1). simpl in *. by rewrite IH.
Qed.

Definition syncedOf (results : list (Outcome (sync.SyncResult + Error))) : Z :=
  Z.of_nat (length (filter (λ r, sync.succeeded r = true) results)).

Definition failedOf (results : list (Outcome (sync.SyncResult + Error))) : Z :=
  Z.of_nat (length results) - syncedOf results.

Definition verdict (results : list (Outcome (sync.SyncResult + Error))) : SyncStatus :=
  if decide (failedOf results = 0) then SUCCESS else ERROR.

(** The status told to the listeners. *)
Definition told (s : SyncStatus) (w : World) : World :=
  announce s (syncListeners w) (set_syncStatus s w).

Definition pendingOf (w : World) : list QueueItem :=
  filter (λ it, status it = pending) (db.getAll (mediaQueue w)).

Lemma bind_run {A B} (m : M A) (k : A → M B) w :
  bind m k w = match m w with
               | (Ok a, w1) => k a w1
               | (Throw e, w1) => (Throw e, w1)
               end.
Proof. done. Qed.

Lemma bind_gets {A B} (f : World → A) (k : A → M B) w : bind (gets f) k w = k (f w) w.
Proof. done. Qed.

Lemma bind_ret {A B} (a : A) (k : A → M B) w : bind (ret a) k w = k a w.
Proof. done. Qed.

Lemma bind_modify {B} f (k : unit → M B) w : bind (modify f) k w = k tt (f w).
Proof. done. Qed.

Lemma bind_throw {A B} e (k : A → M B) w : bind (throw e) k w = (Throw e, w).
Proof. done. Qed.

Lemma bind_notify {B} s (k : unit → M B) w :
  bind (sync.notifySyncStatusChange s) k w = k tt (told s w).
Proof. rewrite bind_run. by rewrite notify_run. Qed.

Lemma bind_allSettled {A B} (tasks : list (M A)) (k : list (Outcome A) → M B) w :
  bind (Promise_allSettled tasks) k w = k (settleAll tasks w).1 (settleAll tasks w).2.
Proof. rewrite bind_run. by rewrite allSettled_run. Qed.

Lemma getPendingQueueItems_run w :
  db.getPendingQueueItems w =
  match storeFaults w with
  | Some e :: _ => (Throw e, drawn w)
  | _ => (Ok (pendingOf w), drawn w)
  end.
Proof.
  unfold db.getPendingQueueItems. rewrite bind_request.
  by destruct (storeFaults w) as [|[e|] rest].
Qed.

Lemma syncQueue_run w :
  onLine w = true → syncStatus w ≠ SYNCING →
  sync.syncQueue w =
    let w1 := told SYNCING w in
    match storeFaults w1 with
    | Some e :: _ => (Throw e, told ERROR (drawn w1))
    | _ =>
        let items := pendingOf w1 in
        if decide (length items = 0%nat) then
          (Ok (sync.mkCounts 0 0), told SUCCESS (drawn w1))
        else
          let '(results, w2) := settleAll (imap sync.dispatch items) (drawn w1) in
          (Ok (sync.mkCounts (syncedOf results) (failedOf results)),
           told (verdict results) w2)
    end.
Proof.
  intros Hon Hst. unfold sync.syncQueue, sync.isOnline.
  rewrite bind_gets, Hon. cbn [negb].
  rewrite bind_gets. destruct (decide (syncStatus w = SYNCING)) as [|_]; [done|].
  rewrite bind_notify. cbv zeta. generalize (told SYNCING w). intros w1.
  unfold try_catch. rewrite bind_run, getPendingQueueItems_run.
  assert (∀ w', (let '(results, w2) :=
                   settleAll (imap sync.dispatch (pendingOf w1)) w' in
                 (Ok (sync.mkCounts (syncedOf results) (failedOf results)),
                  told (verdict results) w2)) =
                (let results := (settleAll (imap sync.dispatch (pendingOf w1)) w').1 in
                 (Ok (sync.mkCounts (syncedOf results) (failedOf results)),
                  told (verdict results)
                       (settleAll (imap sync.dispatch (pendingOf w1)) w').2))) as Hpair.
  { intros w'. by destruct (settleAll _ w'). }
  rewrite Hpair. clear Hpair.
  destruct (storeFaults w1) as [|[e|] rest] eqn:E.
  - destruct (decide (length (pendingOf w1) = 0%nat)).
    + by rewrite bind_notify.
    + rewrite bind_allSettled. by rewrite bind_notify.
  - by rewrite bind_notify.
  - destruct (decide (length (pendingOf w1) = 0%nat)).
    + by rewrite bind_notify.
    + rewrite bind_allSettled. by rewrite bind_notify.
Qed.

(** ** Every operation keeps the stores well-formed *)

Lemma Inv_store w w' :
  records w' = records w → mediaQueue w' = mediaQueue w → queueKey w' = queueKey w →
  Inv w → Inv w'.
Proof. intros Hr Hq Hk. unfold Inv. by rewrite Hr, Hq, Hk. Qed.

Lemma told_store s w :
  records (told s w) = records w ∧ mediaQueue (told s w) = mediaQueue w ∧
  queueKey (told s w) = queueKey w ∧ storeFaults (told s w) = storeFaults w.
Proof.
  unfold told.
  pose proof (announce_fields s (syncListeners w) (set_syncStatus s w)) as F.
  cbv zeta in F. destruct F as (H1 & _ & H3 & H4 & _ & _ & _ & _ & _ & H10 & _).
  by rewrite H1, H3, H4, H10.
Qed.

Lemma Inv_told s w : Inv w → Inv (told s w).
Proof. destruct (told_store s w) as (?&?&?&?). by apply Inv_store. Qed.

Lemma Inv_drawn w : Inv w → Inv (drawn w).
Proof. by apply Inv_store. Qed.

Lemma elem_of_pendingOf w q :
  q ∈ pendingOf w ↔
  ∃ k it, mediaQueue w !! k = Some it ∧ status it = pending ∧ q = keyed k it.
Proof.
  unfold pendingOf. rewrite list_elem_of_filter, elem_of_getAll. split.
  - intros (Hs & k & it & Hit & ->). by exists k, it.
  - intros (k & it & Hit & Hs & ->). split; [done|]. by exists k, it.
Qed.

Lemma snapshots_pending w : Inv w → snapshots_ok (pendingOf w) w.
Proof.
  intros HI q Hq. apply elem_of_pendingOf in Hq as (k & it & Hit & Hs & ->).
  destruct (inv_items _ _ _ HI _ _ Hit) as (Ha & _ & Hp). simpl.
  split; [specialize (Hp Hs); lia|]. by exists it.
Qed.

Lemma snapshots_nil w : snapshots_ok [] w.
Proof. intros q Hq. by apply elem_of_nil in Hq. Qed.

Lemma syncQueue_idle w :
  onLine w = false ∨ syncStatus w = SYNCING →
  sync.syncQueue w = (Ok (sync.mkCounts 0 0), w).
Proof.
  intros H. unfold sync.syncQueue, sync.isOnline. rewrite bind_gets.
  destruct (onLine w); cbn [negb]; [|done].
  rewrite bind_gets. destruct H as [|H]; [done|]. by rewrite decide_True.
Qed.

Lemma Inv_syncQueue : respects (during []) sync.syncQueue.
Proof.
  intros w [HI _]. split; [|apply snapshots_nil].
  destruct (onLine w) eqn:Hon; [|by rewrite syncQueue_idle by auto].
  destruct (decide (syncStatus w = SYNCING)) as [Hs|Hs];
    [by rewrite syncQueue_idle by auto|].
  rewrite syncQueue_run by done. cbv zeta.
  pose proof (Inv_told SYNCING w HI) as HI1. revert HI1.
  generalize (told SYNCING w). intros w1 HI1.
  assert (Inv (told ERROR (drawn w1))) by by apply Inv_told, Inv_drawn.
  assert (Inv (told SUCCESS (drawn w1))) by by apply Inv_told, Inv_drawn.
  assert (∀ s, Inv (told s (settleAll (imap sync.dispatch (pendingOf w1)) (drawn w1)).2)).
  { intros s. apply Inv_told.
    pose proof (during_pass (pendingOf w1) (drawn w1)) as D.
    rewrite allSettled_run in D. apply D. split; [by apply Inv_drawn|].
    exact (snapshots_pending (drawn w1) (Inv_drawn w1 HI1)). }
  destruct (storeFaults w1) as [|[e|] rest]; try done;
    destruct (decide _); try done;
    specialize (H1 (verdict (settleAll (imap sync.dispatch (pendingOf w1)) (drawn w1)).1));
    by destruct (settleAll _ _).
Qed.

Lemma during_createRecord r : respects (during []) (db.createRecord r).
Proof.
  intros w [HI HS]. split; [|apply snapshots_nil]. rewrite createRecord_run.
  store_cases w; try by apply Inv_drawn.
  all: unfold Inv; simpl; by apply StoreInv_createRecord.
Qed.

(** The request [enqueueSubmission] makes for one file. *)
Definition requestFor (s : sync.SubmissionData) (recordId : nat) (file : File) : MediaRequest :=
  mkMediaRequest recordId file
    (Some (mkMetadata (Some (sync.title s)) (sync.description s)))
    (Some pending) None None (Some (api.shouldUseChunkedUpload file)).

Lemma storedItem_ok w s recordId file :
  item_ok (storedItem w (requestFor s recordId file)) ∧
  flag_ok (storedItem w (requestFor s recordId file)).
Proof. unfold item_ok, flag_ok. simpl. repeat split; try lia; done. Qed.

Lemma during_enqueueMedia s recordId file :
  respects (during []) (db.enqueueMedia (requestFor s recordId file)).
Proof.
  intros w [HI HS]. split; [|apply snapshots_nil]. rewrite enqueueMedia_run.
  destruct (storedItem_ok w s recordId file) as [Hok Hfl].
  enqueue_cases w; try by apply Inv_drawn.
  all: unfold Inv; simpl; by apply StoreInv_enqueue.
Qed.

Lemma Inv_enqueueSubmission s : respects (during []) (sync.enqueueSubmission s).
Proof.
  unfold sync.enqueueSubmission, utils.checkStorageAvailability, utils.getStorageQuota.
  cbv zeta.
  respects_with ltac:(first [apply during_createRecord | apply Inv_syncQueue]).
  all: apply respects_all; [apply _|]; intros t Ht;
    apply list_elem_of_fmap in Ht as (f & -> & _);
    apply (during_enqueueMedia s).
Qed.

Lemma filter_none {A} (P : A → Prop) `{!∀ x, Decision (P x)} (l : list A) :
  (∀ x, x ∈ l → ¬ P x) → filter P l = [].
Proof.
  induction l as [|x l IH]; intros Hl; [done|].
  rewrite filter_cons. destruct (decide (P x)) as [HP|_].
  - destruct (Hl x); [by left|done].
  - apply IH. intros y Hy. apply Hl. by right.
Qed.

(** No stored item is both failed and below its ceiling. *)
Definition exhausted_when_failed (w : World) : Prop :=
  ∀ k it, mediaQueue w !! k = Some it → status it = failed → maxAttempts it ≤ attempts it.

Lemma retryFailedItems_run w :
  exhausted_when_failed w →
  sync.retryFailedItems w =
  (match storeFaults w with Some e :: _ => Throw e | _ => Ok (sync.mkCounts 0 0) end,
   drawn w).
Proof.
  intros H. unfold sync.retryFailedItems, db.getAllQueueItems.
  rewrite bind_run, bind_request.
  assert (filter (λ item, status item = failed ∧ attempts item < maxAttempts item)
                 (db.getAll (mediaQueue w)) = []) as E.
  { apply filter_none. intros q Hq [Hs Ha].
    apply elem_of_getAll in Hq as (k & it & Hit & ->). simpl in *.
    specialize (H k it Hit Hs). lia. }
  store_cases w; try done; by rewrite E.
Qed.

Lemma Inv_exhausted w : Inv w → exhausted_when_failed w.
Proof.
  intros HI k it Hit Hs. destruct (inv_items _ _ _ HI _ _ Hit) as (_ & Hf & _).
  specialize (Hf Hs). lia.
Qed.

Lemma Inv_perform op w : Inv w → Inv (perform op w).2.
Proof.
  intros HI. assert (Inv w ∧ snapshots_ok [] w) as HJ.
  { split; [done|]. apply snapshots_nil. }
  destruct op; cbn [perform].
  - by apply Inv_enqueueSubmission.
  - by apply Inv_syncQueue.
  - unfold detached. cbn [snd].
    rewrite retryFailedItems_run by by apply Inv_exhausted. by apply Inv_drawn.
  - done.
  - by apply Inv_syncQueue.
  - unfold sync.onOffline. rewrite notify_run. by apply (Inv_told IDLE).
Qed.

Lemma Inv_step w eo : Inv w → Inv (step w eo).
Proof. intros HI. unfold step. apply Inv_perform. revert HI. by apply Inv_store. Qed.

Lemma Inv_run script w : Inv w → Inv (run w script).
Proof.
  revert w. induction script as [|eo script IH]; intros w HI; [done|].
  simpl. by apply IH, Inv_step.
Qed.

Lemma Inv_reachable w : reachable w → Inv w.
Proof.
  intros [script ->]. apply Inv_run. unfold Inv. simpl.
  split; intros ? ?; by rewrite lookup_empty.
Qed.

(** * The attempt counter *)

(** One write of a pass over [items]: an update [syncQueueItem] sends for
    one of the items, or the reconciliation write for its parent.  The tasks
    of a pass are concurrent, so these writes can reach the store in any
    order. *)
Inductive pass_write (items : list QueueItem) : relation World :=
| pw_item q us w :
    q ∈ items → sync_update q us →
    pass_write items w (db.updateQueueItem (id q) us w).2
| pw_record q w :
    q ∈ items →
    pass_write items w (db.updateRecord (submissionId q) [db.upd_synced true] w).2.

Lemma during_pass_writes items w w' :
  rtc (pass_write items) w w' → during items w w'.
Proof.
  induction 1 as [w|w w1 w' Hw _ IH]; [reflexivity|].
  etrans; [|exact IH]. destruct Hw as [q us w Hq Hus|q w Hq].
  - by apply during_updateQueueItem.
  - by apply during_updateRecord.
Qed.

(** C2. In every world the engine can reach, and in every world that the
    writes of a pass over its pending items lead to, in whatever order they
    land, every stored Queue Item has [0 ≤ attempts ≤ maxAttempts], and a
    failed item has used all its attempts. *)
Theorem attempts_within_ceiling (w w' : World) (k : nat) (it : QueueItem) :
  reachable w → rtc (pass_write (pendingOf w)) w w' →
  mediaQueue w' !! k = Some it →
  0 ≤ attempts it ≤ maxAttempts it ∧ (status it = failed → attempts it = maxAttempts it).
Proof.
  intros Hw Hrtc Hit. pose proof (Inv_reachable w Hw) as HI.
  destruct (during_pass_writes _ _ _ Hrtc (conj HI (snapshots_pending w HI))) as [HI' _].
  destruct (inv_items _ _ _ HI' _ _ Hit) as (Ha & Hf & _). done.
Qed.

(** The network is down. *)
Definition down : Env :=
  mkEnv true (Some (Some 1000000000, Some 0)) 0 [] [NetworkError "Failed to fetch"] true.

(** One photo queued offline, then five passes with the network down. *)
Definition stalledScript : list (Env * Op) :=
  [(offline, OpEnqueue (sync.mkSubmission "trip" None [photo]));
   (down, OpSyncQueue); (down, OpSyncQueue); (down, OpSyncQueue);
   (down, OpSyncQueue); (down, OpSyncQueue)].

Definition stalled : World := run initial stalledScript.

Definition stalledItem : QueueItem :=
  {| id := 1; submissionId := 1; fileName := "photo.jpg"; fileType := "image/jpeg";
     fileSize := 2 * MiB; fileData := mkBuffer (2 * MiB) 1;
     metadata := mkMetadata (Some "trip") None;
     status := failed; attempts := 5; maxAttempts := 5;
     error := Some "Failed to fetch"; useChunked := false;
     uploadProgress := 0; bytesUploaded := 0; createdAt := 0;
     lastAttemptAt := Some 0; syncedAt := None |}.

Lemma stalled_item : mediaQueue stalled !! 1%nat = Some stalledItem.
Proof. vm_compute. reflexivity. Qed.

Lemma attempts_within_ceiling_witness :
  0 ≤ attempts stalledItem ≤ maxAttempts stalledItem ∧
  (status stalledItem = failed → attempts stalledItem = maxAttempts stalledItem).
Proof.
  apply (attempts_within_ceiling stalled stalled 1 stalledItem).
  - exists stalledScript. reflexivity.
  - apply rtc_refl.
  - vm_compute. reflexivity.
Defined.

(** * The retry command *)

(** C4. Where no failed item is below its ceiling, which is every world the
    engine reaches, [retryFailedItems] selects nothing: the queue is left as
    it was, failed items stay failed, and no pass is started. *)
Theorem retryFailedItems_skips_exhausted (w : World) :
  exhausted_when_failed w →
  mediaQueue (sync.retryFailedItems w).2 = mediaQueue w ∧
  records (sync.retryFailedItems w).2 = records w ∧
  trace (sync.retryFailedItems w).2 = trace w.
Proof. intros H. by rewrite retryFailedItems_run. Qed.

Lemma retryFailedItems_skips_exhausted_witness :
  mediaQueue (sync.retryFailedItems (with_env calm stalled)).2 !! 1%nat = Some stalledItem.
Proof.
  destruct (retryFailedItems_skips_exhausted (with_env calm stalled)) as (-> & _).
  - apply Inv_exhausted. apply (Inv_store stalled).
    + vm_compute. reflexivity.
    + vm_compute. reflexivity.
    + vm_compute. reflexivity.
    + apply Inv_reachable. exists stalledScript. reflexivity.
  - vm_compute. reflexivity.
Defined.

(** * The chunking flag *)

Definition keys_fresh (w : World) : Prop :=
  ∀ k it, mediaQueue w !! k = Some it → (k < queueKey w)%nat.

(** Stored items stay stored, with the payload and the flag they have. *)
Definition persists (w w' : World) : Prop :=
  keys_fresh w →
  keys_fresh w' ∧
  ∀ k it, mediaQueue w !! k = Some it →
    ∃ it', mediaQueue w' !! k = Some it' ∧ useChunked it' = useChunked it ∧
           fileData it' = fileData it ∧ fileSize it' = fileSize it.

Global Instance persists_preorder : PreOrder persists.
Proof.
  split.
  - intros w Hk. split; [done|]. intros k it Hit. by exists it.
  - intros w1 w2 w3 H12 H23 Hk. destruct (H12 Hk) as [Hk2 H2].
    destruct (H23 Hk2) as [Hk3 H3]. split; [done|].
    intros k it Hit. destruct (H2 k it Hit) as (it2 & Hit2 & ? & ? & ?).
    destruct (H3 k it2 Hit2) as (it3 & Hit3 & ? & ? & ?).
    exists it3. repeat split; [done|congruence..].
Qed.

Lemma persists_store w w' :
  mediaQueue w' = mediaQueue w → queueKey w' = queueKey w → persists w w'.
Proof.
  intros Hq Hk Hf. unfold keys_fresh. rewrite Hq, Hk. split; [done|].
  intros k it Hit. by exists it.
Qed.

Global Instance persists_ambient : Ambient persists.
Proof.
  split; [apply _| | |].
  - intros w. rewrite request_world. by apply persists_store.
  - intros n w. by apply persists_store.
  - intros ev w. by apply persists_store.
Qed.

Lemma persists_updateQueueItem k us : respects persists (db.updateQueueItem k us).
Proof.
  apply respects_updateQueueItem; [apply _|]. intros w it Hit Hf. simpl. split.
  - intros k' c. simpl. rewrite lookup_insert. case_decide; [intros _; subst; eauto|eauto].
  - intros k' c Hc. rewrite lookup_insert. case_decide; [|by exists c].
    subst k'. rewrite Hit in Hc. injection Hc as <-. eexists. split; [done|].
    destruct (merge_static (keyed k it) us) as (_ & _ & ? & ? & _ & ?). done.
Qed.

Lemma persists_enqueueMedia r : respects persists (db.enqueueMedia r).
Proof.
  intros w. rewrite enqueueMedia_run.
  enqueue_cases w; try by apply persists_store.
  all: intros Hf; split;
    [ intros k' c; simpl; rewrite lookup_insert; case_decide;
      [intros _; subst; lia | intros Hc; apply Hf in Hc; lia]
    | intros k' c Hc; simpl; rewrite lookup_insert_ne;
      [by exists c | apply Hf in Hc; lia] ].
Qed.

Lemma persists_run script w : persists w (run w script).
Proof.
  apply engine_run; try apply _.
  - intros s w0. rewrite notify_run. destruct (told_store s w0) as (_ & ? & ? & _).
    by apply persists_store.
  - intros cb w0. by apply persists_store.
  - apply persists_updateQueueItem.
  - intros k us w0. rewrite updateRecord_run.
    store_cases w0; try destruct (_ !! k); by apply persists_store.
  - intros r w0. rewrite createRecord_run. store_cases w0; by apply persists_store.
  - apply persists_enqueueMedia.
  - intros e w0. by apply persists_store.
Qed.

(** One video queued offline. *)
Definition videoQueued : World :=
  run initial [(offline, OpEnqueue (sync.mkSubmission "clip" None [video]))].

Definition videoItem : QueueItem :=
  {| id := 1; submissionId := 1; fileName := "video.mp4"; fileType := "video/mp4";
     fileSize := 22 * MiB; fileData := mkBuffer (22 * MiB) 2;
     metadata := mkMetadata (Some "clip") None;
     status := pending; attempts := 0; maxAttempts := 5;
     error := None; useChunked := true;
     uploadProgress := 0; bytesUploaded := 0; createdAt := 0;
     lastAttemptAt := None; syncedAt := None |}.

(** * Reconciliation *)

(** C5. In every world the engine reaches, a Record that is marked synced
    has a child Queue Item: a Record is created with [synced = false], only
    the reconciliation sets the flag, and the coordinator runs it only for the
    parent of an item it has just marked synced.  So for a Record with zero
    children the flag is never set: it stays [false]. *)
Theorem childless_record_stays_unsynced (w : World) (sid : nat) (r : LocalRecord) :
  reachable w → records w !! sid = Some r →
  (∀ k it, mediaQueue w !! k = Some it → submissionId it ≠ sid) →
  rec_synced r = false.
Proof.
  intros Hw Hr Hnone. destruct (rec_synced r) eqn:E; [|done].
  destruct (inv_synced _ _ _ (Inv_reachable w Hw) sid r Hr E) as (k & it & Hit & Hs).
  by destruct (Hnone k it Hit).
Qed.

Definition emptyRecord : LocalRecord := mkRecord 1 "empty" None [] 0 false.

(** The childless record after a pass and a retry, online. *)
Definition lonelyLater : World :=
  run initial [(offline, OpEnqueue (sync.mkSubmission "empty" None []));
               (calm, OpSyncQueue); (calm, OpRetryFailed)].

Lemma childless_record_stays_unsynced_witness : rec_synced emptyRecord = false.
Proof.
  apply (childless_record_stays_unsynced lonelyLater 1 emptyRecord).
  - eexists. reflexivity.
  - vm_compute. reflexivity.
  - intros k it. assert (mediaQueue lonelyLater = ∅) as -> by (vm_compute; reflexivity).
    by rewrite lookup_empty.
Defined.

(** * Enqueueing a submission *)

Definition availableStorage (w : World) : Z :=
  match estimate w with
  | Some (q, u) => num_or q 0 - num_or u 0
  | None => 0
  end.

Definition totalSize (s : sync.SubmissionData) : Z :=
  foldl (λ sum file, sum + size file) 0 (sync.mediaFiles s).

(** The record [enqueueSubmission] creates. *)
Definition recordFor (s : sync.SubmissionData) : NewRecord :=
  mkNewRecord (sync.title s) (sync.description s)
    (map (λ f, mkDescriptor (file_name f) (file_type f) (size f)) (sync.mediaFiles s))
    false.

(** What the [catch] of [enqueueSubmission] throws for [error]. *)
Definition rethrown (error : Error) : Error :=
  if String.eqb (err_name error) "QuotaExceededError" || includes (err_message error) "quota"
  then newError (utils.qe_message (utils.handleQuotaError error "enqueueSubmission"))
  else error.

(** The world once the record is written. *)
Definition recordWritten (s : sync.SubmissionData) (w : World) : World :=
  set_recordKey (S (recordKey w))
    (set_records <[recordKey w := storedRecord w (recordFor s)]> (drawn w)).

Lemma rethrown_run {A} (e : Error) (w : World) :
  (if String.eqb (err_name e) "QuotaExceededError" || includes (err_message e) "quota"
   then throw (newError (utils.qe_message (utils.handleQuotaError e "enqueueSubmission")))
   else @throw A e) w
  = (Throw (rethrown e), w).
Proof. unfold rethrown. by destruct (_ || _). Qed.

Lemma enqueueSubmission_run s w :
  sync.enqueueSubmission s w =
  if bool_decide (availableStorage w >= totalSize s) then
    match storeFaults w with
    | Some e :: _ => (Throw (rethrown e), drawn w)
    | _ =>
        match Promise_all (map (λ file, db.enqueueMedia (requestFor s (recordKey w) file))
                               (sync.mediaFiles s)) (recordWritten s w) with
        | (Throw e, w2) => (Throw (rethrown e), w2)
        | (Ok queued, w2) =>
            if forallb fulfilled queued
            then (Ok (Fulfilled (recordKey w)),
                  if onLine w2 then (sync.syncQueue w2).2 else w2)
            else (Ok Pending, w2)
        end
    end
  else (Throw (newError "Storage quota exceeded. Please free up space."), w).
Proof.
  unfold sync.enqueueSubmission, try_catch. cbv zeta. fold (totalSize s). fold (recordFor s).
  rewrite bind_run.
  assert (utils.checkStorageAvailability (totalSize s) w =
          (Ok (utils.mkCheck (bool_decide (availableStorage w >= totalSize s))
                             (availableStorage w) (totalSize s)), w)) as ->.
  { unfold utils.checkStorageAvailability, utils.getStorageQuota, availableStorage.
    rewrite bind_run, bind_gets. by destruct (estimate w) as [[q u]|]. }
  cbn [utils.enough]. destruct (bool_decide (availableStorage w >= totalSize s)); cbn [negb].
  - rewrite bind_ret, bind_run, createRecord_run.
    destruct (storeFaults w) as [|[e|] rest] eqn:E.
    + fold (recordWritten s w). rewrite bind_run.
      change (λ file, db.enqueueMedia _) with
        (λ file, db.enqueueMedia (requestFor s (recordKey w) file)).
      destruct (Promise_all _ _) as [[v|e] w2]; [|apply rethrown_run].
      destruct (forallb fulfilled v); [|done].
      unfold sync.isOnline. rewrite bind_gets.
      by destruct (onLine w2).
    + apply rethrown_run.
    + fold (recordWritten s w). rewrite bind_run.
      change (λ file, db.enqueueMedia _) with
        (λ file, db.enqueueMedia (requestFor s (recordKey w) file)).
      destruct (Promise_all _ _) as [[v|e'] w2]; [|apply rethrown_run].
      destruct (forallb fulfilled v); [|done].
      unfold sync.isOnline. rewrite bind_gets.
      by destruct (onLine w2).
  - by rewrite bind_throw.
Qed.

Definition same_records (w w' : World) : Prop := records w' = records w.

Global Instance same_records_preorder : PreOrder same_records.
Proof. split; [done|]. intros w1 w2 w3 H1 H2. unfold same_records in *. congruence. Qed.

Global Instance same_records_ambient : Ambient same_records.
Proof.
  split; [apply _| | |]; try done.
  intros w. by rewrite request_world.
Qed.

Lemma same_records_enqueueMedia r : respects same_records (db.enqueueMedia r).
Proof. intros w. rewrite enqueueMedia_run. by enqueue_cases w. Qed.

Definition twoFiles : sync.SubmissionData := sync.mkSubmission "trip" None [photo; video].

(** * Chunks and progress *)

Lemma totalChunksOf_div (fileSize : Z) :
  api.totalChunksOf fileSize = - ((- fileSize) / api.CHUNK_SIZE).
Proof.
  unfold api.totalChunksOf, Math_ceil, Qceiling, num. f_equal.
  rewrite Zdiv_Qdiv. apply Qfloor_comp.
  change (inject_Z (- fileSize)) with (- inject_Z fileSize)%Q.
  unfold Qdiv. ring.
Qed.

(** [Math.ceil(fileSize / CHUNK_SIZE)] is the least number of chunks that
    cover the file. *)
Lemma totalChunksOf_ceil (fileSize : Z) :
  (api.totalChunksOf fileSize - 1) * api.CHUNK_SIZE < fileSize
  ≤ api.totalChunksOf fileSize * api.CHUNK_SIZE.
Proof.
  rewrite totalChunksOf_div. unfold api.CHUNK_SIZE.
  pose proof (Z.div_mod (- fileSize) (5 * 1024 * 1024) ltac:(lia)) as E.
  pose proof (Z.mod_pos_bound (- fileSize) (5 * 1024 * 1024) ltac:(lia)) as B.
  lia.
Qed.

Lemma Math_round_percent (b t : Z) :
  0 < t → Math_round (num b / num t * 100) = (200 * b + t) / (2 * t).
Proof.
  intros Ht. unfold Math_round, num. rewrite Zdiv_Qdiv. apply Qfloor_comp.
  rewrite inject_Z_plus, !inject_Z_mult.
  assert (¬ inject_Z t == 0)%Q as Hne.
  { intros H. unfold Qeq in H. simpl in H. lia. }
  field. exact Hne.
Qed.

(** ** Doubles *)

Lemma pow2_pos e : (0 < 2 ^ e)%Q.
Proof. by apply Qpower_0_lt. Qed.

Lemma pow2_plus a b : (2 ^ (a + b) == 2 ^ a * 2 ^ b)%Q.
Proof. by apply Qpower_plus. Qed.

Lemma pow2_le a b : a ≤ b → (2 ^ a <= 2 ^ b)%Q.
Proof. intros H. by apply Qpower_le_compat_l. Qed.

Lemma pow2_lt_inv a b : (2 ^ a < 2 ^ b)%Q → a < b.
Proof. intros H. by apply (Qpower_lt_compat_l_inv 2). Qed.

Lemma pow2_Z n : 0 ≤ n → (2 ^ n == inject_Z (2 ^ n))%Q.
Proof. intros H. by rewrite Zpower_Qpower. Qed.

Lemma Qlog2_spec x : (0 < x)%Q → (2 ^ Qlog2 x <= x)%Q ∧ (x < 2 ^ (Qlog2 x + 1))%Q.
Proof.
  intros Hx. destruct x as [p q]. unfold Qlog2. cbn [Qnum Qden].
  assert (0 < p) as Hp. { unfold Qlt in Hx. simpl in Hx. lia. }
  set (lp := Z.log2 p). set (lq := Z.log2 (Zpos q)).
  destruct (Z.log2_spec p Hp) as [Hp1 Hp2].
  destruct (Z.log2_spec (Zpos q) ltac:(done)) as [Hq1 Hq2]. fold lp lq in Hp1, Hp2, Hq1, Hq2.
  assert (0 ≤ lp) as Hlp by apply Z.log2_nonneg.
  assert (0 ≤ lq) as Hlq by apply Z.log2_nonneg.
  assert (0 < 2 ^ lq) as Hq0 by (apply Z.pow_pos_nonneg; lia).
  assert (0 < 2 ^ Z.succ lq) as Hq0' by (apply Z.pow_pos_nonneg; lia).
  assert (p # q < 2 ^ (lp - lq + 1))%Q as Hup.
  { replace (lp - lq + 1) with (Z.succ lp - lq) by lia.
    rewrite Qpower_minus by done. rewrite !pow2_Z by lia.
    apply Qlt_shift_div_l.
    - unfold Qlt. simpl. lia.
    - unfold Qlt, Qmult, inject_Z. simpl. nia. }
  assert (2 ^ (lp - lq - 1) <= p # q)%Q as Hlow.
  { replace (lp - lq - 1) with (lp - Z.succ lq) by lia.
    rewrite Qpower_minus by done. rewrite !pow2_Z by lia.
    apply Qle_shift_div_r.
    - unfold Qlt. simpl. lia.
    - unfold Qle, Qmult, inject_Z. simpl. nia. }
  destruct (Qle_bool (2 ^ (lp - lq)) (p # q)) eqn:E.
  - apply Qle_bool_iff in E. by split.
  - split; [done|]. replace (lp - lq - 1 + 1) with (lp - lq) by lia.
    apply Qnot_le_lt. intros H. apply Qle_bool_iff in H. congruence.
Qed.

Global Instance roundTiesToEven_comp : Proper (Qeq ==> eq) roundTiesToEven.
Proof.
  intros x y E. unfold roundTiesToEven. rewrite (Qfloor_comp _ _ E).
  assert (x - inject_Z (Qfloor y) == y - inject_Z (Qfloor y))%Q as -> by (rewrite E; reflexivity).
  done.
Qed.

Lemma roundTiesToEven_cases x :
  (roundTiesToEven x = Qfloor x ∧ (x - inject_Z (Qfloor x) <= 1 # 2)%Q) ∨
  (roundTiesToEven x = Qfloor x + 1 ∧ (1 # 2 <= x - inject_Z (Qfloor x))%Q).
Proof.
  unfold roundTiesToEven.
  destruct (Qcompare_spec (x - inject_Z (Qfloor x)) (1 # 2)) as [E|E|E].
  - destruct (Z.even (Qfloor x)); [left|right]; (split; [done|]); rewrite E; apply Qle_refl.
  - left. split; [done|]. by apply Qlt_le_weak.
  - right. split; [done|]. by apply Qlt_le_weak.
Qed.

Lemma roundTiesToEven_Z n : roundTiesToEven (inject_Z n) = n.
Proof.
  unfold roundTiesToEven. rewrite Qfloor_Z.
  assert ((inject_Z n - inject_Z n ?= 1 # 2)%Q = Lt) as ->; [|done].
  apply (proj1 (Qlt_alt _ _)). lra.
Qed.

Lemma roundTiesToEven_mono x y : (x <= y)%Q → roundTiesToEven x ≤ roundTiesToEven y.
Proof.
  intros Hxy. pose proof (Qfloor_resp_le x y Hxy) as Hf.
  destruct (roundTiesToEven_cases x) as [[-> Hx]|[Ex Hx]];
    destruct (roundTiesToEven_cases y) as [[Ey Hy]|[Ey Hy]]; try lia.
  destruct (decide (Qfloor x = Qfloor y)) as [E|E]; [|lia].
  assert (x == y)%Q as ->; [|done].
  rewrite E in Hx. lra.
Qed.

Lemma roundTiesToEven_close x :
  (x - (1 # 2) <= inject_Z (roundTiesToEven x))%Q ∧
  (inject_Z (roundTiesToEven x) <= x + (1 # 2))%Q.
Proof.
  pose proof (Qfloor_le x) as H1. pose proof (Qlt_floor x) as H2.
  rewrite inject_Z_plus in H2. change (inject_Z 1) with 1%Q in H2.
  destruct (roundTiesToEven_cases x) as [[-> Hx]|[-> Hx]].
  - split; lra.
  - rewrite inject_Z_plus. change (inject_Z 1) with 1%Q. split; lra.
Qed.

(** ** The double nearest to a positive number *)

Lemma double_pos x :
  (0 < x)%Q →
  double x = (inject_Z (roundTiesToEven (x / 2 ^ (Qlog2 x - 52))) * 2 ^ (Qlog2 x - 52))%Q.
Proof.
  intros Hx. unfold double. destruct x as [[|p|p] q]; try done.
Qed.

Lemma double_zero x : (x == 0)%Q → double x = 0%Q.
Proof.
  intros Hx. unfold double. destruct x as [[|p|p] q]; try done.
Qed.

(** The number scaled by its unit in the last place has 53 bits. *)
Lemma scaled_range x :
  (0 < x)%Q →
  (inject_Z (2 ^ 52) <= x / 2 ^ (Qlog2 x - 52))%Q ∧
  (x / 2 ^ (Qlog2 x - 52) < inject_Z (2 ^ 53))%Q.
Proof.
  intros Hx. destruct (Qlog2_spec x Hx) as [H1 H2].
  pose proof (pow2_pos (Qlog2 x - 52)) as HP.
  assert (2 ^ Qlog2 x == inject_Z (2 ^ 52) * 2 ^ (Qlog2 x - 52))%Q as E1.
  { rewrite <- pow2_Z by lia. rewrite <- pow2_plus. by replace (52 + (Qlog2 x - 52)) with (Qlog2 x) by lia. }
  assert (2 ^ (Qlog2 x + 1) == inject_Z (2 ^ 53) * 2 ^ (Qlog2 x - 52))%Q as E2.
  { rewrite <- pow2_Z by lia. rewrite <- pow2_plus.
    by replace (53 + (Qlog2 x - 52)) with (Qlog2 x + 1) by lia. }
  split.
  - apply Qle_shift_div_l; [done|]. by rewrite <- E1.
  - apply Qlt_shift_div_r; [done|]. by rewrite <- E2.
Qed.

Lemma mantissa_range x :
  (0 < x)%Q →
  2 ^ 52 ≤ roundTiesToEven (x / 2 ^ (Qlog2 x - 52)) ≤ 2 ^ 53.
Proof.
  intros Hx. destruct (scaled_range x Hx) as [H1 H2]. split.
  - rewrite <- (roundTiesToEven_Z (2 ^ 52)). by apply roundTiesToEven_mono.
  - rewrite <- (roundTiesToEven_Z (2 ^ 53)). by apply roundTiesToEven_mono, Qlt_le_weak.
Qed.

Lemma double_nonneg x : (0 <= x)%Q → (0 <= double x)%Q.
Proof.
  intros Hx. destruct (Qlt_le_dec 0 x) as [Hpos|Hle].
  - rewrite double_pos by done. pose proof (mantissa_range x Hpos) as [Hm _].
    pose proof (pow2_pos (Qlog2 x - 52)) as HP.
    apply Qmult_le_0_compat; [|by apply Qlt_le_weak].
    change 0%Q with (inject_Z 0). rewrite <- Zle_Qle. lia.
  - rewrite double_zero; [done|]. lra.
Qed.

Lemma double_mono x y : (0 <= x)%Q → (x <= y)%Q → (double x <= double y)%Q.
Proof.
  intros Hx Hxy. destruct (Qlt_le_dec 0 x) as [Hpos|Hle].
  2: { rewrite (double_zero x) by lra. apply double_nonneg. lra. }
  assert (0 < y)%Q as Hy by lra.
  rewrite (double_pos x), (double_pos y) by done.
  destruct (Qlog2_spec x Hpos) as [X1 X2]. destruct (Qlog2_spec y Hy) as [Y1 Y2].
  assert (Qlog2 x ≤ Qlog2 y) as Hl.
  { assert (2 ^ Qlog2 x < 2 ^ (Qlog2 y + 1))%Q as H by lra. apply pow2_lt_inv in H. lia. }
  pose proof (mantissa_range x Hpos) as [_ Mx]. pose proof (mantissa_range y Hy) as [My _].
  pose proof (pow2_pos (Qlog2 x - 52)) as Px. pose proof (pow2_pos (Qlog2 y - 52)) as Py.
  destruct (decide (Qlog2 x = Qlog2 y)) as [E|E].
  - rewrite E. apply Qmult_le_compat_r; [|by apply Qlt_le_weak].
    rewrite <- Zle_Qle. apply roundTiesToEven_mono.
    unfold Qdiv. apply Qmult_le_compat_r; [done|].
    apply Qlt_le_weak, Qinv_lt_0_compat. by rewrite <- E.
  - apply Qle_trans with (inject_Z (2 ^ 53) * 2 ^ (Qlog2 x - 52))%Q.
    { apply Qmult_le_compat_r; [|by apply Qlt_le_weak]. by rewrite <- Zle_Qle. }
    apply Qle_trans with (inject_Z (2 ^ 52) * 2 ^ (Qlog2 y - 52))%Q.
    2: { apply Qmult_le_compat_r; [|by apply Qlt_le_weak]. by rewrite <- Zle_Qle. }
    rewrite <- !pow2_Z by lia. rewrite <- !pow2_plus. apply pow2_le. lia.
Qed.

(** The relative error of a rounding is at most 2^-53. *)
Definition unit_roundoff : Q := 1 # 9007199254740992.

Lemma double_close x :
  (0 <= x)%Q →
  ((1 - unit_roundoff) * x <= double x)%Q ∧ (double x <= (1 + unit_roundoff) * x)%Q.
Proof.
  intros Hx. destruct (Qlt_le_dec 0 x) as [Hpos|Hle].
  2: { rewrite (double_zero x) by lra. assert (x == 0)%Q as -> by lra. split; lra. }
  rewrite double_pos by done.
  destruct (scaled_range x Hpos) as [S1 S2].
  pose proof (pow2_pos (Qlog2 x - 52)) as HP.
  set (P := (2 ^ (Qlog2 x - 52))%Q) in *.
  set (m := (x / P)%Q) in *.
  destruct (roundTiesToEven_close m) as [C1 C2].
  set (n := inject_Z (roundTiesToEven m)) in *.
  assert (x == m * P)%Q as Ex. { unfold m. field. lra. }
  assert (inject_Z (2 ^ 52) == 4503599627370496)%Q as E52 by done.
  unfold unit_roundoff.
  rewrite E52 in S1. clearbody n. clearbody m. clearbody P.
  split.
  - rewrite Ex.
    assert ((1 - (1 # 9007199254740992)) * (m * P) == ((1 - (1 # 9007199254740992)) * m) * P)%Q
      as -> by ring.
    apply Qmult_le_compat_r; [clear -S1 C1; lra | clear -HP; lra].
  - rewrite Ex.
    assert ((1 + (1 # 9007199254740992)) * (m * P) == ((1 + (1 # 9007199254740992)) * m) * P)%Q
      as -> by ring.
    apply Qmult_le_compat_r; [clear -S1 C2; lra | clear -HP; lra].
Qed.

(** ** The percentage *)

(** The percentage [createProgressCallback] computes for [b] bytes of
    [t]. *)
Definition percentage (b t : Z) : Z :=
  Math_round (Number_mul (Number_div (num b) (num t)) 100).


Lemma Math_round_mono x y : (x <= y)%Q → Math_round x ≤ Math_round y.
Proof. intros H. unfold Math_round. apply Qfloor_resp_le. lra. Qed.

Lemma Math_round_comp x y : (x == y)%Q → Math_round x = Math_round y.
Proof. intros H. unfold Math_round. apply Qfloor_comp. by rewrite H. Qed.

Lemma double_comp x y : (0 <= x)%Q → (x == y)%Q → (double x == double y)%Q.
Proof.
  intros Hx E. apply Qle_antisym; apply double_mono; lra.
Qed.

Lemma quotient_nonneg b t : 0 ≤ b → 0 < t → (0 <= num b / num t)%Q.
Proof.
  intros Hb Ht. unfold num. apply Qle_shift_div_l.
  - change 0%Q with (inject_Z 0). by rewrite <- Zlt_Qlt.
  - rewrite Qmult_0_l. change 0%Q with (inject_Z 0). by rewrite <- Zle_Qle.
Qed.

Lemma quotient_mono b1 b2 t : b1 ≤ b2 → 0 < t → (num b1 / num t <= num b2 / num t)%Q.
Proof.
  intros Hb Ht. unfold num, Qdiv. apply Qmult_le_compat_r.
  - by rewrite <- Zle_Qle.
  - apply Qlt_le_weak, Qinv_lt_0_compat. change 0%Q with (inject_Z 0). by rewrite <- Zlt_Qlt.
Qed.

Lemma percentage_zero t : percentage 0 t = 0.
Proof.
  unfold percentage, Number_mul, Number_div.
  rewrite (double_zero (num 0 / num t)); [done|].
  unfold num, Qdiv. by rewrite Qmult_0_l.
Qed.

Lemma percentage_mono b1 b2 t :
  0 ≤ b1 ≤ b2 → 0 < t → percentage b1 t ≤ percentage b2 t.
Proof.
  intros Hb Ht. unfold percentage, Number_mul, Number_div.
  apply Math_round_mono, double_mono.
  - apply Qmult_le_0_compat; [|done]. apply double_nonneg, quotient_nonneg; lia.
  - apply Qmult_le_compat_r; [|done].
    apply double_mono; [apply quotient_nonneg; lia|apply quotient_mono; lia].
Qed.

Lemma percentage_full t : 0 < t → percentage t t = 100.
Proof.
  intros Ht. unfold percentage, Number_mul, Number_div.
  assert (num t / num t == 1)%Q as E1.
  { unfold num. field. intros H. apply (inject_Z_injective t 0) in H. lia. }
  assert (double (num t / num t) == 1)%Q as E2.
  { rewrite (double_comp _ 1); [done| |done]. rewrite E1. done. }
  assert (double (double (num t / num t) * 100) == 100)%Q as E3.
  { rewrite (double_comp _ 100); [done| |by rewrite E2]. rewrite E2. done. }
  rewrite (Math_round_comp _ 100) by done. done.
Qed.

Lemma percentage_bounds b t : 0 < t → 0 ≤ b ≤ t → 0 ≤ percentage b t ≤ 100.
Proof.
  intros Ht Hb.
  pose proof (percentage_mono 0 b t ltac:(lia) Ht) as H1. rewrite percentage_zero in H1.
  pose proof (percentage_mono b t t ltac:(lia) Ht) as H2. rewrite percentage_full in H2 by done.
  lia.
Qed.

Lemma inject_Z_minus (x y : Z) : inject_Z (x - y) = (inject_Z x - inject_Z y)%Q.
Proof. unfold Z.sub, Qminus. by rewrite inject_Z_plus, inject_Z_opp. Qed.

(** The double product is near the exact one. *)
Lemma product_near b t :
  0 < t → 0 ≤ b ≤ t →
  let z := Number_mul (Number_div (num b) (num t)) 100 in
  let x := (num b / num t * 100)%Q in
  (x - (201 # 9007199254740992) <= z)%Q ∧ (z <= x + (201 # 9007199254740992))%Q.
Proof.
  intros Ht Hb. cbv zeta. unfold Number_mul, Number_div.
  pose proof (quotient_nonneg b t ltac:(lia) Ht) as Ha.
  assert (num b / num t <= 1)%Q as Ha1.
  { apply Qle_shift_div_r.
    - unfold num. change 0%Q with (inject_Z 0). by rewrite <- Zlt_Qlt.
    - rewrite Qmult_1_l. unfold num. rewrite <- Zle_Qle. lia. }
  set (a := (num b / num t)%Q) in *. clearbody a.
  destruct (double_close a Ha) as [Y1 Y2].
  pose proof (double_nonneg a Ha) as Y0.
  set (y := double a) in *. clearbody y.
  assert (0 <= y * 100)%Q as Hy by lra.
  destruct (double_close (y * 100) Hy) as [Z1 Z2].
  set (z := double (y * 100)) in *. clearbody z.
  unfold unit_roundoff in *. split; lra.
Qed.

(** [Math.round] of the double product against the exact rounding: they
    agree unless the exact product lies halfway between two integers, where
    the double product can fall on either side. *)
Lemma percentage_near b t :
  0 < t ≤ 2 ^ 44 → 0 ≤ b ≤ t →
  let exact := Math_round (num b / num t * 100) in
  ((200 * b + t) mod (2 * t) ≠ 0 → percentage b t = exact) ∧
  (percentage b t = exact ∨ percentage b t = exact - 1).
Proof.
  intros Ht Hb. cbv zeta.
  destruct (product_near b t ltac:(lia) Hb) as [N1 N2]. cbv zeta in N1, N2.
  unfold percentage. set (z := Number_mul _ 100) in *. clearbody z.
  set (x := (num b / num t * 100)%Q) in *.
  set (R := (200 * b + t) / (2 * t)). set (r := (200 * b + t) mod (2 * t)).
  pose proof (Z.div_mod (200 * b + t) (2 * t) ltac:(lia)) as Hdm. fold R r in Hdm.
  pose proof (Z.mod_pos_bound (200 * b + t) (2 * t) ltac:(lia)) as Hr. fold r in Hr.
  assert (x + (1 # 2) == inject_Z R + inject_Z r / inject_Z (2 * t))%Q as Ex.
  { unfold x, num.
    assert (inject_Z r == inject_Z (200 * b + t) - inject_Z (2 * t) * inject_Z R)%Q as ->.
    { rewrite <- inject_Z_mult, <- inject_Z_minus. apply inject_Z_injective. lia. }
    rewrite !inject_Z_plus, !inject_Z_mult. field.
    intros H. apply (inject_Z_injective t 0) in H. lia. }
  assert (Math_round x = R) as ER by (apply Math_round_percent; lia).
  rewrite ER.
  (* the step between two exact products is 1 / (2 t), wider than the error *)
  set (δ := (1 / inject_Z (2 * t))%Q).
  assert (201 # 9007199254740992 < δ)%Q as Hδ.
  { unfold δ. apply Qlt_shift_div_l.
    - change 0%Q with (inject_Z 0). rewrite <- Zlt_Qlt. lia.
    - unfold Qlt, Qmult, inject_Z. simpl. lia. }
  assert (inject_Z r / inject_Z (2 * t) == inject_Z r * δ)%Q as Erδ.
  { unfold δ. field. intros H. apply (inject_Z_injective (2 * t) 0) in H. lia. }
  assert (inject_Z (2 * t) * δ == 1)%Q as Eδ.
  { unfold δ. field. intros H. apply (inject_Z_injective (2 * t) 0) in H. lia. }
  rewrite Erδ in Ex. clearbody δ.
  assert (∀ k : Z, (inject_Z k <= z + (1 # 2))%Q → (z + (1 # 2) < inject_Z (k + 1))%Q →
            Math_round z = k) as Hfloor.
  { intros k K1 K2. unfold Math_round.
    pose proof (Qfloor_resp_le _ _ K1) as F1. rewrite Qfloor_Z in F1.
    pose proof (Qfloor_le (z + (1 # 2))) as F2.
    assert (inject_Z (Qfloor (z + (1 # 2))) < inject_Z (k + 1))%Q as F3 by lra.
    rewrite <- Zlt_Qlt in F3. lia. }
  assert (0 <= inject_Z r)%Q as Hr0.
  { change 0%Q with (inject_Z 0). rewrite <- Zle_Qle. lia. }
  split.
  - intros Hne. apply Hfloor.
    + assert (1 <= inject_Z r)%Q as Hr1.
      { change 1%Q with (inject_Z 1). rewrite <- Zle_Qle. lia. }
      assert (δ <= inject_Z r * δ)%Q by nra. lra.
    + rewrite inject_Z_plus. change (inject_Z 1) with 1%Q.
      assert (inject_Z r <= inject_Z (2 * t) - 1)%Q as Hr1.
      { change 1%Q with (inject_Z 1). rewrite <- inject_Z_minus, <- Zle_Qle. lia. }
      assert (inject_Z r * δ <= 1 - δ)%Q by nra. lra.
  - destruct (decide (r = 0)) as [E0|Hne].
    + rewrite E0 in Ex. change (inject_Z 0) with 0%Q in Ex.
      destruct (Qlt_le_dec (z + (1 # 2)) (inject_Z R)) as [Hlow|Hhigh].
      * right. apply Hfloor.
        -- rewrite inject_Z_minus. change (inject_Z 1) with 1%Q. lra.
        -- replace (R - 1 + 1) with R by lia. done.
      * left. apply Hfloor; [done|].
        rewrite inject_Z_plus. change (inject_Z 1) with 1%Q. lra.
    + left. apply Hfloor.
      * assert (1 <= inject_Z r)%Q as Hr1.
        { change 1%Q with (inject_Z 1). rewrite <- Zle_Qle. lia. }
        assert (δ <= inject_Z r * δ)%Q by nra. lra.
      * rewrite inject_Z_plus. change (inject_Z 1) with 1%Q.
        assert (inject_Z r <= inject_Z (2 * t) - 1)%Q as Hr1.
        { change 1%Q with (inject_Z 1). rewrite <- inject_Z_minus, <- Zle_Qle. lia. }
        assert (inject_Z r * δ <= 1 - δ)%Q by nra. lra.
Qed.

(** A whole number below 2^53 is a double. *)
Lemma double_Z n : 0 ≤ n < 2 ^ 53 → (double (inject_Z n) == inject_Z n)%Q.
Proof.
  intros Hn. destruct (decide (n = 0)) as [->|Hne]; [done|].
  assert (0 < inject_Z n)%Q as Hpos.
  { change 0%Q with (inject_Z 0). rewrite <- Zlt_Qlt. lia. }
  rewrite double_pos by done.
  destruct (Qlog2_spec _ Hpos) as [L1 _].
  set (L := Qlog2 (inject_Z n)) in *.
  assert (L < 53) as HL.
  { apply pow2_lt_inv. apply Qle_lt_trans with (inject_Z n); [done|].
    rewrite pow2_Z by lia. rewrite <- Zlt_Qlt. lia. }
  pose proof (pow2_pos (L - 52)) as HP.
  assert (2 ^ (L - 52) * 2 ^ (52 - L) == 1)%Q as HPK.
  { rewrite <- pow2_plus. by replace (L - 52 + (52 - L)) with 0 by lia. }
  assert (2 ^ (52 - L) == inject_Z (2 ^ (52 - L)))%Q as HK by (apply pow2_Z; lia).
  set (P := (2 ^ (L - 52))%Q) in *. set (K := (2 ^ (52 - L))%Q) in *.
  assert (inject_Z n / P == inject_Z (n * 2 ^ (52 - L)))%Q as E.
  { rewrite inject_Z_mult, <- HK. clearbody P K.
    assert (K == / P)%Q as ->; [|done].
    rewrite <- (Qmult_1_l (/ P)), <- HPK. field. lra. }
  rewrite (roundTiesToEven_comp _ _ E), roundTiesToEven_Z.
  rewrite inject_Z_mult, <- HK. clearbody P K.
  rewrite <- Qmult_assoc, (Qmult_comm K P), HPK. ring.
Qed.

Lemma Math_ceil_between (x : Q) (n : Z) :
  (inject_Z (n - 1) < x)%Q → (x <= inject_Z n)%Q → Math_ceil x = n.
Proof.
  intros H1 H2. unfold Math_ceil.
  pose proof (Qceiling_resp_le _ _ H2) as U. rewrite Qceiling_Z in U.
  pose proof (Qle_ceiling x) as V.
  assert (inject_Z (n - 1) < inject_Z (Qceiling x))%Q as W by lra.
  rewrite <- Zlt_Qlt in W. lia.
Qed.

(** The double quotient of the chunk count has the ceiling of the exact
    one. *)
Lemma totalChunksOf_double (fileSize : Z) :
  0 ≤ fileSize ≤ 2 ^ 44 →
  Math_ceil (Number_div (num fileSize) (num api.CHUNK_SIZE)) = api.totalChunksOf fileSize.
Proof.
  intros HS. pose proof (totalChunksOf_ceil fileSize) as Hc.
  set (n := api.totalChunksOf fileSize) in *. unfold api.CHUNK_SIZE in *.
  change (5 * 1024 * 1024) with 5242880 in *. change (2 ^ 44) with 17592186044416 in HS.
  unfold Number_div, num.
  assert (0 <= inject_Z fileSize / inject_Z 5242880)%Q as Hx.
  { apply (quotient_nonneg fileSize 5242880); lia. }
  assert (inject_Z fileSize / inject_Z 5242880 * 5242880 == inject_Z fileSize)%Q as Ex.
  { change (inject_Z 5242880) with 5242880%Q. field. }
  set (x := (inject_Z fileSize / inject_Z 5242880)%Q) in *. clearbody x.
  assert (inject_Z ((n - 1) * 5242880 + 1) <= inject_Z fileSize)%Q as Q1
    by (rewrite <- Zle_Qle; lia).
  assert (inject_Z fileSize <= inject_Z (n * 5242880))%Q as Q2 by (rewrite <- Zle_Qle; lia).
  assert (inject_Z fileSize <= inject_Z 17592186044416)%Q as Q3 by (rewrite <- Zle_Qle; lia).
  rewrite inject_Z_plus, inject_Z_mult in Q1. rewrite inject_Z_mult in Q2.
  change (inject_Z 5242880) with 5242880%Q in *. change (inject_Z 1) with 1%Q in *.
  change (inject_Z 17592186044416) with 17592186044416%Q in *.
  destruct (double_close x Hx) as [D1 _]. unfold unit_roundoff in D1.
  assert (double x <= inject_Z n)%Q as D2.
  { rewrite <- (double_Z n) by lia. apply double_mono; [done|]. clear -Ex Q2. lra. }
  apply Math_ceil_between; [|done].
  set (S := inject_Z fileSize) in *. set (m := inject_Z (n - 1)) in *. set (d := double x) in *.
  clearbody S m d. clear -Ex Q1 Q3 D1. lra.
Qed.

(** ** The doubles of the Standard Library *)

(** The percentage once more, with the binary64 division and multiplication
    that [SpecFloat] specifies. *)
Definition SFnum (z : Z) : spec_float := binary_normalize 53 1024 z 0 false.

Definition SFvalue (x : spec_float) : Q :=
  match x with
  | S754_finite s m e => ((if s then -1 else 1) * inject_Z (Zpos m) * 2 ^ e)%Q
  | _ => 0%Q
  end.

Definition SFpercentage (b t : Z) : Z :=
  Math_round (SFvalue (SFmul 53 1024 (SFdiv 53 1024 (SFnum b) (SFnum t)) (SFnum 100))).

(** The ends of the chunks of a file of [t] bytes. *)
Definition chunkEnds (t : Z) : list Z := api.chunkEnd t <$> seqZ 0 (api.totalChunksOf t).

(** [percentage] is the percentage of [SpecFloat] at every chunk end of
    every file of a whole number of MiB up to 200, and at every byte of
    every file of up to 60 bytes. *)
Example percentage_is_binary64 :
  forallb (λ k, forallb (λ b, percentage b (k * MiB) =? SFpercentage b (k * MiB))
                        (chunkEnds (k * MiB))) (seqZ 1 200) = true ∧
  forallb (λ t, forallb (λ b, percentage b t =? SFpercentage b t) (seqZ 0 (t + 1)))
          (seqZ 1 60) = true ∧
  SFpercentage (115 * MiB) (200 * MiB) = 57.
Proof. split; [|split]; vm_compute; reflexivity. Qed.

(** What the environment has next for the network and for the store. *)
Definition nextOutcome (w : World) : NetOutcome :=
  match network w with
  | [] => Responded plainOk
  | out :: _ => out
  end.

Definition nextFault (w : World) : option Error :=
  match storeFaults w with
  | Some e :: _ => Some e
  | _ => None
  end.

Definition answered (w : World) : World :=
  match network w with
  | [] => w
  | _ :: rest => set_network rest w
  end.

Lemma fetch_run req w : fetch req w = respond req (nextOutcome w) (answered w).
Proof. unfold fetch, nextOutcome, answered. by destruct (network w). Qed.

Lemma answered_fields w :
  mediaQueue (answered w) = mediaQueue w ∧ storeFaults (answered w) = storeFaults w ∧
  trace (answered w) = trace w ∧ records (answered w) = records w.
Proof. unfold answered. by destruct (network w). Qed.

(** The request that carries chunk [i]. *)
Definition chunkReq (file : File) (fileSize totalChunks : Z) (uid url : option string)
    (i : Z) : Request :=
  mkRequest (api.API_BASE_URL +:+ str_or url "/media-uploads/chunk")
            (ChunkBody (slice file (api.chunkStart i) (api.chunkEnd fileSize i))
                       uid i totalChunks).

(** * The order and the retries of chunks *)

Definition isFailure (out : NetOutcome) : bool :=
  match out with
  | NetworkError _ => true
  | Responded r => negb (ok r)
  end.

Definition isProgress (ev : Event) : Prop :=
  match ev with
  | EvUploadProgress _ _ _ _ => True
  | _ => False
  end.

(** What one chunk leaves in the trace when its requests, the first of them
    being attempt number [attempt], met the outcomes [outs]: every request
    but the last is followed by a wait of [2 ^ attempt] seconds, and the
    last, when it succeeded, by the progress report. *)
Fixpoint segment (attempt : Z) (req : Request) (outs : list NetOutcome)
    (progress : list Event) : list Event :=
  match outs with
  | [] => []
  | out :: outs' =>
      EvFetch req out ::
      match outs' with
      | [] => if isFailure out then [] else progress
      | _ => EvTimeout (2 ^ attempt * 1000) :: segment (attempt + 1) req outs' progress
      end
  end.

(** The outcomes one chunk can meet: failures, then a success, or three
    failures. *)
Definition seg_ok (s : list NetOutcome * list Event) : Prop :=
  (length s.1 ≤ 3)%nat ∧ Forall isProgress s.2 ∧
  ∃ fs out, s.1 = fs ++ [out] ∧ Forall (λ o, isFailure o = true) fs ∧
            (isFailure out = true → length s.1 = 3%nat).

Definition succeeded (s : list NetOutcome * list Event) : Prop :=
  isFailure <$> last s.1 = Some false.

Definition exhausted (s : list NetOutcome * list Event) : Prop :=
  isFailure <$> last s.1 = Some true.

(** The indices of the chunk requests of a trace, in the order they were
    sent. *)
Definition chunkIndexOf (ev : Event) : option Z :=
  match ev with
  | EvFetch (mkRequest _ (ChunkBody _ _ i _)) _ => Some i
  | _ => None
  end.

Definition sent (t : list Event) : list Z := omap chunkIndexOf t.

Definition chunkError (out : NetOutcome) : Error :=
  match out with
  | NetworkError msg => mkError "TypeError" msg
  | Responded r => newError ("Chunk upload failed: " +:+ statusText r)
  end.

Lemma chunkAttempt_run file fs tc uid url cb i w :
  api.chunkAttempt file fs tc uid url (Some cb) i w =
  let w1 := emit (EvFetch (chunkReq file fs tc uid url i) (nextOutcome w)) (answered w) in
  if isFailure (nextOutcome w) then (Throw (chunkError (nextOutcome w)), w1)
  else (Ok tt, (cb (api.chunkEnd fs i) fs w1).2).
Proof.
  unfold api.chunkAttempt. cbv zeta. rewrite bind_run, fetch_run.
  fold (chunkReq file fs tc uid url i).
  destruct (nextOutcome w) as [msg|r]; simpl; [done|].
  by destruct (ok r).
Qed.

Definition exhaustedError (i tc : Z) (error : Error) : Error :=
  newError ("Failed to upload chunk " +:+ pretty (i + 1) +:+ "/" +:+
            pretty tc +:+ ": " +:+ err_message error).

Lemma chunkRetryLoop_S n attempt i tc w :
  api.chunkRetryLoop (S n) attempt i tc w =
  match attempt w with
  | (Ok _, w1) => (Ok tt, w1)
  | (Throw e, w1) =>
      if decide (n = 0%nat) then (Throw (exhaustedError i tc e), w1)
      else api.chunkRetryLoop n attempt i tc
             (emit (EvTimeout (2 ^ (3 - Z.of_nat n) * 1000)) w1)
  end.
Proof.
  simpl. unfold bind at 1, try_catch, bind at 1.
  destruct (attempt w) as [[[]|e] w1]; [done|].
  by destruct (decide (n = 0%nat)).
Qed.

Lemma progress_quiet k b t w :
  ∃ p, trace (sync.createProgressCallback k b t w).2 = trace w ++ p ∧ Forall isProgress p.
Proof.
  unfold sync.createProgressCallback. cbv zeta. rewrite bind_run, updateQueueItem_run.
  store_cases w; try destruct (mediaQueue w !! k); simpl;
    first [ by exists []; rewrite app_nil_r
          | eexists [_]; split; [done|]; by repeat constructor ].
Qed.

Lemma retry_shape file fs tc uid url k i n w :
  (S n ≤ 3)%nat →
  let r := api.chunkRetryLoop (S n)
             (api.chunkAttempt file fs tc uid url (Some (sync.createProgressCallback k)) i)
             i tc w in
  ∃ outs p,
    trace r.2 = trace w ++ segment (3 - Z.of_nat n) (chunkReq file fs tc uid url i) outs p ∧
    Forall isProgress p ∧ (length outs ≤ S n)%nat ∧
    ∃ fs' out, outs = fs' ++ [out] ∧ Forall (λ o, isFailure o = true) fs' ∧
      match r.1 with
      | Ok _ => isFailure out = false
      | Throw _ => isFailure out = true ∧ length outs = S n
      end.
Proof.
  revert w. induction n as [|n IH]; intros w Hn; cbv zeta;
    rewrite chunkRetryLoop_S, chunkAttempt_run; cbv zeta;
    destruct (answered_fields w) as (_ & _ & At & _);
    destruct (isFailure (nextOutcome w)) eqn:F.
  - exists [nextOutcome w], []. simpl. rewrite F, At.
    repeat split; try done. by exists [], (nextOutcome w).
  - destruct (progress_quiet k (api.chunkEnd fs i) fs
                (emit (EvFetch (chunkReq file fs tc uid url i) (nextOutcome w)) (answered w)))
      as (p & Hp & HF).
    exists [nextOutcome w], p. simpl. rewrite F, Hp. simpl. rewrite At, <- app_assoc.
    repeat split; try done; try lia. by exists [], (nextOutcome w).
  - rewrite decide_False by done.
    set (w2 := emit _ (emit _ (answered w))).
    destruct (IH w2 ltac:(lia)) as (outs & p & Ht & HF & Hlen & fs' & out & -> & Hfs & Hr).
    exists (nextOutcome w :: fs' ++ [out]), p. cbv zeta in Ht. rewrite Ht.
    split; [|split; [done|split; [simpl in *; lia|]]].
    + subst w2. simpl. rewrite At, <- !app_assoc. simpl. f_equal. f_equal.
      replace (3 - Z.of_nat (S n)) with (3 - Z.of_nat (S n) + 1 - 1) by lia.
      replace (3 - Z.of_nat n) with (3 - Z.of_nat (S n) + 1) by lia.
      replace (3 - Z.of_nat (S n) + 1 - 1) with (3 - Z.of_nat (S n)) by lia.
      by destruct fs'.
    + exists (nextOutcome w :: fs'), out. split; [done|]. split; [by constructor|].
      destruct (api.chunkRetryLoop _ _ _ _ _).1; [done|].
      destruct Hr as [? Hl]. split; [done|]. simpl in *. lia.
  - destruct (progress_quiet k (api.chunkEnd fs i) fs
                (emit (EvFetch (chunkReq file fs tc uid url i) (nextOutcome w)) (answered w)))
      as (p & Hp & HF).
    exists [nextOutcome w], p. simpl. rewrite F, Hp. simpl. rewrite At, <- app_assoc.
    repeat split; try done; try lia. by exists [], (nextOutcome w).
Qed.

Lemma forEach_cons {A} (x : A) (l : list A) (body : A → M unit) w :
  forEach (x :: l) body w
  = match body x w with
    | (Ok _, w1) => forEach l body w1
    | (Throw e, w1) => (Throw e, w1)
    end.
Proof. done. Qed.

(** The trace of the chunks [l], one segment for each chunk reached. *)
Definition segments (req : Z → Request) (l : list Z)
    (segs : list (list NetOutcome * list Event)) : list Event :=
  concat (zip_with (λ i s, segment 1 (req i) s.1 s.2) l segs).

Lemma chunks_shape file fs tc uid url k l w :
  let r := forEach l (λ i,
             api.chunkRetryLoop 3
               (api.chunkAttempt file fs tc uid url (Some (sync.createProgressCallback k)) i)
               i tc) w in
  ∃ segs,
    trace r.2 = trace w ++ segments (chunkReq file fs tc uid url) l segs ∧
    Forall seg_ok segs ∧ (length segs ≤ length l)%nat ∧
    match r.1 with
    | Ok _ => length segs = length l ∧ Forall succeeded segs
    | Throw _ => ∃ segs0 s, segs = segs0 ++ [s] ∧ Forall succeeded segs0 ∧ exhausted s
    end.
Proof.
  revert w. induction l as [|i l IH]; intros w; cbv zeta.
  { exists []. simpl. rewrite app_nil_r. repeat split; try done; constructor. }
  rewrite forEach_cons.
  destruct (retry_shape file fs tc uid url k i 2 w ltac:(lia))
    as (outs & p & Ht & HF & Hlen & fs' & out & -> & Hfs & Hr).
  cbv zeta in Ht, Hr. change (3 - Z.of_nat 2) with 1 in Ht.
  destruct (api.chunkRetryLoop 3 _ i tc w) as [[[]|e] w1]; cbn [fst snd] in *.
  - destruct (IH w1) as (segs & Ht' & Hok & Hl & Hr'). cbv zeta in Ht', Hr'.
    exists ((fs' ++ [out], p) :: segs). split; [|split; [|split]].
    + rewrite Ht', Ht. unfold segments. simpl. by rewrite <- app_assoc.
    + constructor; [|done]. split; [done|]. split; [done|].
      exists fs', out. split; [done|]. split; [done|]. intros; congruence.
    + simpl. lia.
    + assert (succeeded (fs' ++ [out], p)) as Hsucc.
      { unfold succeeded. simpl. rewrite last_snoc. simpl. by rewrite Hr. }
      destruct (forEach l _ w1).1.
      * destruct Hr' as [Hr1 Hr2]. split; [simpl; lia|by constructor].
      * destruct Hr' as (segs0 & s & -> & Hs0 & Hs).
        exists ((fs' ++ [out], p) :: segs0), s. split; [done|]. split; [by constructor|done].
  - destruct Hr as [Hf Hl3]. exists [(fs' ++ [out], p)]. split; [|split; [|split]].
    + rewrite Ht. unfold segments. simpl. destruct l; simpl; by rewrite app_nil_r.
    + constructor; [|done]. split; [simpl; lia|]. split; [done|].
      by exists fs', out.
    + simpl. lia.
    + exists [], (fs' ++ [out], p). split; [done|]. split; [done|].
      unfold exhausted. simpl. rewrite last_snoc. simpl. by rewrite Hf.
Qed.

Lemma sent_cons ev t :
  sent (ev :: t) = match chunkIndexOf ev with Some i => i :: sent t | None => sent t end.
Proof. done. Qed.

Lemma sent_app t1 t2 : sent (t1 ++ t2) = sent t1 ++ sent t2.
Proof. apply omap_app. Qed.

Lemma sent_progress p : Forall isProgress p → sent p = [].
Proof.
  induction 1 as [|ev p Hev _ IH]; [done|].
  rewrite sent_cons, IH. by destruct ev.
Qed.

Lemma sent_segment a file fs tc uid url i outs p :
  Forall isProgress p →
  sent (segment a (chunkReq file fs tc uid url i) outs p) = replicate (length outs) i.
Proof.
  intros HF. revert a. induction outs as [|out outs IH]; intros a; [done|].
  destruct outs as [|out' outs].
  - cbn [segment]. rewrite sent_cons. cbn [chunkIndexOf chunkReq length replicate].
    f_equal. destruct (isFailure out); [done|]. by apply sent_progress.
  - specialize (IH (a + 1)). change (segment a _ (out :: out' :: outs) p) with
      (EvFetch (chunkReq file fs tc uid url i) out :: EvTimeout (2 ^ a * 1000) ::
       segment (a + 1) (chunkReq file fs tc uid url i) (out' :: outs) p).
    rewrite !sent_cons. cbn [chunkIndexOf chunkReq]. rewrite IH. done.
Qed.

(** The indices sent, chunk by chunk. *)
Definition blocks (l : list Z) (segs : list (list NetOutcome * list Event)) : list Z :=
  concat (zip_with (λ i s, replicate (length s.1) i) l segs).

Lemma sent_segments file fs tc uid url l segs :
  Forall seg_ok segs →
  sent (segments (chunkReq file fs tc uid url) l segs) = blocks l segs.
Proof.
  intros Hok. revert l. induction Hok as [|s segs Hs _ IH]; intros l.
  - by destruct l.
  - destruct l as [|i l]; [done|]. unfold segments, blocks in *. cbn [zip_with concat].
    rewrite sent_app, IH. f_equal.
    apply sent_segment. by destruct Hs as (_ & ? & _).
Qed.

Lemma elem_of_blocks l segs x : x ∈ blocks l segs → x ∈ l.
Proof.
  revert segs. induction l as [|i l IH]; intros segs; [done|].
  destruct segs as [|s segs]; [by intros H; apply elem_of_nil in H|].
  unfold blocks. simpl. rewrite elem_of_app. intros [H|H].
  - apply elem_of_replicate_inv in H. subst. by left.
  - right. by apply (IH segs).
Qed.

Lemma blocks_sorted l segs : StronglySorted Z.lt l → StronglySorted Z.le (blocks l segs).
Proof.
  intros Hl. revert segs. induction Hl as [|i l Hl IH Hi]; intros segs; [constructor|].
  destruct segs as [|s segs]; [constructor|].
  unfold blocks. simpl. apply StronglySorted_app_2.
  - intros x y Hx Hy. apply elem_of_replicate_inv in Hx. subst.
    apply elem_of_blocks in Hy. rewrite Forall_forall in Hi. specialize (Hi y Hy). lia.
  - generalize (length s.1). intros n. induction n as [|n IHn]; simpl; constructor; [done|].
    apply Forall_forall. intros y Hy. apply elem_of_replicate_inv in Hy. lia.
  - apply IH.
Qed.

Lemma blocks_count l segs i :
  NoDup l → Forall seg_ok segs → (length (filter (λ j, j = i) (blocks l segs)) ≤ 3)%nat.
Proof.
  intros Hl. revert segs. induction Hl as [|j l Hj Hl IH]; intros segs Hok; [simpl; lia|].
  destruct segs as [|s segs]; [simpl; lia|].
  apply Forall_cons in Hok as [Hs Hok].
  unfold blocks. simpl. rewrite filter_app, length_app.
  destruct (decide (j = i)) as [->|Hne].
  - assert (filter (λ j, j = i) (blocks l segs) = []) as E.
    { apply filter_none. intros x Hx ->. by apply elem_of_blocks in Hx. }
    unfold blocks in E. rewrite E. simpl.
    etrans; [rewrite Nat.add_0_r; apply length_filter|].
    rewrite length_replicate. by destruct Hs.
  - assert (filter (λ j, j = i) (replicate (length s.1) j) = []) as E.
    { apply filter_none. intros x Hx ->. apply elem_of_replicate_inv in Hx. done. }
    rewrite E. simpl. by apply IH.
Qed.

Lemma seqZ_sorted m n : StronglySorted Z.lt (seqZ m n).
Proof.
  remember (Z.to_nat n) as c eqn:Hc. revert m n Hc.
  induction c as [|c IH]; intros m n Hc.
  - rewrite seqZ_nil by lia. constructor.
  - rewrite seqZ_cons by lia. constructor; [apply IH; lia|].
    apply Forall_forall. intros y Hy. apply elem_of_seqZ in Hy. lia.
Qed.

Lemma uploadMediaChunked_run sid file cb w :
  api.uploadMediaChunked sid file cb w =
  let S := size file in
  let n := api.totalChunksOf S in
  let uploadId := pretty sid +:+ "-" +:+ file_name file +:+ "-" +:+ pretty (clock w) in
  match api.post "/media-uploads/init"
          (InitBody sid (file_name file) S (file_type file) n uploadId) w with
  | (Throw e, w1) => (Throw e, w1)
  | (Ok JNull, w1) => (Throw (mkError "TypeError" "Cannot destructure property 'upload_id'"), w1)
  | (Ok (JObj _ uid url), w1) =>
      match api.uploadChunks file S n uid url cb w1 with
      | (Throw e, w2) => (Throw e, w2)
      | (Ok _, w2) => api.post "/media-uploads/finalize" (FinalizeBody uid sid) w2
      end
  end.
Proof.
  unfold api.uploadMediaChunked. cbv zeta. unfold Date_now. rewrite bind_gets, bind_run.
  destruct (api.post _ _ w) as [[[|m uid url]|e] w1]; try done.
Qed.

(** C8. The trace of the chunk loop is one segment per chunk index
    0, 1, 2, ... in this order.  A segment holds at most three requests for
    its chunk, all failed but possibly the last; the failed request number
    [a] of a chunk, unless it is the third, is followed by a wait of
    [2 ^ a] seconds and then by the next request for the same chunk.  The
    loop ends normally when every chunk has a segment ending in a success,
    and throws exactly when the last segment holds three failures, after
    which nothing more is sent and [uploadMediaChunked] throws the same
    error.  Hence the indices sent never decrease, so no earlier chunk is sent
    again, and no index is sent more than three times. *)
Theorem chunks_in_order_with_bounded_retries
    (file : File) (uid url : option string) (k : nat) (w : World) :
  let S := size file in
  let n := api.totalChunksOf S in
  let cb := Some (sync.createProgressCallback k) in
  let r := api.uploadChunks file S n uid url cb w in
  ∃ segs delta,
    trace r.2 = trace w ++ delta ∧
    delta = segments (chunkReq file S n uid url) (seqZ 0 n) segs ∧
    Forall seg_ok segs ∧
    (length segs ≤ length (seqZ 0 n))%nat ∧
    match r.1 with
    | Ok _ => length segs = length (seqZ 0 n) ∧ Forall succeeded segs
    | Throw _ => ∃ segs0 s, segs = segs0 ++ [s] ∧ Forall succeeded segs0 ∧ exhausted s
    end ∧
    StronglySorted Z.le (sent delta) ∧
    (∀ i, (length (filter (λ j, j = i) (sent delta)) ≤ 3)%nat) ∧
    (∀ e, r.1 = Throw e →
      ∀ sid m w0,
        api.post "/media-uploads/init"
          (InitBody sid (file_name file) S (file_type file) n
             (pretty sid +:+ "-" +:+ file_name file +:+ "-" +:+ pretty (clock w0))) w0
        = (Ok (JObj m uid url), w) →
        api.uploadMediaChunked sid file cb w0 = (Throw e, r.2)).
Proof.
  intros S n cb r.
  destruct (chunks_shape file S n uid url k (seqZ 0 n) w) as (segs & Ht & Hok & Hl & Hr).
  exists segs, (segments (chunkReq file S n uid url) (seqZ 0 n) segs).
  split; [exact Ht|]. split; [done|]. split; [done|]. split; [done|].
  split; [exact Hr|]. rewrite sent_segments by done.
  split; [apply blocks_sorted, seqZ_sorted|].
  split; [intros i; apply blocks_count; [apply NoDup_seqZ|done]|].
  intros e He sid m w0 Hinit. rewrite uploadMediaChunked_run. cbv zeta.
  fold S n. rewrite Hinit. fold cb r.
  destruct r as [[[]|e'] w2]; simpl in *; congruence.
Qed.

(** The network answers the handshake and three chunks, then fails chunk 3
    three times. *)
Definition stuckAtFourth : Env :=
  mkEnv true (Some (Some 1000000000, Some 0)) 0 []
    [Responded plainOk; Responded plainOk; Responded plainOk; Responded plainOk;
     NetworkError "Failed to fetch"; NetworkError "Failed to fetch";
     NetworkError "Failed to fetch"] true.

Definition timeouts (t : list Event) : list Z :=
  omap (λ ev, match ev with EvTimeout ms => Some ms | _ => None end) t.

Example fourth_chunk_fails_three_times :
  let w := (sync.syncQueue (with_env stuckAtFourth videoQueued)).2 in
  sent (trace w) = [0; 1; 2; 3; 3; 3] ∧
  timeouts (trace w) = [0; 2000; 4000] ∧
  (status <$> mediaQueue w !! 1%nat) = Some pending ∧
  (attempts <$> mediaQueue w !! 1%nat) = Some 1 ∧
  (error <$> mediaQueue w !! 1%nat)
  = Some (Some "Failed to upload chunk 4/5: Failed to fetch").
Proof. vm_compute. repeat split. Qed.

(** * A pass and its failures *)

(** A healthy store stays healthy, stored items stay stored, and only the
    items [ids] are written. *)
Definition steady (ids : list nat) (w w' : World) : Prop :=
  (storeFaults w = [] → storeFaults w' = []) ∧
  (∀ k, is_Some (mediaQueue w !! k) → is_Some (mediaQueue w' !! k)) ∧
  (∀ k, k ∉ ids → mediaQueue w' !! k = mediaQueue w !! k).

Global Instance steady_preorder ids : PreOrder (steady ids).
Proof.
  split.
  - intros w. by repeat split.
  - intros w1 w2 w3 (F1 & E1 & N1) (F2 & E2 & N2). repeat split; [auto|auto|].
    intros k Hk. rewrite N2, N1; done.
Qed.

Lemma steady_store ids w w' :
  mediaQueue w' = mediaQueue w → (storeFaults w = [] → storeFaults w' = []) →
  steady ids w w'.
Proof. intros Hq Hf. split; [done|]. by rewrite Hq. Qed.

Global Instance steady_ambient ids : Ambient (steady ids).
Proof.
  split; [apply _| | |].
  - intros w. rewrite request_world. apply steady_store; [done|]. simpl. by intros ->.
  - intros n w. by apply steady_store.
  - intros ev w. by apply steady_store.
Qed.

Lemma steady_updateQueueItem ids k us :
  k ∈ ids → respects (steady ids) (db.updateQueueItem k us).
Proof.
  intros Hk. apply respects_updateQueueItem; [apply _|]. intros w it Hit.
  split; [|split]; simpl.
  - done.
  - intros k'. rewrite lookup_insert. by case_decide.
  - intros k' Hk'. rewrite lookup_insert_ne; [done|]. by intros ->.
Qed.

Lemma steady_updateRecord ids k us : respects (steady ids) (db.updateRecord k us).
Proof. apply respects_updateRecord; [apply _|]. intros w r Hr. by apply steady_store. Qed.

Lemma steady_syncQueueItem ids q : id q ∈ ids → respects (steady ids) (sync.syncQueueItem q).
Proof.
  intros Hq. apply respects_syncQueueItem; [apply _| |apply steady_updateRecord].
  intros us _. by apply steady_updateQueueItem.
Qed.

Lemma steady_attemptItem ids q : id q ∈ ids → respects (steady ids) (sync.attemptItem q).
Proof.
  intros Hq. apply respects_attemptItem; [apply _| |apply steady_updateRecord].
  intros us _. by apply steady_updateQueueItem.
Qed.

Lemma steady_pass ids f items :
  (∀ q, q ∈ items → id q ∈ ids) →
  respects (steady ids) (Promise_allSettled (imap (λ i, sync.dispatch (f i)) items)).
Proof.
  intros H. apply respects_pass; [apply _| |].
  - intros q us Hq _. by apply steady_updateQueueItem, H.
  - intros q _. apply steady_updateRecord.
Qed.

Definition same_queue (w w' : World) : Prop := mediaQueue w' = mediaQueue w.

Global Instance same_queue_preorder : PreOrder same_queue.
Proof. split; [done|]. intros w1 w2 w3 H1 H2. unfold same_queue in *. congruence. Qed.

Global Instance same_queue_ambient : Ambient same_queue.
Proof.
  split; [apply _| | |]; try done.
  intros w. by rewrite request_world.
Qed.

Lemma same_queue_reconcile sid : respects same_queue (sync.checkAndUpdateRecordSyncStatus sid).
Proof.
  apply respects_checkAndUpdateRecordSyncStatus; [apply _|].
  apply respects_updateRecord; [apply _|]. by intros w r _.
Qed.

Lemma bind_Ok {A B} (m : M A) (k : A → M B) w b w' :
  bind m k w = (Ok b, w') → ∃ a w1, m w = (Ok a, w1) ∧ k a w1 = (Ok b, w').
Proof.
  rewrite bind_run. destruct (m w) as [[a|e] w1]; [|done]. intros H. by exists a, w1.
Qed.

Lemma updateQueueItem_Ok k us w a w' :
  db.updateQueueItem k us w = (Ok a, w') →
  ∃ it, mediaQueue w !! k = Some it ∧ mediaQueue w' !! k = Some (merge (keyed k it) us).
Proof.
  rewrite updateQueueItem_run.
  store_cases w; try done; destruct (mediaQueue w !! k) as [it|]; try done;
    intros [= _ <-]; exists it; simpl; by rewrite lookup_insert_eq.
Qed.

Lemma attemptItem_Ok q w r w' :
  sync.attemptItem q w = (Ok r, w') →
  r = sync.mkResult true (id q) None None ∧
  ∃ it, mediaQueue w' !! id q = Some it ∧ status it = synced.
Proof.
  unfold sync.attemptItem. cbv zeta. intros H.
  apply bind_Ok in H as (a1 & w1 & _ & H).
  apply bind_Ok in H as (a2 & w2 & _ & H).
  unfold Date_now in H. rewrite bind_gets in H.
  apply bind_Ok in H as (a3 & w3 & H3 & H).
  apply bind_Ok in H as (a4 & w4 & H4 & H).
  injection H as <- <-. split; [done|].
  apply updateQueueItem_Ok in H3 as (it & _ & Hit).
  pose proof (same_queue_reconcile (submissionId q) w3) as E.
  rewrite H4 in E. unfold same_queue in E. simpl in E. rewrite E.
  eexists. split; [exact Hit|]. done.
Qed.

Definition failureUpdates (q : QueueItem) (e : Error) (now : Z) : list ItemUpdate :=
  [upd_status (if bool_decide (attempts q + 1 < maxAttempts q) then pending else failed);
   upd_attempts (attempts q + 1); upd_error (Some (err_message e));
   upd_lastAttemptAt now; upd_uploadProgress 0].

Lemma recordFailure_healthy q e w it :
  storeFaults w = [] → mediaQueue w !! id q = Some it →
  sync.recordFailure q e w =
  (Ok (sync.mkResult false (id q) (Some e)
                     (Some (bool_decide (attempts q + 1 < maxAttempts q)))),
   set_mediaQueue <[id q := merge (keyed (id q) it) (failureUpdates q e (clock w))]> (drawn w)).
Proof.
  intros Hf Hit. unfold sync.recordFailure, Date_now. cbv zeta.
  rewrite bind_gets, bind_run, updateQueueItem_run, Hf, Hit. done.
Qed.

(** What a pass leaves of an item, given the result it returned for it. *)
Definition settled_state (q : QueueItem) (r : sync.SyncResult) (it : QueueItem) : Prop :=
  (sync.success r = true → status it = synced) ∧
  (sync.success r = false →
   status it = (if bool_decide (attempts q + 1 < maxAttempts q) then pending else failed) ∧
   attempts it = attempts q + 1 ∧
   ∃ e, sync.res_error r = Some e ∧ error it = Some (err_message e)).

Lemma syncQueueItem_healthy q w :
  storeFaults w = [] → is_Some (mediaQueue w !! id q) →
  ∃ r w', sync.syncQueueItem q w = (Ok r, w') ∧ sync.itemId r = id q ∧
          ∃ it, mediaQueue w' !! id q = Some it ∧ settled_state q r it.
Proof.
  intros Hf Hsome. unfold sync.syncQueueItem, try_catch.
  pose proof (steady_attemptItem [id q] q ltac:(by left) w) as (F & E & _).
  destruct (sync.attemptItem q w) as [[r|e] wb] eqn:Hb; simpl in *.
  - apply attemptItem_Ok in Hb as (-> & it & Hit & Hs).
    eexists _, wb. split; [done|]. split; [done|].
    exists it. split; [done|]. split; [done|]. intros H. discriminate H.
  - destruct (E _ Hsome) as [it Hit].
    rewrite (recordFailure_healthy q e wb it) by auto.
    eexists _, _. split; [done|]. split; [done|]. simpl. rewrite lookup_insert_eq.
    eexists. split; [done|]. split; [intros H; discriminate H|]. intros _.
    unfold merge, failureUpdates. simpl. repeat split. by exists e.
Qed.

Lemma dispatch_run i q w :
  sync.dispatch i q w =
  let w0 := emit (EvTimeout (Z.of_nat i * 100)) w in
  (Ok (match (sync.syncQueueItem q w0).1 with Ok v => inl v | Throw e => inr e end),
   (sync.syncQueueItem q w0).2).
Proof.
  unfold sync.dispatch, setTimeout. cbv zeta. rewrite bind_modify, bind_run.
  unfold settle. by destruct (sync.syncQueueItem q _) as [[v|e] w1].
Qed.

Lemma settleAll_cons {A} (t : M A) (ts : list (M A)) w :
  settleAll (t :: ts) w =
  ((t w).1 :: (settleAll ts (t w).2).1, (settleAll ts (t w).2).2).
Proof.
  cbn [settleAll]. destruct (t w) as [r w1]. cbn [fst snd].
  by destruct (settleAll ts w1) as [rs w2].
Qed.

Lemma pendingOf_NoDup w : NoDup (id <$> pendingOf w).
Proof.
  apply (sublist_NoDup _ (id <$> db.getAll (mediaQueue w))); [apply getAll_NoDup|].
  apply fmap_sublist. unfold pendingOf. apply sublist_filter.
Qed.

(** With a healthy store every item of the pass gets a result, and is left
    in the state its result says. *)
Lemma pass_healthy f items w :
  NoDup (id <$> items) → storeFaults w = [] →
  (∀ q, q ∈ items → is_Some (mediaQueue w !! id q)) →
  let pass := settleAll (imap (λ i, sync.dispatch (f i)) items) w in
  ∃ results : list sync.SyncResult,
    pass.1 = (λ r, Ok (inl r)) <$> results ∧
    ∀ i q, items !! i = Some q →
      ∃ r it, results !! i = Some r ∧ sync.itemId r = id q ∧
              mediaQueue pass.2 !! id q = Some it ∧ settled_state q r it.
Proof.
  revert f w. induction items as [|q items IH]; intros f w Hnd Hf Hex; cbv zeta.
  { exists []. split; [done|]. intros i q Hi. by rewrite lookup_nil in Hi. }
  rewrite imap_cons, settleAll_cons, dispatch_run. cbv zeta. cbn [fst snd].
  set (w0 := emit (EvTimeout (Z.of_nat (f 0%nat) * 100)) w).
  rewrite fmap_cons in Hnd. apply NoDup_cons in Hnd as [Hq Hnd].
  destruct (syncQueueItem_healthy q w0) as (r0 & w1 & Hrun & Hid & it & Hit & Hst);
    [done|apply Hex; by left|].
  pose proof (steady_syncQueueItem [id q] q ltac:(by left) w0) as (F1 & E1 & N1).
  rewrite Hrun in *. cbn [fst snd] in *.
  destruct (IH (f ∘ S) w1 Hnd (F1 Hf)) as (results & Hres & Hall).
  { intros q' Hq'. apply E1. apply Hex. by right. }
  cbv zeta in Hres, Hall.
  pose proof (steady_pass (id <$> items) (f ∘ S) items
                (λ q' Hq', list_elem_of_fmap_2 id _ _ Hq') w1) as (_ & _ & N2).
  rewrite allSettled_run in N2. cbn [snd] in N2.
  change ((λ i : nat, sync.dispatch (f i)) ∘ S) with (λ i, sync.dispatch ((f ∘ S) i)).
  exists (r0 :: results). split; [by rewrite Hres|].
  intros [|i] q' Hi; simpl in Hi.
  - injection Hi as <-. exists r0, it. split; [done|]. split; [done|].
    split; [|done]. by rewrite N2.
  - destruct (Hall i q' Hi) as (r & it' & ? & ? & ? & ?). by exists r, it'.
Qed.

Lemma succeeded_results (results : list sync.SyncResult) :
  syncedOf ((λ r, Ok (inl r)) <$> results)
  = Z.of_nat (length (filter (λ r, sync.success r = true) results)) ∧
  failedOf ((λ r, Ok (inl r)) <$> results)
  = Z.of_nat (length (filter (λ r, sync.success r = false) results)).
Proof.
  unfold failedOf, syncedOf. rewrite length_fmap.
  induction results as [|r results [IH1 IH2]]; [done|].
  rewrite fmap_cons, !filter_cons. cbn [sync.succeeded length].
  destruct (sync.success r) eqn:E; repeat case_decide; try done;
    cbn [length]; split; lia.
Qed.

Lemma counts_sum (results : list (Outcome (sync.SyncResult + Error))) :
  0 ≤ syncedOf results ∧ 0 ≤ failedOf results ∧
  syncedOf results + failedOf results = Z.of_nat (length results).
Proof.
  unfold failedOf, syncedOf.
  pose proof (length_filter (λ r, sync.succeeded r = true) results). lia.
Qed.

(** C7. An online pass that is not held back by the single-flight guard and
    whose read of the pending items succeeds returns counts, whatever the
    network does to the transfers: the counts are non-negative and add up to
    the number of pending items fetched.  With a healthy store every fetched
    item gets a result of its own; the synced count is the number of
    successful results and the failed count the number of failed ones; an item
    whose result is a failure is left with one attempt more, the error message,
    and status pending or failed, and an item whose result is a success is
    left synced. *)
Theorem syncQueue_contains_failures (w : World) :
  onLine w = true → syncStatus w ≠ SYNCING → nextFault w = None →
  ∃ counts w',
    sync.syncQueue w = (Ok counts, w') ∧
    0 ≤ sync.synced_count counts ∧ 0 ≤ sync.failed_count counts ∧
    sync.synced_count counts + sync.failed_count counts = Z.of_nat (length (pendingOf w)) ∧
    (storeFaults w = [] →
     ∃ results : list sync.SyncResult,
       length results = length (pendingOf w) ∧
       sync.synced_count counts
       = Z.of_nat (length (filter (λ r, sync.success r = true) results)) ∧
       sync.failed_count counts
       = Z.of_nat (length (filter (λ r, sync.success r = false) results)) ∧
       ∀ i q, pendingOf w !! i = Some q →
         ∃ r it, results !! i = Some r ∧ sync.itemId r = id q ∧
                 mediaQueue w' !! id q = Some it ∧ settled_state q r it).
Proof.
  intros Hon Hst Hnf. rewrite syncQueue_run by done. cbv zeta.
  destruct (told_store SYNCING w) as (_ & Hq & _ & Hsf).
  assert (pendingOf (told SYNCING w) = pendingOf w) as Hp
    by (unfold pendingOf; by rewrite Hq).
  rewrite Hp, Hsf. unfold nextFault in Hnf.
  assert (∀ s w2, mediaQueue (told s w2) = mediaQueue w2) as Htold
    by (intros s w2; by destruct (told_store s w2) as (_ & ? & _)).
  destruct (decide (length (pendingOf w) = 0%nat)) as [Hz|Hnz].
  - exists (sync.mkCounts 0 0), (told SUCCESS (drawn (told SYNCING w))).
    split; [by destruct (storeFaults w) as [|[e|] rest]|].
    simpl. rewrite Hz. repeat split; try done.
    intros _. exists []. repeat split; try done.
    intros i q Hi. apply length_zero_iff_nil in Hz. rewrite Hz in Hi.
    by rewrite lookup_nil in Hi.
  - set (w1 := drawn (told SYNCING w)).
    pose proof (settleAll_length (imap sync.dispatch (pendingOf w)) w1) as Hlen.
    rewrite length_imap in Hlen.
    destruct (settleAll (imap sync.dispatch (pendingOf w)) w1) as [raw w2] eqn:Hpass.
    cbn [fst] in Hlen.
    exists (sync.mkCounts (syncedOf raw) (failedOf raw)), (told (verdict raw) w2).
    split; [by destruct (storeFaults w) as [|[e|] rest]|].
    destruct (counts_sum raw) as (H0 & H1 & Hsum). cbn [sync.synced_count sync.failed_count].
    split; [done|]. split; [done|]. split; [lia|].
    intros Hf.
    destruct (pass_healthy (λ i, i) (pendingOf w) w1 (pendingOf_NoDup w)) as (results & Hres & Hall).
    { subst w1. simpl. rewrite Hsf, Hf. done. }
    { intros q Hq'. apply elem_of_pendingOf in Hq' as (k & it & Hit & _ & ->).
      subst w1. simpl. rewrite Hq, Hit. by eexists. }
    cbv zeta in Hres, Hall.
    change (imap _ (pendingOf w)) with (imap sync.dispatch (pendingOf w)) in Hres, Hall.
    rewrite Hpass in Hres, Hall. cbn [fst snd] in Hres, Hall.
    subst raw. destruct (succeeded_results results) as [-> ->].
    rewrite length_fmap in Hlen.
    exists results. split; [done|]. split; [done|]. split; [done|].
    intros i q Hi. rewrite Htold. by apply Hall.
Qed.

Definition clip : File := mkFile "clip.mov" "video/quicktime" (mkBuffer (3 * MiB) 3).

(** Two files queued offline; then the device is online, the first upload
    is refused by the network and the second succeeds. *)
Definition mixed : World :=
  with_env (mkEnv true (Some (Some 1000000000, Some 0)) 9 []
                  [NetworkError "Failed to fetch"; Responded plainOk] true)
    (run initial [(offline, OpEnqueue (sync.mkSubmission "trip" None [photo; clip]))]).

Lemma syncQueue_contains_failures_witness :
  ∃ counts w',
    sync.syncQueue mixed = (Ok counts, w') ∧
    sync.synced_count counts + sync.failed_count counts = 2.
Proof.
  destruct (syncQueue_contains_failures mixed) as (counts & w' & Hrun & _ & _ & Hsum & _).
  - vm_compute. reflexivity.
  - vm_compute. intros H. discriminate H.
  - vm_compute. reflexivity.
  - exists counts, w'. split; [exact Hrun|].
    etrans; [exact Hsum|]. vm_compute. reflexivity.
Defined.

Example one_failure_one_success :
  (sync.syncQueue mixed).1 = Ok (sync.mkCounts 1 1) ∧
  (status <$> mediaQueue (sync.syncQueue mixed).2 !! 1%nat) = Some pending ∧
  (attempts <$> mediaQueue (sync.syncQueue mixed).2 !! 1%nat) = Some 1 ∧
  (error <$> mediaQueue (sync.syncQueue mixed).2 !! 1%nat) = Some (Some "Failed to fetch") ∧
  (status <$> mediaQueue (sync.syncQueue mixed).2 !! 2%nat) = Some synced ∧
  syncStatus (sync.syncQueue mixed).2 = ERROR.
Proof. vm_compute. repeat split. Qed.

(** * The store helper on its own *)

Global Instance key_le_total {A} : Total (@db.key_le A).
Proof. intros a b. unfold db.key_le. lia. Qed.

Global Instance key_le_trans {A} : Transitive (@db.key_le A).
Proof. intros a b c. unfold db.key_le. lia. Qed.

Lemma keyed_id k it : id it = k → keyed k it = it.
Proof. intros <-. by destruct it. Qed.

Lemma drawn_healthy w : storeFaults w = [] → drawn w = w.
Proof. unfold drawn. destruct w; simpl. by intros ->. Qed.

Lemma nextFault_None w :
  nextFault w = None → ∀ e rest, storeFaults w ≠ Some e :: rest.
Proof. unfold nextFault. intros H e rest E. by rewrite E in H. Qed.

(** The keys of a sorted store listing increase strictly. *)
Lemma sorted_keys_increase {A} (l : list (nat * A)) :
  StronglySorted db.key_le l → NoDup l.*1 → StronglySorted lt l.*1.
Proof.
  induction 1 as [|x l Hl IH Hx]; intros Hnd; csimpl; [constructor|].
  apply NoDup_cons in Hnd as [Hin Hnd]. constructor; [by apply IH|].
  apply Forall_fmap, Forall_forall. intros y Hy.
  rewrite Forall_forall in Hx. specialize (Hx y Hy). unfold db.key_le in Hx. simpl.
  assert (x.1 ≠ y.1); [|lia].
  intros E. apply Hin. rewrite E. by apply list_elem_of_fmap_2.
Qed.

Lemma getAll_sorted (q : gmap nat QueueItem) : StronglySorted lt (id <$> db.getAll q).
Proof.
  rewrite getAll_ids. apply sorted_keys_increase.
  - apply StronglySorted_merge_sort; apply _.
  - rewrite merge_sort_Permutation. apply NoDup_fst_map_to_list.
Qed.

Lemma getAll_length (q : gmap nat QueueItem) : length (db.getAll q) = base.size q.
Proof.
  unfold db.getAll. rewrite length_fmap, merge_sort_Permutation.
  by rewrite length_map_to_list.
Qed.

(** A key above every stored key lists last. *)
Lemma getAll_insert_last (q : gmap nat QueueItem) (k : nat) (it : QueueItem) :
  (∀ k' c, q !! k' = Some c → (k' < k)%nat) →
  db.getAll (<[k := it]> q) = db.getAll q ++ [keyed k it].
Proof.
  intros Hk. unfold db.getAll.
  assert (q !! k = None) as Hnone.
  { destruct (q !! k) as [c|] eqn:E; [|done]. apply Hk in E. lia. }
  assert (merge_sort db.key_le (map_to_list (<[k := it]> q))
          = merge_sort db.key_le (map_to_list q) ++ [(k, it)]) as ->;
    [|by rewrite fmap_app].
  apply (StronglySorted_unique_strong db.key_le).
  - intros x1 x2 H1 H2 L1 L2. rewrite merge_sort_Permutation in H1.
    assert (x2 ∈ map_to_list (<[k := it]> q)) as H2'.
    { rewrite map_to_list_insert by done. rewrite elem_of_app in H2.
      destruct H2 as [H2|H2]; [right; by rewrite merge_sort_Permutation in H2|].
      apply list_elem_of_singleton in H2 as ->. by left. }
    destruct x1 as [k1 c1], x2 as [k2 c2]. unfold db.key_le in *. simpl in *.
    assert (k1 = k2) as -> by lia.
    apply elem_of_map_to_list in H1, H2'. congruence.
  - apply StronglySorted_merge_sort; apply _.
  - apply StronglySorted_app_2.
    + intros x y Hx Hy. apply list_elem_of_singleton in Hy as ->.
      rewrite merge_sort_Permutation in Hx. destruct x as [k' c].
      apply elem_of_map_to_list in Hx. apply Hk in Hx. unfold db.key_le. simpl. lia.
    + apply StronglySorted_merge_sort; apply _.
    + repeat constructor.
  - rewrite !merge_sort_Permutation. rewrite map_to_list_insert by done.
    by rewrite Permutation_cons_append.
Qed.

(** X1. An update of a key that is not stored is rejected with "Queue item
    not found" (or "Record not found") and writes nothing; this holds for
    every [updates] object. *)
Theorem update_of_missing_key (k : nat) (w : World) :
  nextFault w = None →
  (mediaQueue w !! k = None →
   ∀ us, db.updateQueueItem k us w = (Throw (newError "Queue item not found"), drawn w)) ∧
  (records w !! k = None →
   ∀ us, db.updateRecord k us w = (Throw (newError "Record not found"), drawn w)) ∧
  mediaQueue (drawn w) = mediaQueue w ∧ records (drawn w) = records w.
Proof.
  intros Hf. unfold nextFault in Hf. split; [|split; [|done]].
  - intros Hk us. rewrite updateQueueItem_run, Hk. by destruct (storeFaults w) as [|[e|] rest].
  - intros Hk us. rewrite updateRecord_run, Hk. by destruct (storeFaults w) as [|[e|] rest].
Qed.

Lemma update_of_missing_key_witness :
  db.updateQueueItem 7 [upd_status pending] (with_env calm videoQueued)
  = (Throw (newError "Queue item not found"), drawn (with_env calm videoQueued)).
Proof.
  destruct (update_of_missing_key 7 (with_env calm videoQueued)) as (H & _).
  - reflexivity.
  - apply H. vm_compute. reflexivity.
Defined.

(** X2. An update of a stored item answers with its key; the item read back
    is the stored one with the updates laid over it, under the same key and
    with the parent, the payload, its size, the attempt ceiling and the
    chunking flag it had; no other item, no record and no key counter
    changes. *)
Theorem updateQueueItem_round_trip (k : nat) (us : list ItemUpdate) (it : QueueItem) (w : World) :
  nextFault w = None → mediaQueue w !! k = Some it →
  let r := db.updateQueueItem k us w in
  let it' := merge (keyed k it) us in
  r.1 = Ok k ∧
  mediaQueue r.2 !! k = Some it' ∧
  it' ∈ db.getAll (mediaQueue r.2) ∧
  id it' = k ∧ submissionId it' = submissionId it ∧ fileSize it' = fileSize it ∧
  fileData it' = fileData it ∧ maxAttempts it' = maxAttempts it ∧
  useChunked it' = useChunked it ∧
  (∀ k', k' ≠ k → mediaQueue r.2 !! k' = mediaQueue w !! k') ∧
  records r.2 = records w ∧ queueKey r.2 = queueKey w ∧
  length (db.getAll (mediaQueue r.2)) = length (db.getAll (mediaQueue w)).
Proof.
  intros Hf Hit. cbv zeta. rewrite updateQueueItem_run, Hit. unfold nextFault in Hf.
  destruct (merge_static (keyed k it) us) as (Mid & Ms & Mfs & Mfd & Mmax & Muc).
  assert (∀ w0, mediaQueue w0 = mediaQueue w →
    mediaQueue (set_mediaQueue <[k := merge (keyed k it) us]> w0) !! k
      = Some (merge (keyed k it) us) ∧
    merge (keyed k it) us
      ∈ db.getAll (mediaQueue (set_mediaQueue <[k := merge (keyed k it) us]> w0)) ∧
    (∀ k', k' ≠ k →
       mediaQueue (set_mediaQueue <[k := merge (keyed k it) us]> w0) !! k'
       = mediaQueue w !! k') ∧
    length (db.getAll (mediaQueue (set_mediaQueue <[k := merge (keyed k it) us]> w0)))
    = length (db.getAll (mediaQueue w))) as Hw.
  { intros w0 E. simpl. rewrite E, lookup_insert_eq. split; [done|]. split; [|split].
    - apply elem_of_getAll. exists k, (merge (keyed k it) us).
      rewrite lookup_insert_eq. split; [done|]. symmetry. by apply keyed_id.
    - intros k' Hne. by rewrite lookup_insert_ne.
    - rewrite !getAll_length. apply map_size_insert_Some. by exists it. }
  destruct (Hw (drawn w) eq_refl) as (H1 & H2 & H3 & H4).
  destruct (storeFaults w) as [|[e|] rest]; try done; simpl in *; repeat split; done.
Qed.

Lemma updateQueueItem_round_trip_witness :
  (status <$> mediaQueue (db.updateQueueItem 1 [upd_status failed; upd_attempts 5]
                            (with_env calm videoQueued)).2 !! 1%nat) = Some failed.
Proof.
  destruct (updateQueueItem_round_trip 1 [upd_status failed; upd_attempts 5] videoItem
              (with_env calm videoQueued)) as (_ & H & _).
  - reflexivity.
  - vm_compute. reflexivity.
  - rewrite H. reflexivity.
Defined.

(** X3. A record that was created is read back under the key [createRecord]
    answered with: title, description and media descriptors as given, the
    creation time of the clock, and [synced = false] whatever the object
    handed in says; the next record gets the next key, and nothing else in
    the stores changes. *)
Theorem createRecord_then_getRecord (r : NewRecord) (w : World) :
  nextFault w = None → nextFault (drawn w) = None →
  let c := db.createRecord r w in
  let k := recordKey w in
  c.1 = Ok k ∧
  (db.getRecord k c.2).1
  = Ok (Some (mkRecord k (nr_title r) (nr_description r) (nr_mediaFiles r) (clock w) false)) ∧
  recordKey c.2 = S k ∧
  (∀ k', k' ≠ k → records c.2 !! k' = records w !! k') ∧
  mediaQueue c.2 = mediaQueue w.
Proof.
  intros Hf Hf2. cbv zeta. rewrite createRecord_run. unfold nextFault in Hf.
  assert (storeFaults (set_recordKey (S (recordKey w))
            (set_records <[recordKey w := storedRecord w r]> (drawn w)))
          = storeFaults (drawn w)) as Esf by done.
  assert (∀ X, (X = (Ok (recordKey w),
            set_recordKey (S (recordKey w))
              (set_records <[recordKey w := storedRecord w r]> (drawn w)))) →
          X.1 = Ok (recordKey w) ∧
          (db.getRecord (recordKey w) X.2).1
          = Ok (Some (mkRecord (recordKey w) (nr_title r) (nr_description r)
                               (nr_mediaFiles r) (clock w) false)) ∧
          recordKey X.2 = S (recordKey w) ∧
          (∀ k', k' ≠ recordKey w → records X.2 !! k' = records w !! k') ∧
          mediaQueue X.2 = mediaQueue w) as HX.
  { intros X ->. cbn [fst snd]. split; [done|]. split; [|split; [done|split; [|done]]].
    - unfold db.getRecord. rewrite bind_request, Esf.
      unfold nextFault in Hf2. destruct (storeFaults (drawn w)) as [|[e|] rest]; try done;
        rewrite bind_gets; simpl; by rewrite lookup_insert_eq.
    - intros k' Hne. simpl. by rewrite lookup_insert_ne. }
  destruct (storeFaults w) as [|[e|] rest]; try done; by apply HX.
Qed.

Lemma createRecord_then_getRecord_witness :
  (db.getRecord 1 (db.createRecord (mkNewRecord "trip" None [] true) initial).2).1
  = Ok (Some (mkRecord 1 "trip" None [] 0 false)).
Proof.
  destruct (createRecord_then_getRecord (mkNewRecord "trip" None [] true) initial)
    as (_ & H & _).
  - reflexivity.
  - reflexivity.
  - exact H.
Defined.

(** X4. Deleting a queue item removes that item and nothing else: the other
    items, the records and the key counter stay, so the key is not handed out
    again; the listing loses exactly the deleted item; a later update of the
    key is rejected with "Queue item not found"; and deleting a key that is
    not stored succeeds and changes nothing. *)
Theorem deleteQueueItem_removes_one (k : nat) (w : World) :
  nextFault w = None →
  let d := db.deleteQueueItem k w in
  d.1 = Ok tt ∧
  mediaQueue d.2 !! k = None ∧
  (∀ k', k' ≠ k → mediaQueue d.2 !! k' = mediaQueue w !! k') ∧
  queueKey d.2 = queueKey w ∧ records d.2 = records w ∧
  (∀ x, x ∈ db.getAll (mediaQueue d.2) ↔ x ∈ db.getAll (mediaQueue w) ∧ id x ≠ k) ∧
  (nextFault d.2 = None →
   ∀ us, (db.updateQueueItem k us d.2).1 = Throw (newError "Queue item not found")) ∧
  (mediaQueue w !! k = None → mediaQueue d.2 = mediaQueue w).
Proof.
  intros Hf. cbv zeta. unfold nextFault in Hf.
  assert (db.deleteQueueItem k w = (Ok tt, set_mediaQueue (delete k) (drawn w))) as ->.
  { unfold db.deleteQueueItem. rewrite bind_request.
    by destruct (storeFaults w) as [|[e|] rest]. }
  cbn [fst snd].
  assert (mediaQueue (set_mediaQueue (delete k) (drawn w)) = delete k (mediaQueue w)) as Eq
    by done.
  rewrite Eq. split; [done|]. split; [apply lookup_delete_eq|].
  split; [intros k' Hne; by apply lookup_delete_ne|]. split; [done|]. split; [done|].
  split; [|split].
  - intros x. rewrite !elem_of_getAll. split.
    + intros (k' & it & Hit & ->). apply lookup_delete_Some in Hit as [Hne Hit].
      split; [by exists k', it|]. simpl. congruence.
    + intros [(k' & it & Hit & ->) Hne]. simpl in Hne. exists k', it. split; [|done].
      apply lookup_delete_Some. split; [congruence|done].
  - intros Hf2 us. rewrite updateQueueItem_run, Eq, lookup_delete_eq.
    unfold nextFault in Hf2.
    by destruct (storeFaults (set_mediaQueue (delete k) (drawn w))) as [|[e|] rest].
  - intros Hnone. by apply delete_id.
Qed.

Lemma deleteQueueItem_removes_one_witness :
  db.getAll (mediaQueue (db.deleteQueueItem 1 (with_env calm videoQueued)).2) = [].
Proof.
  destruct (deleteQueueItem_removes_one 1 (with_env calm videoQueued))
    as (_ & _ & _ & _ & _ & H & _).
  - reflexivity.
  - destruct (db.getAll _) as [|x l] eqn:E; [reflexivity|].
    assert (x ∈ x :: l) as Hx by left. apply H in Hx as [Hx Hne].
    exfalso. apply Hne. revert Hx. vm_compute.
    intros Hx. apply list_elem_of_singleton in Hx. by subst.
Defined.

(** X5. [getAllQueueItems] answers with every stored item exactly once,
    each carrying its key as [id], in strictly increasing order of the keys;
    it writes nothing. *)
Theorem getAllQueueItems_in_key_order (w : World) :
  nextFault w = None →
  ∃ items,
    db.getAllQueueItems w = (Ok items, drawn w) ∧
    StronglySorted lt (id <$> items) ∧ NoDup (id <$> items) ∧
    (∀ x, x ∈ items ↔ ∃ k it, mediaQueue w !! k = Some it ∧ x = keyed k it) ∧
    length items = base.size (mediaQueue w) ∧
    mediaQueue (drawn w) = mediaQueue w ∧ records (drawn w) = records w.
Proof.
  intros Hf. exists (db.getAll (mediaQueue w)). split; [|split; [|split; [|split; [|split]]]].
  - unfold db.getAllQueueItems. rewrite bind_request. unfold nextFault in Hf.
    by destruct (storeFaults w) as [|[e|] rest].
  - apply getAll_sorted.
  - apply getAll_NoDup.
  - apply elem_of_getAll.
  - apply getAll_length.
  - done.
Qed.

Lemma getAllQueueItems_in_key_order_witness :
  ∃ items, db.getAllQueueItems (with_env calm videoQueued)
           = (Ok items, drawn (with_env calm videoQueued)) ∧ length items = 1%nat.
Proof.
  destruct (getAllQueueItems_in_key_order (with_env calm videoQueued))
    as (items & H & _ & _ & _ & Hl & _).
  - reflexivity.
  - exists items. split; [exact H|]. rewrite Hl. vm_compute. reflexivity.
Defined.

(** One photo on a device that is online, in a store that follows the
    standard. *)
Definition standard : Env := mkEnv true (Some (Some 1000000000, Some 0)) 0 [] [] false.

(** X6. In a store that follows the standard, [enqueueMedia] stores nothing:
    the queue, its key counter and the records are as they were and nothing
    is sent.  Its promise is rejected when the transaction cannot be opened;
    otherwise it stays pending, and it is never fulfilled with a key. *)
Theorem enqueueMedia_stores_nothing (r : MediaRequest) (w : World) :
  keepsTransaction w = false →
  let e := db.enqueueMedia r w in
  mediaQueue e.2 = mediaQueue w ∧ queueKey e.2 = queueKey w ∧
  records e.2 = records w ∧ trace e.2 = trace w ∧
  db.getAll (mediaQueue e.2) = db.getAll (mediaQueue w) ∧
  (∀ k, e.1 ≠ Ok (Fulfilled k)) ∧
  (nextFault w = None → e.1 = Ok Pending) ∧
  (∀ err, nextFault w = Some err → e.1 = Throw err).
Proof.
  intros Hstd. cbv zeta. rewrite enqueueMedia_run, Hstd. unfold nextFault.
  destruct (storeFaults w) as [|[e|] rest]; cbn [fst snd]; repeat split; try done.
  - by intros err [= ->].
Qed.

Lemma enqueueMedia_stores_nothing_witness :
  db.enqueueMedia (requestFor twoFiles 1 photo) (with_env standard initial)
  = (Ok Pending, with_env standard initial).
Proof.
  destruct (enqueueMedia_stores_nothing (requestFor twoFiles 1 photo)
              (with_env standard initial)) as (_ & _ & _ & _ & _ & _ & H & _).
  - reflexivity.
  - apply injective_projections; [apply H; reflexivity | vm_compute; reflexivity].
Defined.

(** * The transfer client on its own *)

(** What [handleResponse] answers for a response; it leaves the world alone. *)
Definition parsed (response : Response) : Outcome Json :=
  if ok response then
    match json response with
    | Some j => Ok j
    | None => Throw (mkError "SyntaxError" "Unexpected end of JSON input")
    end
  else
    match json response with
    | Some JNull => Throw (mkError "TypeError" "Cannot read properties of null")
    | Some (JObj m _ _) =>
        Throw (newError (str_or m ("HTTP error! status: " +:+ pretty (http_status response))))
    | None =>
        Throw (newError (str_or (Some (statusText response))
                                ("HTTP error! status: " +:+ pretty (http_status response))))
    end.

Lemma handleResponse_run response w : api.handleResponse response w = (parsed response, w).
Proof.
  unfold api.handleResponse, parsed.
  destruct (ok response); simpl; destruct (json response) as [[|m u c]|]; done.
Qed.

(** What a request is answered with. *)
Definition answerOf (out : NetOutcome) : Outcome Json :=
  match out with
  | NetworkError msg => Throw (mkError "TypeError" msg)
  | Responded response => parsed response
  end.

Lemma post_run endpoint data w :
  api.post endpoint data w
  = (answerOf (nextOutcome w),
     emit (EvFetch (mkRequest (api.API_BASE_URL +:+ endpoint) data) (nextOutcome w))
          (answered w)).
Proof.
  unfold api.post. rewrite bind_run, fetch_run.
  destruct (nextOutcome w) as [msg|r]; simpl; [done|]. by rewrite handleResponse_run.
Qed.

Lemma uploadMedia_run sid file w :
  api.uploadMedia sid file w
  = (answerOf (nextOutcome w),
     emit (EvFetch (mkRequest (api.API_BASE_URL +:+ "/media-uploads") (MediaBody file sid))
                   (nextOutcome w))
          (answered w)).
Proof.
  unfold api.uploadMedia, api.postFormData. rewrite bind_run, fetch_run.
  destruct (nextOutcome w) as [msg|r]; simpl; [done|]. by rewrite handleResponse_run.
Qed.

Lemma answered_more w :
  recordKey (answered w) = recordKey w ∧ queueKey (answered w) = queueKey w ∧
  syncStatus (answered w) = syncStatus w ∧ syncListeners (answered w) = syncListeners w ∧
  clock (answered w) = clock w ∧ onLine (answered w) = onLine w ∧
  network (answered w) = tail (network w).
Proof. unfold answered. destruct (network w) eqn:E; simpl; repeat split; done. Qed.

(** X7. A whole-file upload is one request: a POST to [/media-uploads] that
    carries the file and the submission id.  It answers with the body when
    the response is ok and its body parses, and only then; a rejected [fetch]
    is thrown as it is; a response that is not ok is thrown with the message
    of its body, with its status text when the body does not parse, and with
    "HTTP error! status: N" when the body has no message.  The stores are
    not touched. *)
Theorem uploadMedia_is_one_request (sid : nat) (file : File) (w : World) :
  let req := mkRequest "http://localhost:3000/api/media-uploads" (MediaBody file sid) in
  let r := api.uploadMedia sid file w in
  trace r.2 = trace w ++ [EvFetch req (nextOutcome w)] ∧
  network r.2 = tail (network w) ∧
  mediaQueue r.2 = mediaQueue w ∧ records r.2 = records w ∧
  storeFaults r.2 = storeFaults w ∧
  (∀ j, r.1 = Ok j ↔
        ∃ resp, nextOutcome w = Responded resp ∧ ok resp = true ∧ json resp = Some j) ∧
  (∀ msg, nextOutcome w = NetworkError msg → r.1 = Throw (mkError "TypeError" msg)) ∧
  (∀ resp, nextOutcome w = Responded resp → ok resp = false →
     ∃ e, r.1 = Throw e ∧
       (∀ m u c, json resp = Some (JObj (Some m) u c) → m ≠ "" → e = newError m) ∧
       (json resp = None → statusText resp ≠ "" → e = newError (statusText resp)) ∧
       (∀ u c, json resp = Some (JObj None u c) →
          e = newError ("HTTP error! status: " +:+ pretty (http_status resp)))).
Proof.
  cbv zeta. rewrite uploadMedia_run. cbn [fst snd].
  destruct (answered_fields w) as (Aq & Af & At & Ar).
  destruct (answered_more w) as (_ & _ & _ & _ & _ & _ & An).
  split; [simpl; by rewrite At|]. split; [done|]. split; [done|]. split; [done|].
  split; [done|]. split; [|split].
  - intros j. destruct (nextOutcome w) as [msg|resp]; simpl.
    + split; [done|]. by intros (resp & H & _).
    + unfold parsed. split.
      * intros H. exists resp. destruct (ok resp); destruct (json resp) as [[|m u c]|];
          try done; by injection H as ->.
      * intros (resp' & [= <-] & Hok & Hj). by rewrite Hok, Hj.
  - by intros msg ->.
  - intros resp -> Hok. simpl. unfold parsed. rewrite Hok.
    destruct (json resp) as [[|m u c]|] eqn:Hj.
    + eexists. split; [done|]. repeat split; intros; congruence.
    + eexists. split; [done|]. split; [|split].
      * intros m' u' c' [= -> -> ->] Hne. simpl.
        destruct (String.eqb m' "") eqn:E; [|done]. by apply String.eqb_eq in E.
      * done.
      * by intros u' c' [= -> -> ->].
    + eexists. split; [done|]. split; [|split]; try done.
      intros _ Hne. simpl. destruct (String.eqb (statusText resp) "") eqn:E; [|done].
      by apply String.eqb_eq in E.
Qed.

(** X8. The chunks tile the file: the first starts at byte 0, each but the
    last is 5 MiB long and ends where the next starts, the last ends at the
    end of the file, none is empty, and every byte of the file lies in
    exactly one chunk. *)
Theorem chunks_tile_the_file (S : Z) :
  0 < S →
  let n := api.totalChunksOf S in
  1 ≤ n ∧
  api.chunkStart 0 = 0 ∧
  api.chunkEnd S (n - 1) = S ∧
  (∀ i, 0 ≤ i < n - 1 →
     api.chunkEnd S i = api.chunkStart (i + 1) ∧
     api.chunkEnd S i - api.chunkStart i = api.CHUNK_SIZE) ∧
  (∀ i, 0 ≤ i < n → 0 < api.chunkEnd S i - api.chunkStart i ≤ api.CHUNK_SIZE) ∧
  (∀ b, 0 ≤ b < S →
     ∃ i, (0 ≤ i < n ∧ api.chunkStart i ≤ b < api.chunkEnd S i) ∧
          ∀ j, 0 ≤ j < n → api.chunkStart j ≤ b < api.chunkEnd S j → j = i).
Proof.
  intros HS n. pose proof (totalChunksOf_ceil S) as Hceil. fold n in Hceil.
  unfold api.chunkEnd, api.chunkStart, api.CHUNK_SIZE in *.
  split; [lia|]. split; [done|]. split; [lia|]. split; [intros i Hi; lia|].
  split; [intros i Hi; lia|].
  intros b Hb. exists (b / (5 * 1024 * 1024)).
  pose proof (Z.div_mod b (5 * 1024 * 1024) ltac:(lia)) as E.
  pose proof (Z.mod_pos_bound b (5 * 1024 * 1024) ltac:(lia)) as B.
  split; [split; [split; [lia|]|lia]|].
  - nia.
  - intros j Hj Hjb. nia.
Qed.

Lemma chunks_tile_the_file_witness :
  api.chunkEnd (22 * MiB) (api.totalChunksOf (22 * MiB) - 1) = 22 * MiB.
Proof.
  destruct (chunks_tile_the_file (22 * MiB)) as (_ & _ & H & _).
  - reflexivity.
  - exact H.
Defined.

(** X9. A file goes the chunked way exactly when it is larger than 10 MiB:
    it then has at least three chunks, and a file sent whole would have at
    most two. *)
Theorem chunked_files_span_three_chunks (file : File) :
  (api.shouldUseChunkedUpload file = true ↔ 10 * 1024 * 1024 < size file) ∧
  (api.shouldUseChunkedUpload file = true → 3 ≤ api.totalChunksOf (size file)) ∧
  (api.shouldUseChunkedUpload file = false → api.totalChunksOf (size file) ≤ 2).
Proof.
  pose proof (totalChunksOf_ceil (size file)) as Hceil.
  unfold api.shouldUseChunkedUpload, api.LARGE_FILE_THRESHOLD, api.CHUNK_SIZE in *.
  split; [|split].
  - rewrite bool_decide_eq_true. lia.
  - rewrite bool_decide_eq_true. lia.
  - rewrite bool_decide_eq_false. lia.
Qed.

(** The requests of a trace, in the order they were sent. *)
Definition requests (t : list Event) : list Request :=
  omap (λ ev, match ev with EvFetch req _ => Some req | _ => None end) t.

Lemma requests_cons ev t :
  requests (ev :: t)
  = match ev with EvFetch req _ => req :: requests t | _ => requests t end.
Proof. by destruct ev. Qed.

Lemma timeouts_cons ev t :
  timeouts (ev :: t)
  = match ev with EvTimeout ms => ms :: timeouts t | _ => timeouts t end.
Proof. by destruct ev. Qed.

Lemma requests_app t1 t2 : requests (t1 ++ t2) = requests t1 ++ requests t2.
Proof. apply omap_app. Qed.

Lemma requests_progress p : Forall isProgress p → requests p = [].
Proof.
  induction 1 as [|ev p Hev _ IH]; [done|].
  by destruct ev.
Qed.

Lemma timeouts_app t1 t2 : timeouts (t1 ++ t2) = timeouts t1 ++ timeouts t2.
Proof. apply omap_app. Qed.

Lemma timeouts_progress p : Forall isProgress p → timeouts p = [].
Proof.
  induction 1 as [|ev p Hev _ IH]; [done|].
  by destruct ev.
Qed.

Lemma progress_network k b t w :
  network (sync.createProgressCallback k b t w).2 = network w.
Proof.
  unfold sync.createProgressCallback. cbv zeta. rewrite bind_run, updateQueueItem_run.
  store_cases w; try destruct (mediaQueue w !! k); done.
Qed.

Lemma answered_quiet w : network w = [] → answered w = w ∧ nextOutcome w = Responded plainOk.
Proof. unfold answered, nextOutcome. by intros ->. Qed.

(** One chunk on a network that answers: one request, no wait. *)
Lemma chunk_healthy file fs tc uid url k i w :
  network w = [] →
  let r := api.chunkRetryLoop 3
             (api.chunkAttempt file fs tc uid url (Some (sync.createProgressCallback k)) i)
             i tc w in
  r.1 = Ok tt ∧ network r.2 = [] ∧
  ∃ p, trace r.2 = trace w ++ EvFetch (chunkReq file fs tc uid url i) (Responded plainOk) :: p ∧
       Forall isProgress p.
Proof.
  intros Hn. cbv zeta. rewrite chunkRetryLoop_S, chunkAttempt_run. cbv zeta.
  destruct (answered_quiet w Hn) as [-> ->]. cbn [isFailure plainOk ok negb].
  set (w1 := emit _ w).
  destruct (progress_quiet k (api.chunkEnd fs i) fs w1) as (p & Hp & HF).
  pose proof (progress_network k (api.chunkEnd fs i) fs w1) as Hnet.
  destruct (sync.createProgressCallback k (api.chunkEnd fs i) fs w1) as [o w2].
  cbn [fst snd] in *. split; [done|]. split; [by rewrite Hnet|].
  exists p. split; [|done]. rewrite Hp. subst w1. simpl. by rewrite <- app_assoc.
Qed.

Lemma chunks_healthy file fs tc uid url k l w :
  network w = [] →
  let r := forEach l (λ i,
             api.chunkRetryLoop 3
               (api.chunkAttempt file fs tc uid url (Some (sync.createProgressCallback k)) i)
               i tc) w in
  r.1 = Ok tt ∧ network r.2 = [] ∧
  ∃ d, trace r.2 = trace w ++ d ∧
       requests d = chunkReq file fs tc uid url <$> l ∧ timeouts d = [].
Proof.
  revert w. induction l as [|i l IH]; intros w Hn; cbv zeta.
  { split; [done|]. split; [done|]. exists []. by rewrite app_nil_r. }
  rewrite forEach_cons.
  destruct (chunk_healthy file fs tc uid url k i w Hn) as (Hr & Hn1 & p & Ht & HF).
  cbv zeta in Hr, Hn1, Ht.
  destruct (api.chunkRetryLoop 3 _ i tc w) as [[[]|e] w1]; cbn [fst snd] in *; [|done].
  destruct (IH w1 Hn1) as (Hr' & Hn2 & d & Ht' & Hreq & Htim). cbv zeta in Hr', Hn2, Ht'.
  split; [done|]. split; [done|].
  exists ((EvFetch (chunkReq file fs tc uid url i) (Responded plainOk) :: p) ++ d).
  split; [by rewrite Ht', Ht, <- app_assoc|]. split.
  - rewrite requests_app, requests_cons, requests_progress by done. by rewrite Hreq.
  - rewrite timeouts_app, timeouts_cons, timeouts_progress by done. by rewrite Htim.
Qed.

(** X10. On a network that answers every request, a chunked transfer
    succeeds with these requests and no other, in this order: the
    handshake, every chunk 0, 1, ..., n - 1 once, the finalisation; it never
    waits.  A file of size 0 has no chunk, and the handshake is followed at
    once by the finalisation. *)
Theorem uploadMediaChunked_healthy (sid : nat) (file : File) (k : nat) (w : World) :
  network w = [] →
  let S := size file in
  let n := api.totalChunksOf S in
  let r := api.uploadMediaChunked sid file (Some (sync.createProgressCallback k)) w in
  r.1 = Ok (JObj None None None) ∧
  ∃ d, trace r.2 = trace w ++ d ∧
    requests d
    = [mkRequest (api.API_BASE_URL +:+ "/media-uploads/init")
         (InitBody sid (file_name file) S (file_type file) n
            (pretty sid +:+ "-" +:+ file_name file +:+ "-" +:+ pretty (clock w)))]
      ++ (chunkReq file S n None None <$> seqZ 0 n)
      ++ [mkRequest (api.API_BASE_URL +:+ "/media-uploads/finalize") (FinalizeBody None sid)] ∧
    timeouts d = [] ∧
    (S = 0 → length (requests d) = 2%nat).
Proof.
  intros Hn S n. cbv zeta. rewrite uploadMediaChunked_run. cbv zeta. fold S n.
  rewrite post_run. destruct (answered_quiet w Hn) as [-> ->].
  cbn [answerOf parsed plainOk ok json]. set (w1 := emit _ w).
  unfold api.uploadChunks.
  destruct (chunks_healthy file S n None None k (seqZ 0 n) w1 Hn) as (Hr & Hn1 & d & Ht & Hreq & Htim).
  cbv zeta in Hr, Hn1, Ht.
  destruct (forEach (seqZ 0 n) _ w1) as [[[]|e] w2]; cbn [fst snd] in *; [|done].
  rewrite post_run. destruct (answered_quiet w2 Hn1) as [-> ->].
  cbn [answerOf parsed plainOk ok json fst snd]. split; [done|].
  eexists (_ :: d ++ [_]). split; [|split; [|split]].
  - simpl. rewrite Ht. subst w1. simpl. rewrite <- !app_assoc. done.
  - rewrite requests_cons, requests_app, Hreq. done.
  - rewrite timeouts_cons, timeouts_app, Htim. done.
  - intros HS0. rewrite requests_cons, requests_app, Hreq.
    assert (n = 0) as ->. { unfold n. rewrite HS0. vm_compute. reflexivity. }
    done.
Qed.

Lemma uploadMediaChunked_healthy_witness :
  (api.uploadMediaChunked 1 video (Some (sync.createProgressCallback 1))
     (with_env calm videoQueued)).1 = Ok (JObj None None None).
Proof.
  destruct (uploadMediaChunked_healthy 1 video 1 (with_env calm videoQueued)) as [H _].
  - reflexivity.
  - exact H.
Defined.

(** X11. When the handshake of a chunked transfer is refused, by the
    network or by the server, the transfer throws and the handshake is the
    only request made: no chunk and no finalisation are sent, and the stores
    are not touched. *)
Theorem uploadMediaChunked_stops_at_refused_handshake
    (sid : nat) (file : File) (cb : option (Z → Z → M unit)) (w : World) :
  isFailure (nextOutcome w) = true →
  let S := size file in
  let r := api.uploadMediaChunked sid file cb w in
  (∃ e, r.1 = Throw e ∧ answerOf (nextOutcome w) = Throw e) ∧
  trace r.2
  = trace w ++
    [EvFetch (mkRequest (api.API_BASE_URL +:+ "/media-uploads/init")
                (InitBody sid (file_name file) S (file_type file) (api.totalChunksOf S)
                   (pretty sid +:+ "-" +:+ file_name file +:+ "-" +:+ pretty (clock w))))
             (nextOutcome w)] ∧
  mediaQueue r.2 = mediaQueue w ∧ records r.2 = records w.
Proof.
  intros Hfail. cbv zeta. rewrite uploadMediaChunked_run. cbv zeta. rewrite post_run.
  destruct (answered_fields w) as (Aq & Af & At & Ar).
  assert (∃ e, answerOf (nextOutcome w) = Throw e) as [e He].
  { destruct (nextOutcome w) as [msg|resp]; simpl in *; [by eexists|].
    unfold parsed. destruct (ok resp); [done|].
    destruct (json resp) as [[|m u c]|]; by eexists. }
  rewrite He. cbn [fst snd]. split; [by exists e|].
  split; [simpl; by rewrite At|]. done.
Qed.

Lemma uploadMediaChunked_stops_at_refused_handshake_witness :
  length (trace (api.uploadMediaChunked 1 video None
                   (with_env (mkEnv true None 0 [] [NetworkError "Failed to fetch"] true)
                             videoQueued)).2)
  = S (length (trace videoQueued)).
Proof.
  destruct (uploadMediaChunked_stops_at_refused_handshake 1 video None
              (with_env (mkEnv true None 0 [] [NetworkError "Failed to fetch"] true) videoQueued))
    as (_ & H & _).
  - reflexivity.
  - rewrite H, length_app. simpl. lia.
Defined.

(** * The coordinator, case by case *)

Lemma getAllQueueItems_run w :
  db.getAllQueueItems w =
  match storeFaults w with
  | Some e :: _ => (Throw e, drawn w)
  | _ => (Ok (db.getAll (mediaQueue w)), drawn w)
  end.
Proof.
  unfold db.getAllQueueItems. rewrite bind_request.
  by destruct (storeFaults w) as [|[e|] rest].
Qed.

(** Every item has one of the four statuses. *)
Lemma status_partition (l : list QueueItem) :
  length l
  = (length (filter (λ i, status i = pending) l)
     + length (filter (λ i, status i = uploading) l)
     + length (filter (λ i, status i = synced) l)
     + length (filter (λ i, status i = failed) l))%nat.
Proof.
  induction l as [|x l IH]; [done|].
  rewrite !filter_cons. destruct (status x); repeat case_decide; try done; simpl; lia.
Qed.

(** X13. The statistics count every stored item once: the total is the
    number of stored items and the sum of the four counts by status, and the
    pending count is the number of items a pass would fetch.  Reading them
    writes nothing. *)
Theorem getSyncStats_partition (w : World) :
  nextFault w = None →
  ∃ st,
    sync.getSyncStats w = (Ok st, drawn w) ∧
    sync.stat_total st = Z.of_nat (base.size (mediaQueue w)) ∧
    sync.stat_total st
    = sync.stat_pending st + sync.stat_uploading st + sync.stat_synced st + sync.stat_failed st ∧
    sync.stat_pending st = Z.of_nat (length (pendingOf w)) ∧
    0 ≤ sync.stat_pending st ∧ 0 ≤ sync.stat_uploading st ∧
    0 ≤ sync.stat_synced st ∧ 0 ≤ sync.stat_failed st ∧
    mediaQueue (drawn w) = mediaQueue w ∧ records (drawn w) = records w.
Proof.
  intros Hf. unfold sync.getSyncStats. rewrite bind_run, getAllQueueItems_run.
  unfold nextFault in Hf.
  eexists. split; [by destruct (storeFaults w) as [|[e|] rest]|].
  cbn [sync.stat_total sync.stat_pending sync.stat_uploading sync.stat_synced sync.stat_failed].
  split; [by rewrite getAll_length|]. split.
  - rewrite (status_partition (db.getAll (mediaQueue w))) at 1. lia.
  - repeat split; try done; lia.
Qed.

Lemma getSyncStats_partition_witness :
  ∃ st, sync.getSyncStats (with_env calm videoQueued)
        = (Ok st, drawn (with_env calm videoQueued)) ∧ sync.stat_total st = 1.
Proof.
  destruct (getSyncStats_partition (with_env calm videoQueued)) as (st & H & Ht & _).
  - reflexivity.
  - exists st. split; [exact H|]. rewrite Ht. vm_compute. reflexivity.
Defined.

(** Listeners stay as they are and the trace only grows. *)
Definition audience (w w' : World) : Prop :=
  syncListeners w' = syncListeners w ∧ ∃ d, trace w' = trace w ++ d.

Global Instance audience_preorder : PreOrder audience.
Proof.
  split.
  - intros w. split; [done|]. exists []. by rewrite app_nil_r.
  - intros w1 w2 w3 (L1 & d1 & T1) (L2 & d2 & T2). split; [congruence|].
    exists (d1 ++ d2). by rewrite T2, T1, app_assoc.
Qed.

Lemma audience_store w w' :
  syncListeners w' = syncListeners w → trace w' = trace w → audience w w'.
Proof. intros Hl Ht. split; [done|]. exists []. by rewrite app_nil_r. Qed.

Global Instance audience_ambient : Ambient audience.
Proof.
  split; [apply _| | |].
  - intros w. rewrite request_world. by apply audience_store.
  - intros n w. by apply audience_store.
  - intros ev w. split; [done|]. by eexists.
Qed.

Lemma audience_pass items :
  respects audience (Promise_allSettled (imap sync.dispatch items)).
Proof.
  apply (respects_pass _ (λ i, i)).
  - intros q us _ _. apply respects_updateQueueItem; [apply _|].
    intros w it _. by apply audience_store.
  - intros q _. apply respects_updateRecord; [apply _|].
    intros w r _. by apply audience_store.
Qed.

Lemma told_fields s w :
  syncStatus (told s w) = s ∧ syncListeners (told s w) = syncListeners w ∧
  trace (told s w) = trace w ++ ((λ c, EvListener c s) <$> syncListeners w) ∧
  onLine (told s w) = onLine w ∧ network (told s w) = network w ∧
  recordKey (told s w) = recordKey w ∧ clock (told s w) = clock w.
Proof.
  unfold told.
  pose proof (announce_fields s (syncListeners w) (set_syncStatus s w)) as F.
  cbv zeta in F. destruct F as (_ & Hrk & _ & _ & Hs & Hl & Hon & _ & Hc & _ & Hn).
  rewrite announce_trace. by rewrite Hs, Hl, Hon, Hn, Hrk, Hc.
Qed.

(** X14. A pass that gets by the guard always releases it: it tells every
    listener [syncing] first and the final status last, which is [success]
    or [error] and never [syncing]; when it returns counts the status is
    [success] exactly when no item failed, and when it throws, which it does
    only for a failed read of the queue, the status is [error].  The
    listeners stay registered. *)
Theorem syncQueue_releases_the_guard (w : World) :
  onLine w = true → syncStatus w ≠ SYNCING →
  let r := sync.syncQueue w in
  let ls := syncListeners w in
  (syncStatus r.2 = SUCCESS ∨ syncStatus r.2 = ERROR) ∧
  syncListeners r.2 = ls ∧
  (∃ d, trace r.2 = trace w ++ ((λ c, EvListener c SYNCING) <$> ls) ++ d
                     ++ ((λ c, EvListener c (syncStatus r.2)) <$> ls)) ∧
  (∀ c, r.1 = Ok c → (syncStatus r.2 = SUCCESS ↔ sync.failed_count c = 0)) ∧
  (∀ e, r.1 = Throw e → syncStatus r.2 = ERROR ∧ nextFault w = Some e).
Proof.
  intros Hon Hst. cbv zeta. rewrite syncQueue_run by done. cbv zeta.
  destruct (told_fields SYNCING w) as (_ & Hl1 & Ht1 & _).
  destruct (told_store SYNCING w) as (_ & _ & _ & Hsf).
  assert (∀ s w2, audience (told SYNCING w) w2 →
    (s = SUCCESS ∨ s = ERROR) →
    (syncStatus (told s w2) = SUCCESS ∨ syncStatus (told s w2) = ERROR) ∧
    syncListeners (told s w2) = syncListeners w ∧
    (∃ d, trace (told s w2)
          = trace w ++ ((λ c, EvListener c SYNCING) <$> syncListeners w) ++ d
            ++ ((λ c, EvListener c (syncStatus (told s w2))) <$> syncListeners w)) ∧
    syncStatus (told s w2) = s) as Hend.
  { intros s w2 (Hl2 & d & Ht2) Hs.
    destruct (told_fields s w2) as (Hs' & Hl' & Ht' & _).
    rewrite Hs', Hl', Ht', Hl2, Hl1, Ht2, Ht1. split; [done|]. split; [done|].
    split; [|done]. exists d. by rewrite <- !app_assoc. }
  assert (audience (told SYNCING w) (drawn (told SYNCING w))) as Hdrawn
    by by apply audience_store.
  unfold nextFault. rewrite Hsf.
  destruct (storeFaults w) as [|[e|] rest] eqn:Esf.
  - destruct (decide _) as [Hz|Hnz].
    + destruct (Hend SUCCESS _ Hdrawn) as (H1 & H2 & H3 & H4); [by left|].
      cbn [fst snd]. split; [done|]. split; [done|]. split; [done|].
      split; [by intros c [= <-]|done].
    + pose proof (audience_pass (pendingOf (told SYNCING w)) (drawn (told SYNCING w))) as Hp.
      rewrite allSettled_run in Hp. cbn [snd] in Hp.
      destruct (settleAll _ _) as [results w2] eqn:Hpass. cbn [fst snd] in *.
      destruct (Hend (verdict results) w2) as (H1 & H2 & H3 & H4).
      { by etrans. }
      { unfold verdict. destruct (decide _); auto. }
      split; [done|]. split; [done|]. split; [done|]. split; [|done].
      intros c [= <-]. rewrite H4. unfold verdict. cbn [sync.failed_count].
      by destruct (decide (failedOf results = 0)).
  - destruct (Hend ERROR _ Hdrawn) as (H1 & H2 & H3 & H4); [by right|].
    cbn [fst snd]. split; [done|]. split; [done|]. split; [done|].
    split; [done|]. by intros e' [= <-].
  - destruct (decide _) as [Hz|Hnz].
    + destruct (Hend SUCCESS _ Hdrawn) as (H1 & H2 & H3 & H4); [by left|].
      cbn [fst snd]. split; [done|]. split; [done|]. split; [done|].
      split; [by intros c [= <-]|done].
    + pose proof (audience_pass (pendingOf (told SYNCING w)) (drawn (told SYNCING w))) as Hp.
      rewrite allSettled_run in Hp. cbn [snd] in Hp.
      destruct (settleAll _ _) as [results w2] eqn:Hpass. cbn [fst snd] in *.
      destruct (Hend (verdict results) w2) as (H1 & H2 & H3 & H4).
      { by etrans. }
      { unfold verdict. destruct (decide _); auto. }
      split; [done|]. split; [done|]. split; [done|]. split; [|done].
      intros c [= <-]. rewrite H4. unfold verdict. cbn [sync.failed_count].
      by destruct (decide (failedOf results = 0)).
Qed.

Lemma syncQueue_releases_the_guard_witness :
  syncStatus (sync.syncQueue mixed).2 = SUCCESS ∨ syncStatus (sync.syncQueue mixed).2 = ERROR.
Proof.
  destruct (syncQueue_releases_the_guard mixed) as (H & _).
  - reflexivity.
  - vm_compute. intros E. discriminate E.
  - exact H.
Defined.

(** X15. A pass that finds nothing pending makes no request and writes
    nothing: it tells the listeners [syncing] and then [success], and
    returns zero counts. *)
Theorem syncQueue_with_nothing_pending (w : World) :
  onLine w = true → syncStatus w ≠ SYNCING → nextFault w = None → pendingOf w = [] →
  let r := sync.syncQueue w in
  let ls := syncListeners w in
  r.1 = Ok (sync.mkCounts 0 0) ∧
  trace r.2 = trace w ++ ((λ c, EvListener c SYNCING) <$> ls)
                      ++ ((λ c, EvListener c SUCCESS) <$> ls) ∧
  syncStatus r.2 = SUCCESS ∧
  mediaQueue r.2 = mediaQueue w ∧ records r.2 = records w ∧ network r.2 = network w.
Proof.
  intros Hon Hst Hf Hp. cbv zeta. rewrite syncQueue_run by done. cbv zeta.
  destruct (told_store SYNCING w) as (Hr & Hq & _ & Hsf).
  destruct (told_fields SYNCING w) as (_ & Hl1 & Ht1 & _ & Hn1 & _).
  assert (pendingOf (told SYNCING w) = []) as -> by (unfold pendingOf in *; by rewrite Hq).
  rewrite decide_True by done.
  destruct (told_store SUCCESS (drawn (told SYNCING w))) as (Hr2 & Hq2 & _).
  destruct (told_fields SUCCESS (drawn (told SYNCING w))) as (Hs2 & _ & Ht2 & _ & Hn2 & _).
  unfold nextFault in Hf. rewrite Hsf.
  assert ((Ok (sync.mkCounts 0 0), told SUCCESS (drawn (told SYNCING w))).1
          = Ok (sync.mkCounts 0 0) ∧
          trace (told SUCCESS (drawn (told SYNCING w)))
          = trace w ++ ((λ c, EvListener c SYNCING) <$> syncListeners w)
                    ++ ((λ c, EvListener c SUCCESS) <$> syncListeners w) ∧
          syncStatus (told SUCCESS (drawn (told SYNCING w))) = SUCCESS ∧
          mediaQueue (told SUCCESS (drawn (told SYNCING w))) = mediaQueue w ∧
          records (told SUCCESS (drawn (told SYNCING w))) = records w ∧
          network (told SUCCESS (drawn (told SYNCING w))) = network w) as H.
  { split; [done|]. split; [|split; [done|split; [|split]]].
    - rewrite Ht2. simpl. rewrite Ht1, Hl1. by rewrite <- app_assoc.
    - rewrite Hq2. simpl. exact Hq.
    - rewrite Hr2. simpl. exact Hr.
    - rewrite Hn2. simpl. exact Hn1. }
  by destruct (storeFaults w) as [|[e|] rest].
Qed.

Lemma syncQueue_with_nothing_pending_witness :
  (sync.syncQueue (with_env calm initial)).1 = Ok (sync.mkCounts 0 0).
Proof.
  destruct (syncQueue_with_nothing_pending (with_env calm initial)) as (H & _).
  - reflexivity.
  - vm_compute. intros E. discriminate E.
  - reflexivity.
  - vm_compute. reflexivity.
  - exact H.
Defined.

(** X16. When the read of the pending items fails, the pass throws the
    error of the store after telling the listeners [syncing] and then
    [error]; it makes no request and writes nothing. *)
Theorem syncQueue_with_failing_read (w : World) (e : Error) :
  onLine w = true → syncStatus w ≠ SYNCING → nextFault w = Some e →
  let r := sync.syncQueue w in
  let ls := syncListeners w in
  r.1 = Throw e ∧
  trace r.2 = trace w ++ ((λ c, EvListener c SYNCING) <$> ls)
                      ++ ((λ c, EvListener c ERROR) <$> ls) ∧
  syncStatus r.2 = ERROR ∧
  mediaQueue r.2 = mediaQueue w ∧ records r.2 = records w ∧ network r.2 = network w.
Proof.
  intros Hon Hst Hf. cbv zeta. rewrite syncQueue_run by done. cbv zeta.
  destruct (told_store SYNCING w) as (Hr & Hq & _ & Hsf).
  destruct (told_fields SYNCING w) as (_ & Hl1 & Ht1 & _ & Hn1 & _).
  destruct (told_store ERROR (drawn (told SYNCING w))) as (Hr2 & Hq2 & _).
  destruct (told_fields ERROR (drawn (told SYNCING w))) as (Hs2 & _ & Ht2 & _ & Hn2 & _).
  unfold nextFault in Hf. rewrite Hsf.
  destruct (storeFaults w) as [|[e'|] rest]; try done. injection Hf as ->.
  cbn [fst snd]. split; [done|]. split; [|split; [done|split; [|split]]].
  - rewrite Ht2. simpl. rewrite Ht1, Hl1. by rewrite <- app_assoc.
  - rewrite Hq2. simpl. exact Hq.
  - rewrite Hr2. simpl. exact Hr.
  - rewrite Hn2. simpl. exact Hn1.
Qed.

Lemma syncQueue_with_failing_read_witness :
  (sync.syncQueue
     (with_env (mkEnv true None 0 [Some (mkError "AbortError" "The transaction was aborted")] [] true)
               videoQueued)).1
  = Throw (mkError "AbortError" "The transaction was aborted").
Proof.
  destruct (syncQueue_with_failing_read
              (with_env (mkEnv true None 0
                           [Some (mkError "AbortError" "The transaction was aborted")] [] true)
                        videoQueued)
              (mkError "AbortError" "The transaction was aborted")) as (H & _).
  - reflexivity.
  - vm_compute. intros E. discriminate E.
  - reflexivity.
  - exact H.
Defined.

(** ** Retrying *)

Lemma updateQueueItem_healthy k us w it :
  storeFaults w = [] → mediaQueue w !! k = Some it →
  db.updateQueueItem k us w = (Ok k, set_mediaQueue <[k := merge (keyed k it) us]> w).
Proof.
  intros Hf Hit. rewrite updateQueueItem_run, Hf, Hit. by rewrite drawn_healthy.
Qed.

(** The queue after [updates] were laid over each item of [l] in turn. *)
Definition updateEach (us : list ItemUpdate) (l : list QueueItem)
    (m : gmap nat QueueItem) : gmap nat QueueItem :=
  foldl (λ m x, match m !! id x with
                | Some it => <[id x := merge (keyed (id x) it) us]> m
                | None => m
                end) m l.

Lemma updateEach_lookup us l m k :
  NoDup (id <$> l) → (∀ x, x ∈ l → is_Some (m !! id x)) →
  updateEach us l m !! k
  = if decide (k ∈ id <$> l) then (λ it, merge (keyed k it) us) <$> m !! k else m !! k.
Proof.
  revert m. induction l as [|x l IH]; intros m Hnd Hex.
  { done. }
  rewrite fmap_cons in Hnd. apply NoDup_cons in Hnd as [Hx Hnd].
  destruct (Hex x ltac:(by left)) as [it Hit].
  unfold updateEach in *. cbn [foldl]. rewrite Hit. rewrite IH; [|done|].
  - rewrite fmap_cons. destruct (decide (k = id x)) as [->|Hne].
    + rewrite decide_False by done. rewrite decide_True by by left.
      by rewrite lookup_insert_eq, Hit.
    + rewrite lookup_insert_ne by done.
      destruct (decide (k ∈ id <$> l)) as [Hin|Hnin].
      * by rewrite decide_True by by right.
      * rewrite decide_False; [done|]. intros Hin. by apply elem_of_cons in Hin as [?|?].
  - intros y Hy. rewrite lookup_insert_ne; [apply Hex; by right|].
    intros E. apply Hx. rewrite E. by apply list_elem_of_fmap_2.
Qed.

Lemma set_mediaQueue_twice f g w :
  set_mediaQueue f (set_mediaQueue g w) = set_mediaQueue (λ m, f (g m)) w.
Proof. done. Qed.

Lemma set_mediaQueue_ext f g w :
  f (mediaQueue w) = g (mediaQueue w) → set_mediaQueue f w = set_mediaQueue g w.
Proof. unfold set_mediaQueue. by intros ->. Qed.

Lemma updateEach_keeps us m k x :
  is_Some (m !! k) → is_Some (updateEach us [x] m !! k).
Proof.
  intros Hk. unfold updateEach. simpl. destruct (m !! id x) as [it|] eqn:E; [|done].
  rewrite lookup_insert. by case_decide.
Qed.

Lemma updateEach_run us l w :
  storeFaults w = [] → (∀ x, x ∈ l → is_Some (mediaQueue w !! id x)) →
  settleAll (map (λ item, db.updateQueueItem (id item) us) l) w
  = ((λ item, Ok (id item)) <$> l, set_mediaQueue (updateEach us l) w).
Proof.
  revert w. induction l as [|x l IH]; intros w Hf Hex.
  { simpl. by destruct w. }
  rewrite map_cons, settleAll_cons.
  destruct (Hex x ltac:(by left)) as [it Hit].
  rewrite (updateQueueItem_healthy _ _ _ it) by done. cbn [fst snd].
  rewrite IH; [| done |].
  - rewrite fmap_cons. cbn [fst snd]. f_equal.
    rewrite set_mediaQueue_twice. apply set_mediaQueue_ext.
    unfold updateEach. cbn [foldl]. by rewrite Hit.
  - intros y Hy. simpl.
    pose proof (updateEach_keeps us (mediaQueue w) (id y) x (Hex y ltac:(by right))) as Hkeep.
    unfold updateEach in Hkeep. simpl in Hkeep. by rewrite Hit in Hkeep.
Qed.

Lemma first_rejection_fulfilled {A B} (f : A → B) (l : list A) :
  first_rejection ((λ x, Ok (f x)) <$> l) = None.
Proof. by induction l. Qed.

(** The items [retryFailedItems] resets. *)
Definition eligible (it : QueueItem) : Prop :=
  status it = failed ∧ attempts it < maxAttempts it.

Global Instance eligible_dec it : Decision (eligible it).
Proof. unfold eligible. apply _. Defined.

(** X17. With a healthy store, [retryFailedItems] puts every stored item
    that is failed with attempts below its ceiling back to pending and
    clears its error, keeping its attempts; it leaves every other item and
    every record as they are, and sends nothing itself.  When it reset an
    item and the device is online it then runs a pass and answers with its
    counts; otherwise it answers with zero counts. *)
Theorem retryFailedItems_resets_eligible (w : World) :
  storeFaults w = [] →
  ∃ w1,
    sync.retryFailedItems w
    = (if bool_decide (0 < length (filter eligible (db.getAll (mediaQueue w))))%nat && onLine w
       then sync.syncQueue w1 else (Ok (sync.mkCounts 0 0), w1)) ∧
    (∀ k it, mediaQueue w !! k = Some it →
       mediaQueue w1 !! k
       = Some (if decide (eligible it)
               then merge (keyed k it) [upd_status pending; upd_error None] else it)) ∧
    (∀ k it, mediaQueue w !! k = Some it → eligible it →
       ∃ it', mediaQueue w1 !! k = Some it' ∧ status it' = pending ∧ error it' = None ∧
              attempts it' = attempts it ∧ maxAttempts it' = maxAttempts it) ∧
    (∀ k, mediaQueue w !! k = None → mediaQueue w1 !! k = None) ∧
    records w1 = records w ∧ trace w1 = trace w ∧ syncStatus w1 = syncStatus w ∧
    onLine w1 = onLine w ∧ network w1 = network w.
Proof.
  intros Hf.
  set (l := filter eligible (db.getAll (mediaQueue w))).
  set (us := [upd_status pending; upd_error None]).
  exists (set_mediaQueue (updateEach us l) w).
  assert (NoDup (id <$> l)) as Hnd.
  { apply (sublist_NoDup _ (id <$> db.getAll (mediaQueue w))); [apply getAll_NoDup|].
    apply fmap_sublist, sublist_filter. }
  assert (∀ x, x ∈ l → is_Some (mediaQueue w !! id x)) as Hex.
  { intros x Hx. apply list_elem_of_filter in Hx as [_ Hx].
    apply elem_of_getAll in Hx as (k & it & Hit & ->). simpl. by rewrite Hit. }
  assert (∀ k it, mediaQueue w !! k = Some it → (k ∈ id <$> l ↔ eligible it)) as Hin.
  { intros k it Hit. split.
    - intros Hk. apply list_elem_of_fmap in Hk as (x & -> & Hx).
      apply list_elem_of_filter in Hx as [He Hx].
      apply elem_of_getAll in Hx as (k' & it' & Hit' & ->). simpl in *.
      rewrite Hit in Hit'. injection Hit' as <-. exact He.
    - intros He. apply list_elem_of_fmap. exists (keyed k it). split; [done|].
      apply list_elem_of_filter. split; [exact He|]. apply elem_of_getAll. by exists k, it. }
  assert (∀ k it, mediaQueue w !! k = Some it →
            mediaQueue (set_mediaQueue (updateEach us l) w) !! k
            = Some (if decide (eligible it) then merge (keyed k it) us else it)) as Hlook.
  { intros k it Hit. simpl. rewrite updateEach_lookup by done. rewrite Hit.
    destruct (decide (eligible it)) as [He|Hne].
    - rewrite decide_True; [done|]. by apply (Hin k it).
    - rewrite decide_False; [done|]. intros Hk. by apply (Hin k it) in Hk. }
  split; [|split; [exact Hlook|split; [|split; [|done]]]].
  - unfold sync.retryFailedItems. rewrite bind_run, getAllQueueItems_run, Hf.
    rewrite drawn_healthy by done. cbv zeta.
    change (filter (λ item, status item = failed ∧ attempts item < maxAttempts item)
                   (db.getAll (mediaQueue w))) with l.
    rewrite bind_run. unfold Promise_all. rewrite bind_allSettled.
    change (λ item, db.updateQueueItem (id item) [upd_status pending; upd_error None])
      with (λ item, db.updateQueueItem (id item) us).
    rewrite updateEach_run by done.
    cbn [fst snd]. rewrite (first_rejection_fulfilled id l).
    unfold ret at 1. unfold sync.isOnline. rewrite bind_gets. cbn [onLine set_mediaQueue].
    by destruct (bool_decide (0 < length l)%nat && onLine w).
  - intros k it Hit He. rewrite (Hlook k it Hit). rewrite decide_True by done.
    eexists. split; [done|]. by destruct He.
  - intros k Hk. simpl. rewrite updateEach_lookup by done. rewrite Hk.
    by destruct (decide _).
Qed.

(** An item left failed after two of five attempts, on a device offline. *)
Definition limbo : World :=
  (db.updateQueueItem 1 [upd_status failed; upd_attempts 2] (with_env offline videoQueued)).2.

Lemma retryFailedItems_resets_eligible_witness :
  ∃ w1, (status <$> mediaQueue w1 !! 1%nat) = Some pending ∧
        (attempts <$> mediaQueue w1 !! 1%nat) = Some 2.
Proof.
  destruct (retryFailedItems_resets_eligible limbo) as (w1 & _ & H & _).
  - vm_compute. reflexivity.
  - exists w1.
    rewrite (H 1%nat (merge (keyed 1 videoItem) [upd_status failed; upd_attempts 2]))
      by (vm_compute; reflexivity).
    vm_compute. split; reflexivity.
Defined.

(** ** One item of a pass *)

(** X18. [syncQueueItem] run on an item that is no longer stored makes no
    request and writes nothing: it is rejected with "Queue item not found",
    and the pass counts the item as failed. *)
Theorem syncQueueItem_of_missing_item (q : QueueItem) (w : World) (i : nat) :
  storeFaults w = [] → mediaQueue w !! id q = None →
  sync.syncQueueItem q w = (Throw (newError "Queue item not found"), w) ∧
  sync.dispatch i q w
  = (Ok (inr (newError "Queue item not found")), emit (EvTimeout (Z.of_nat i * 100)) w) ∧
  sync.succeeded (sync.dispatch i q w).1 = false.
Proof.
  intros Hf Hq.
  assert (∀ w0, storeFaults w0 = [] → mediaQueue w0 !! id q = None →
            sync.syncQueueItem q w0 = (Throw (newError "Queue item not found"), w0)) as Hrun.
  { intros w0 Hf0 Hq0. unfold sync.syncQueueItem, try_catch, sync.attemptItem. cbv zeta.
    rewrite bind_run, updateQueueItem_run, Hf0, Hq0, drawn_healthy by done.
    unfold sync.recordFailure, Date_now. cbv zeta.
    rewrite bind_gets, bind_run, updateQueueItem_run, Hf0, Hq0, drawn_healthy by done.
    done. }
  split; [by apply Hrun|].
  rewrite dispatch_run. cbv zeta. rewrite Hrun by done. done.
Qed.

Lemma syncQueueItem_of_missing_item_witness :
  sync.syncQueueItem videoItem (db.deleteQueueItem 1 (with_env calm videoQueued)).2
  = (Throw (newError "Queue item not found"),
     (db.deleteQueueItem 1 (with_env calm videoQueued)).2).
Proof.
  destruct (syncQueueItem_of_missing_item videoItem
              (db.deleteQueueItem 1 (with_env calm videoQueued)).2 0) as (H & _).
  - vm_compute. reflexivity.
  - vm_compute. reflexivity.
  - exact H.
Defined.

(** ** A file sent whole *)

(** The file [syncQueueItem] rebuilds from the stored payload. *)
Definition fileOf (q : QueueItem) : File :=
  db.arrayBufferToFile (fileData q) (fileName q) (fileType q).

Definition mediaReq (q : QueueItem) : Request :=
  mkRequest (api.API_BASE_URL +:+ "/media-uploads") (MediaBody (fileOf q) (submissionId q)).

(** The stored item [it] once the attempt on its snapshot [q] has begun, and
    once it is done. *)
Definition begun (q it : QueueItem) : QueueItem :=
  merge (keyed (id q) it)
    [upd_status uploading; upd_attempts (attempts q + 1);
     upd_uploadProgress 0; upd_bytesUploaded 0].

Definition finished (q it : QueueItem) (now : Z) : QueueItem :=
  merge (merge (begun q it) [upd_uploadProgress 100; upd_bytesUploaded (size (fileOf q))])
    [upd_status synced; upd_syncedAt now; upd_uploadProgress 100].

(** [queueItems.every(item => item.status === 'synced')] over the items of
    one submission. *)
Definition allSynced (sid : nat) (m : gmap nat QueueItem) : bool :=
  forallb (λ item, bool_decide (status item = synced))
          (filter (λ it, submissionId it = sid) (db.getAll m)).

Lemma set_mediaQueue_again k b c w :
  set_mediaQueue <[k := c]> (set_mediaQueue <[k := b]> w) = set_mediaQueue <[k := c]> w.
Proof.
  rewrite set_mediaQueue_twice. apply set_mediaQueue_ext. apply insert_insert_eq.
Qed.

Lemma checkAndUpdate_run sid w :
  storeFaults w = [] →
  sync.checkAndUpdateRecordSyncStatus sid w =
  if allSynced sid (mediaQueue w) then
    match records w !! sid with
    | Some r =>
        (Ok tt, set_records <[sid := db.mergeRecord (keyedRecord sid r) [db.upd_synced true]]> w)
    | None => (Throw (newError "Record not found"), w)
    end
  else (Ok tt, w).
Proof.
  intros Hf. unfold sync.checkAndUpdateRecordSyncStatus, db.getQueueItemsBySubmissionId.
  rewrite bind_run, bind_request, Hf. rewrite (drawn_healthy w Hf). rewrite bind_gets.
  unfold ret at 1. cbv beta iota zeta. fold (allSynced sid (mediaQueue w)).
  destruct (allSynced sid (mediaQueue w)); [|done].
  rewrite bind_run, updateRecord_run, Hf. rewrite (drawn_healthy w Hf).
  by destruct (records w !! sid).
Qed.

Lemma answered_healthy w : storeFaults w = [] → storeFaults (answered w) = [].
Proof. destruct (answered_fields w) as (_ & -> & _). done. Qed.

Lemma attemptItem_whole q it w :
  storeFaults w = [] → mediaQueue w !! id q = Some it →
  sync.chosenMode q (fileOf q) = false →
  sync.attemptItem q w =
  let w2 := emit (EvFetch (mediaReq q) (nextOutcome w))
                 (answered (set_mediaQueue <[id q := begun q it]> w)) in
  match answerOf (nextOutcome w) with
  | Throw e => (Throw e, w2)
  | Ok _ =>
      let w4 := set_mediaQueue <[id q := finished q it (clock w)]> w2 in
      match sync.checkAndUpdateRecordSyncStatus (submissionId q) w4 with
      | (Ok _, w5) => (Ok (sync.mkResult true (id q) None None), w5)
      | (Throw e, w5) => (Throw e, w5)
      end
  end.
Proof.
  intros Hf Hit Hmode. unfold sync.attemptItem. cbv zeta. unfold fileOf in Hmode.
  rewrite bind_run, (updateQueueItem_healthy _ _ _ it) by done. fold (begun q it).
  rewrite Hmode. rewrite bind_run, bind_run, uploadMedia_run.
  fold (fileOf q). fold (mediaReq q).
  set (w1 := set_mediaQueue <[id q := begun q it]> w).
  assert (nextOutcome w1 = nextOutcome w) as -> by done.
  set (w2 := emit (EvFetch (mediaReq q) (nextOutcome w)) (answered w1)).
  destruct (answerOf (nextOutcome w)) as [j|e]; [|done].
  destruct (answered_fields w1) as (Aq & Af & At & Ar).
  destruct (answered_more w1) as (_ & _ & _ & _ & Ac & _).
  assert (storeFaults w2 = []) as Hf2 by (subst w2 w1; simpl; by rewrite Af).
  assert (mediaQueue w2 !! id q = Some (begun q it)) as Hit2.
  { subst w2 w1. simpl. rewrite Aq. simpl. by rewrite lookup_insert_eq. }
  assert (id (begun q it) = id q) as Hid.
  { unfold begun. by destruct (merge_static (keyed (id q) it)
      [upd_status uploading; upd_attempts (attempts q + 1);
       upd_uploadProgress 0; upd_bytesUploaded 0]) as (-> & _). }
  rewrite bind_run, (updateQueueItem_healthy _ _ _ (begun q it)) by done.
  rewrite (keyed_id _ _ Hid). unfold ret at 1. cbv beta iota.
  unfold Date_now. rewrite bind_gets.
  set (it2 := merge (begun q it) _).
  assert (id it2 = id q) as Hid2.
  { unfold it2. destruct (merge_static (begun q it)
      [upd_uploadProgress 100; upd_bytesUploaded (size (fileOf q))]) as (-> & _). done. }
  rewrite bind_run, (updateQueueItem_healthy _ _ _ it2);
    [|done|simpl; by rewrite lookup_insert_eq].
  rewrite (keyed_id _ _ Hid2). rewrite set_mediaQueue_again.
  assert (clock (set_mediaQueue <[id q := it2]> w2) = clock w) as ->.
  { subst w2 w1. simpl. rewrite Ac. done. }
  fold (finished q it (clock w)). rewrite bind_run.
  by destruct (sync.checkAndUpdateRecordSyncStatus _ _) as [[[]|e] w5].
Qed.

Lemma allSynced_spec sid m :
  allSynced sid m = true
  ↔ ∀ k c, m !! k = Some c → submissionId c = sid → status c = synced.
Proof.
  unfold allSynced. rewrite forallb_forall. split.
  - intros H k c Hc Hs. specialize (H (keyed k c)).
    rewrite bool_decide_eq_true in H. apply H.
    apply list_elem_of_In, list_elem_of_filter. split; [done|].
    apply elem_of_getAll. by exists k, c.
  - intros H x Hx. apply list_elem_of_In, list_elem_of_filter in Hx as [Hs Hx].
    apply elem_of_getAll in Hx as (k & c & Hc & ->).
    rewrite bool_decide_eq_true. by apply (H k c).
Qed.

(** The world a whole-file attempt on [q] reaches once the server has
    answered and the item is marked synced. *)
Definition uploaded (q it : QueueItem) (w : World) : World :=
  set_mediaQueue <[id q := finished q it (clock w)]>
    (emit (EvFetch (mediaReq q) (nextOutcome w))
          (answered (set_mediaQueue <[id q := begun q it]> w))).

Lemma uploaded_fields q it w :
  storeFaults w = [] →
  let w4 := uploaded q it w in
  storeFaults w4 = [] ∧ records w4 = records w ∧ clock w4 = clock w ∧
  trace w4 = trace w ++ [EvFetch (mediaReq q) (nextOutcome w)] ∧
  mediaQueue w4 !! id q = Some (finished q it (clock w)) ∧
  (∀ k, k ≠ id q → mediaQueue w4 !! k = mediaQueue w !! k) ∧
  network w4 = tail (network w).
Proof.
  intros Hf. cbv zeta. unfold uploaded.
  destruct (answered_fields (set_mediaQueue <[id q := begun q it]> w)) as (Aq & Af & At & Ar).
  destruct (answered_more (set_mediaQueue <[id q := begun q it]> w))
    as (_ & _ & _ & _ & Ac & _ & An).
  simpl. rewrite Af, Ar, Ac, At, Aq, An. simpl. rewrite lookup_insert_eq.
  repeat split; try done. intros k Hne. by rewrite !lookup_insert_ne.
Qed.

Lemma finished_fields q it now :
  let it' := finished q it now in
  id it' = id q ∧ status it' = synced ∧ attempts it' = attempts q + 1 ∧
  uploadProgress it' = 100 ∧ bytesUploaded it' = byteLength (fileData q) ∧
  syncedAt it' = Some now ∧ error it' = error it ∧ submissionId it' = submissionId it ∧
  maxAttempts it' = maxAttempts it ∧ lastAttemptAt it' = lastAttemptAt it.
Proof. by repeat split. Qed.

(** X19. A file sent whole and accepted by the server, with a healthy
    store: [syncQueueItem] makes exactly one request and answers with
    success; the item is left synced with one attempt more, progress 100, all
    its bytes uploaded and the time of the clock as [syncedAt], and it keeps
    the error text of an earlier failure; no other item changes.  The parent
    record is marked synced when every other item of the submission is
    synced already, and no record changes when one of them is not. *)
Theorem whole_upload_accepted
    (q it : QueueItem) (r : LocalRecord) (j : Json) (w : World) :
  storeFaults w = [] →
  mediaQueue w !! id q = Some it → submissionId it = submissionId q →
  sync.chosenMode q (fileOf q) = false →
  answerOf (nextOutcome w) = Ok j →
  records w !! submissionId q = Some r →
  let res := sync.syncQueueItem q w in
  let sid := submissionId q in
  res.1 = Ok (sync.mkResult true (id q) None None) ∧
  trace res.2 = trace w ++ [EvFetch (mediaReq q) (nextOutcome w)] ∧
  (∃ it', mediaQueue res.2 !! id q = Some it' ∧
     status it' = synced ∧ attempts it' = attempts q + 1 ∧ uploadProgress it' = 100 ∧
     bytesUploaded it' = byteLength (fileData q) ∧ syncedAt it' = Some (clock w) ∧
     error it' = error it) ∧
  (∀ k, k ≠ id q → mediaQueue res.2 !! k = mediaQueue w !! k) ∧
  (∀ k, k ≠ sid → records res.2 !! k = records w !! k) ∧
  ((∀ k c, mediaQueue w !! k = Some c → k ≠ id q → submissionId c = sid → status c = synced) →
   records res.2 !! sid
   = Some (mkRecord sid (rec_title r) (rec_description r) (rec_mediaFiles r)
                    (rec_createdAt r) true)) ∧
  (∀ k c, mediaQueue w !! k = Some c → k ≠ id q → submissionId c = sid →
     status c ≠ synced → records res.2 = records w).
Proof.
  intros Hf Hit Hsid Hmode Hans Hr. cbv zeta.
  unfold sync.syncQueueItem, try_catch.
  rewrite (attemptItem_whole q it w) by done. cbv zeta. rewrite Hans.
  fold (uploaded q it w).
  destruct (uploaded_fields q it w Hf) as (Hf4 & Hr4 & Hc4 & Ht4 & Hq4 & Hother & _).
  cbv zeta in Hf4, Hr4, Hc4, Ht4, Hq4, Hother.
  rewrite checkAndUpdate_run by done. rewrite Hr4, Hr.
  destruct (finished_fields q it (clock w)) as (F1 & F2 & F3 & F4 & F5 & F6 & F7 & F8 & _).
  cbv zeta in F1, F2, F3, F4, F5, F6, F7, F8.
  destruct (allSynced (submissionId q) (mediaQueue (uploaded q it w))) eqn:Hall;
    cbn [fst snd].
  - split; [done|]. split; [exact Ht4|].
    split; [exists (finished q it (clock w)); split; [exact Hq4|done]|].
    split; [exact Hother|].
    split; [intros k Hne; cbn [records set_records];
            rewrite lookup_insert_ne by done; by rewrite Hr4|]. split.
    + intros _. cbn [records set_records]. by rewrite lookup_insert_eq.
    + intros k c Hc Hne Hs Hst. exfalso. apply Hst.
      rewrite allSynced_spec in Hall. apply (Hall k c); [|done].
      by rewrite Hother.
  - split; [done|]. split; [exact Ht4|].
    split; [exists (finished q it (clock w)); split; [exact Hq4|done]|].
    split; [exact Hother|].
    split; [intros k Hne; by rewrite Hr4|]. split; [|done].
    intros Hothers. exfalso.
    assert (allSynced (submissionId q) (mediaQueue (uploaded q it w)) = true);
      [|congruence].
    apply allSynced_spec. intros k c Hc Hs.
    destruct (decide (k = id q)) as [->|Hne].
    + rewrite Hq4 in Hc. injection Hc as <-. done.
    + rewrite Hother in Hc by done. by apply (Hothers k c).
Qed.

(** One photo queued offline, and the device back online. *)
Definition photoQueued : World :=
  with_env calm (run initial [(offline, OpEnqueue (sync.mkSubmission "trip" None [photo]))]).

Definition photoItem : QueueItem :=
  {| id := 1; submissionId := 1; fileName := "photo.jpg"; fileType := "image/jpeg";
     fileSize := 2 * MiB; fileData := mkBuffer (2 * MiB) 1;
     metadata := mkMetadata (Some "trip") None;
     status := pending; attempts := 0; maxAttempts := 5;
     error := None; useChunked := false;
     uploadProgress := 0; bytesUploaded := 0; createdAt := 0;
     lastAttemptAt := None; syncedAt := None |}.

Lemma whole_upload_accepted_witness :
  records (sync.syncQueueItem photoItem photoQueued).2 !! submissionId photoItem
  = Some (mkRecord 1 "trip" None [mkDescriptor "photo.jpg" "image/jpeg" (2 * MiB)] 0 true).
Proof.
  destruct (whole_upload_accepted photoItem photoItem
              (mkRecord 1 "trip" None [mkDescriptor "photo.jpg" "image/jpeg" (2 * MiB)] 0 false)
              (JObj None None None) photoQueued) as (_ & _ & _ & _ & _ & H & _).
  - reflexivity.
  - vm_compute. reflexivity.
  - reflexivity.
  - vm_compute. reflexivity.
  - reflexivity.
  - vm_compute. reflexivity.
  - apply H. intros k c Hc Hne. exfalso. revert Hc.
    assert (mediaQueue photoQueued = {[1%nat := photoItem]}) as -> by (vm_compute; reflexivity).
    rewrite lookup_singleton_ne; [done|]. intros E. apply Hne. by rewrite <- E.
Defined.

(** X20. When the parent record of an item is gone, a file that the server
    accepted is still recorded as a failure: the request is made, the item is
    marked synced, the reconciliation throws "Record not found", and the
    [catch] of [syncQueueItem] then puts the item back to pending (or to
    failed at its ceiling) with that error and one attempt more; an item put
    back to pending is fetched again by the next pass. *)
Theorem upload_for_missing_record_is_not_kept (q it : QueueItem) (j : Json) (w : World) :
  storeFaults w = [] →
  mediaQueue w !! id q = Some it → submissionId it = submissionId q →
  sync.chosenMode q (fileOf q) = false →
  answerOf (nextOutcome w) = Ok j →
  records w !! submissionId q = None →
  (∀ k c, mediaQueue w !! k = Some c → k ≠ id q → submissionId c = submissionId q →
          status c = synced) →
  let res := sync.syncQueueItem q w in
  let retry := bool_decide (attempts q + 1 < maxAttempts q) in
  res.1 = Ok (sync.mkResult false (id q) (Some (newError "Record not found")) (Some retry)) ∧
  trace res.2 = trace w ++ [EvFetch (mediaReq q) (nextOutcome w)] ∧
  records res.2 = records w ∧
  ∃ it', mediaQueue res.2 !! id q = Some it' ∧
    status it' = (if retry then pending else failed) ∧
    attempts it' = attempts q + 1 ∧ error it' = Some "Record not found" ∧
    uploadProgress it' = 0.
Proof.
  intros Hf Hit Hsid Hmode Hans Hr Hothers. cbv zeta.
  unfold sync.syncQueueItem, try_catch.
  rewrite (attemptItem_whole q it w) by done. cbv zeta. rewrite Hans.
  fold (uploaded q it w).
  destruct (uploaded_fields q it w Hf) as (Hf4 & Hr4 & Hc4 & Ht4 & Hq4 & Hother & _).
  cbv zeta in Hf4, Hr4, Hc4, Ht4, Hq4, Hother.
  rewrite checkAndUpdate_run by done. rewrite Hr4, Hr.
  assert (allSynced (submissionId q) (mediaQueue (uploaded q it w)) = true) as ->.
  { apply allSynced_spec. intros k c Hc Hs.
    destruct (decide (k = id q)) as [->|Hne].
    - rewrite Hq4 in Hc. by injection Hc as <-.
    - rewrite Hother in Hc by done. by apply (Hothers k c). }
  rewrite (recordFailure_healthy q _ _ (finished q it (clock w))) by done.
  rewrite drawn_healthy by done. cbn [fst snd].
  split; [done|]. split; [done|]. split; [done|].
  eexists. split; [simpl; by rewrite lookup_insert_eq|]. done.
Qed.

Lemma upload_for_missing_record_is_not_kept_witness :
  ∃ it', mediaQueue (sync.syncQueueItem photoItem (db.deleteRecord 1 photoQueued).2).2
           !! id photoItem = Some it' ∧
         status it' = pending.
Proof.
  destruct (upload_for_missing_record_is_not_kept photoItem photoItem (JObj None None None)
              (db.deleteRecord 1 photoQueued).2) as (_ & _ & _ & it' & Hit' & Hs & _).
  - reflexivity.
  - vm_compute. reflexivity.
  - reflexivity.
  - vm_compute. reflexivity.
  - reflexivity.
  - vm_compute. reflexivity.
  - intros k c Hc Hne. exfalso. revert Hc.
    assert (mediaQueue (db.deleteRecord 1 photoQueued).2 = {[1%nat := photoItem]}) as ->
      by (vm_compute; reflexivity).
    rewrite lookup_singleton_ne; [done|]. intros E. apply Hne. by rewrite <- E.
  - exists it'. split; [exact Hit'|exact Hs].
Defined.

(** ** The path of an attempt *)

(** The handshake of a chunked transfer of the payload of [q], begun at
    [now]. *)
Definition initReq (q : QueueItem) (now : Z) : Request :=
  mkRequest (api.API_BASE_URL +:+ "/media-uploads/init")
    (InitBody (submissionId q) (fileName q) (size (fileOf q)) (fileType q)
       (api.totalChunksOf (size (fileOf q)))
       (pretty (submissionId q) +:+ "-" +:+ fileName q +:+ "-" +:+ pretty now)).

(** The trace only grows. *)
Definition extends (w w' : World) : Prop := ∃ p, trace w' = trace w ++ p.

Global Instance extends_preorder : PreOrder extends.
Proof.
  split.
  - intros w. exists []. by rewrite app_nil_r.
  - intros w1 w2 w3 [p Hp] [p' Hp']. exists (p ++ p'). by rewrite Hp', Hp, app_assoc.
Qed.

Lemma extends_quiet w w' : trace w' = trace w → extends w w'.
Proof. intros H. exists []. by rewrite app_nil_r. Qed.

Global Instance extends_ambient : Ambient extends.
Proof.
  split; [apply _| | |].
  - intros w. rewrite request_world. by apply extends_quiet.
  - intros n w. by apply extends_quiet.
  - intros ev w. by exists [ev].
Qed.

Lemma extends_updateQueueItem k us : respects extends (db.updateQueueItem k us).
Proof. apply respects_updateQueueItem; [apply _|]. intros w it _. by apply extends_quiet. Qed.

Lemma extends_updateRecord k us : respects extends (db.updateRecord k us).
Proof. apply respects_updateRecord; [apply _|]. intros w r _. by apply extends_quiet. Qed.

(** Run in [w], the code [m] adds the event [ev] to the trace before any
    other. *)
Definition starts {A} (ev : Event) (m : M A) (w : World) : Prop :=
  ∃ rest, trace (m w).2 = trace w ++ ev :: rest.

Lemma starts_bind_l {A B} ev (m : M A) (k : A → M B) w :
  starts ev m w → (∀ a, respects extends (k a)) → starts ev (bind m k) w.
Proof.
  intros [rest Hm] Hk. unfold starts, bind.
  destruct (m w) as [[a|e] w1]; cbn [snd] in *; [|by exists rest].
  destruct (Hk a w1) as [p Hp]. exists (rest ++ p).
  by rewrite Hp, Hm, <- app_assoc.
Qed.

Lemma starts_bind_r {A B} ev (m : M A) (k : A → M B) w a w1 :
  m w = (Ok a, w1) → trace w1 = trace w → starts ev (k a) w1 → starts ev (bind m k) w.
Proof.
  intros Hm Ht [rest Hk]. exists rest. unfold bind. rewrite Hm. by rewrite Hk, Ht.
Qed.

Lemma starts_try_catch {A} ev (m : M A) (h : Error → M A) w :
  starts ev m w → (∀ e, respects extends (h e)) → starts ev (try_catch m h) w.
Proof.
  intros [rest Hm] Hh. unfold starts, try_catch.
  destruct (m w) as [[a|e] w1]; cbn [snd] in *; [by exists rest|].
  destruct (Hh e w1) as [p Hp]. exists (rest ++ p).
  by rewrite Hp, Hm, <- app_assoc.
Qed.

Lemma starts_post endpoint data w :
  starts (EvFetch (mkRequest (api.API_BASE_URL +:+ endpoint) data) (nextOutcome w))
         (api.post endpoint data) w.
Proof.
  exists []. rewrite post_run. cbn [snd]. destruct (answered_fields w) as (_ & _ & At & _).
  simpl. by rewrite At.
Qed.

Lemma starts_uploadMedia sid file w :
  starts (EvFetch (mkRequest (api.API_BASE_URL +:+ "/media-uploads") (MediaBody file sid))
                  (nextOutcome w))
         (api.uploadMedia sid file) w.
Proof.
  exists []. rewrite uploadMedia_run. cbn [snd].
  destruct (answered_fields w) as (_ & _ & At & _). simpl. by rewrite At.
Qed.

(** What follows the first request of an attempt only adds to the trace. *)
Lemma extends_progress k b t : respects extends (sync.createProgressCallback k b t).
Proof.
  apply respects_createProgressCallback; [apply _|]. intros p. apply extends_updateQueueItem.
Qed.

Lemma extends_chunks file fs tc uid url k :
  respects extends
    (api.uploadChunks file fs tc uid url (Some (sync.createProgressCallback k))).
Proof.
  unfold api.uploadChunks. apply respects_forEach; [apply _|]. intros i _.
  apply respects_chunkRetryLoop; [apply _|]. apply respects_chunkAttempt; [apply _|].
  apply extends_progress.
Qed.

(** The attempt on the snapshot [q] of a stored item, when the store takes
    its first write: the first thing sent is the handshake of the chunked
    path or the whole file, as [chosenMode] says. *)
Lemma syncQueueItem_starts q it w :
  nextFault w = None → mediaQueue w !! id q = Some it →
  starts (EvFetch (if sync.chosenMode q (fileOf q) then initReq q (clock w) else mediaReq q)
                  (nextOutcome w))
         (sync.syncQueueItem q) w.
Proof.
  intros Hf Hit. unfold sync.syncQueueItem.
  apply starts_try_catch.
  2: { intros e. apply respects_recordFailure; [apply _|]. intros us _.
       apply extends_updateQueueItem. }
  unfold sync.attemptItem. cbv zeta. fold (fileOf q).
  eapply (starts_bind_r _ _ _ w (id q)
            (set_mediaQueue <[id q := begun q it]> (drawn w))).
  { rewrite updateQueueItem_run, Hit. unfold nextFault in Hf.
    by destruct (storeFaults w) as [|[e|] rest]. }
  { done. }
  set (w2 := set_mediaQueue _ (drawn w)).
  assert (nextOutcome w2 = nextOutcome w) as Hout by done.
  assert (clock w2 = clock w) as Hclock by done.
  apply starts_bind_l.
  2: { intros _. respects_with ltac:(first [ apply extends_updateQueueItem
                                           | apply respects_checkAndUpdateRecordSyncStatus;
                                             [apply _|apply extends_updateRecord] ]). }
  destruct (sync.chosenMode q (fileOf q)).
  - apply starts_bind_l; [|intros _; apply respects_ret; apply _].
    unfold api.uploadMediaChunked. cbv zeta.
    eapply (starts_bind_r _ _ _ w2 (clock w2) w2); [done|done|].
    apply starts_bind_l.
    + rewrite <- Hout. unfold initReq. rewrite <- Hclock. apply starts_post.
    + intros [|m uid url]; [apply respects_throw; apply _|].
      apply respects_bind; [apply _|apply extends_chunks|].
      intros _. apply respects_post. apply _.
  - apply starts_bind_l.
    + rewrite <- Hout. apply starts_uploadMedia.
    + intros _. respects_with ltac:(apply extends_updateQueueItem).
Qed.

(** An attempt whose first write the store rejects sends nothing. *)
Lemma syncQueueItem_silent q e w :
  nextFault w = Some e → trace (sync.syncQueueItem q w).2 = trace w.
Proof.
  intros Hf. unfold sync.syncQueueItem, try_catch, sync.attemptItem. cbv zeta.
  rewrite bind_run, updateQueueItem_run. unfold nextFault in Hf.
  destruct (storeFaults w) as [|[e0|] rest] eqn:E; [done| |done].
  unfold sync.recordFailure. cbv zeta. unfold Date_now. rewrite bind_gets, bind_run.
  rewrite updateQueueItem_run.
  destruct (storeFaults (drawn w)) as [|[e1|] rest1]; try done;
    by destruct (mediaQueue (drawn w) !! id q).
Qed.

(** C9. For every stored Queue Item of a reachable world the stored flag
    says exactly whether the file is larger than 10 MiB.  After any further
    operations the item is still stored with its payload and its flag, and an
    attempt on it, in any environment, takes the path the flag names: when
    the store takes the first write of the attempt, the first request sent is
    the handshake of the chunked path if the flag is set and the whole file if
    it is not; when the store rejects that write, nothing is sent.  The
    recomputation [flag || size > 10 MiB] in [syncQueueItem] gives the stored
    flag. *)
Theorem transfer_mode_is_stored_flag (w : World) (k : nat) (it : QueueItem) :
  reachable w → mediaQueue w !! k = Some it →
  useChunked it = bool_decide (fileSize it > 10 * 1024 * 1024) ∧
  ∀ script env, ∃ it',
    mediaQueue (run w script) !! k = Some it' ∧
    useChunked it' = useChunked it ∧ fileData it' = fileData it ∧
    fileSize it' = fileSize it ∧
    let w1 := with_env env (run w script) in
    let q := keyed k it' in
    sync.chosenMode q (fileOf q) = useChunked it ∧
    (nextFault w1 = None →
     ∃ rest,
       trace (sync.syncQueueItem q w1).2
       = trace w1
         ++ EvFetch (if useChunked it then initReq q (clock w1) else mediaReq q)
                    (nextOutcome w1) :: rest) ∧
    (∀ e, nextFault w1 = Some e → trace (sync.syncQueueItem q w1).2 = trace w1).
Proof.
  intros Hw Hit. pose proof (Inv_reachable w Hw) as HI.
  destruct (inv_flags _ _ _ HI _ _ Hit) as [Hsz Hfl].
  split; [exact Hfl|]. intros script env.
  destruct (persists_run script w (inv_keys _ _ _ HI)) as [_ Hp].
  destruct (Hp k it Hit) as (it' & Hit' & Huc & Hfd & Hfs).
  exists it'. split; [done|]. split; [done|]. split; [done|]. split; [done|].
  cbv zeta.
  assert (sync.chosenMode (keyed k it') (fileOf (keyed k it')) = useChunked it) as Hmode.
  { destruct (inv_flags _ _ _ (Inv_run script w HI) _ _ Hit') as [Hc1 Hc2].
    unfold sync.chosenMode, fileOf, api.shouldUseChunkedUpload, size. simpl.
    rewrite <- Hc1, <- Hc2, Huc. by destruct (useChunked it). }
  split; [exact Hmode|]. split.
  - intros Hf. rewrite <- Hmode.
    apply (syncQueueItem_starts (keyed k it') it'); [exact Hf|exact Hit'].
  - intros e Hf. by apply (syncQueueItem_silent _ e).
Qed.

Lemma transfer_mode_is_stored_flag_witness :
  useChunked videoItem = true ∧
  ∃ rest,
    trace (sync.syncQueueItem (keyed 1 videoItem) (with_env calm videoQueued)).2
    = trace (with_env calm videoQueued)
      ++ EvFetch (initReq (keyed 1 videoItem) 0) (Responded plainOk) :: rest.
Proof.
  destruct (transfer_mode_is_stored_flag videoQueued 1 videoItem) as (H1 & H2).
  - exists [(offline, OpEnqueue (sync.mkSubmission "clip" None [video]))]. reflexivity.
  - vm_compute. reflexivity.
  - split; [reflexivity|].
    destruct (H2 [] calm) as (it' & Hit' & _ & _ & _ & _ & Hrun & _).
    assert (mediaQueue (run videoQueued []) !! 1%nat = Some videoItem) as E
      by (vm_compute; reflexivity).
    rewrite E in Hit'. injection Hit' as <-.
    apply Hrun. reflexivity.
Defined.

(** * What the engine does to records *)

(** Relations respected by the writes the engine makes, the updates of a
    record being those that mark it synced. *)
Section MarkingRespects.
Context (R : relation World) `{!Ambient R}.
Hypothesis Hnotify : ∀ s, respects R (sync.notifySyncStatusChange s).
Hypothesis Hsubscribe : ∀ cb, respects R (sync.onSyncStatusChange cb).
Hypothesis HupdateQueueItem : ∀ k us, respects R (db.updateQueueItem k us).
Hypothesis HmarkSynced : ∀ k, respects R (db.updateRecord k [db.upd_synced true]).
Hypothesis HcreateRecord : ∀ r, respects R (db.createRecord r).
Hypothesis HenqueueMedia : ∀ r, respects R (db.enqueueMedia r).
Hypothesis Henv : ∀ e w, R w (with_env e w).

Local Ltac marking_prim :=
  first [ apply Hnotify | apply HupdateQueueItem | apply HcreateRecord | apply HenqueueMedia
        | apply respects_getPendingQueueItems; apply _
        | apply respects_getAllQueueItems; apply _ ].

Lemma marking_syncQueue : respects R sync.syncQueue.
Proof.
  unfold sync.syncQueue. cbv zeta.
  respects_with marking_prim.
  apply (respects_pass R (λ i, i)); auto.
Qed.

Lemma marking_enqueueSubmission s : respects R (sync.enqueueSubmission s).
Proof.
  unfold sync.enqueueSubmission, utils.checkStorageAvailability, utils.getStorageQuota.
  cbv zeta.
  respects_with ltac:(first [marking_prim | apply marking_syncQueue]).
  all: apply respects_all; [apply _|]; intros t Ht;
    apply list_elem_of_fmap in Ht as (f & -> & _); apply HenqueueMedia.
Qed.

Lemma marking_retryFailedItems : respects R sync.retryFailedItems.
Proof.
  unfold sync.retryFailedItems. cbv zeta.
  respects_with ltac:(first [marking_prim | apply marking_syncQueue]).
  all: apply respects_all; [apply _|]; intros t Ht;
    apply list_elem_of_fmap in Ht as (f & -> & _); apply HupdateQueueItem.
Qed.

Lemma marking_perform op : respects R (perform op).
Proof.
  destruct op; simpl.
  - apply respects_detached, marking_enqueueSubmission.
  - apply respects_detached, marking_syncQueue.
  - apply respects_detached, marking_retryFailedItems.
  - apply Hsubscribe.
  - apply respects_detached, marking_syncQueue.
  - apply Hnotify.
Qed.

Lemma marking_run script w : R w (run w script).
Proof.
  revert w. induction script as [|eo script IH]; intros w; simpl; [reflexivity|].
  etrans; [|apply IH]. unfold step. etrans; [apply (Henv eo.1)|apply marking_perform].
Qed.
End MarkingRespects.

Definition record_keys_fresh (w : World) : Prop :=
  ∀ k r, records w !! k = Some r → (k < recordKey w)%nat.

(** What a record keeps. *)
Definition same_submission (r r' : LocalRecord) : Prop :=
  rec_title r' = rec_title r ∧ rec_description r' = rec_description r ∧
  rec_mediaFiles r' = rec_mediaFiles r ∧ rec_createdAt r' = rec_createdAt r ∧
  (rec_synced r = true → rec_synced r' = true).

(** Stored records stay stored, as the submissions they were, and synced
    once they are. *)
Definition remembered (w w' : World) : Prop :=
  record_keys_fresh w →
  record_keys_fresh w' ∧
  ∀ k r, records w !! k = Some r → ∃ r', records w' !! k = Some r' ∧ same_submission r r'.

Global Instance remembered_preorder : PreOrder remembered.
Proof.
  split.
  - intros w Hk. split; [done|]. intros k r Hr. exists r. by repeat split.
  - intros w1 w2 w3 H12 H23 Hk. destruct (H12 Hk) as [Hk2 H2].
    destruct (H23 Hk2) as [Hk3 H3]. split; [done|].
    intros k r Hr. destruct (H2 k r Hr) as (r2 & Hr2 & ? & ? & ? & ? & ?).
    destruct (H3 k r2 Hr2) as (r3 & Hr3 & ? & ? & ? & ? & ?).
    exists r3. split; [done|]. repeat split; try congruence. auto.
Qed.

Lemma remembered_store w w' :
  records w' = records w → recordKey w' = recordKey w → remembered w w'.
Proof.
  intros Hr Hk Hf. unfold record_keys_fresh. rewrite Hr, Hk. split; [done|].
  intros k r Hkr. exists r. by repeat split.
Qed.

Global Instance remembered_ambient : Ambient remembered.
Proof.
  split; [apply _| | |].
  - intros w. rewrite request_world. by apply remembered_store.
  - intros n w. by apply remembered_store.
  - intros ev w. by apply remembered_store.
Qed.

Lemma remembered_markSynced k : respects remembered (db.updateRecord k [db.upd_synced true]).
Proof.
  apply respects_updateRecord; [apply _|]. intros w r Hr Hf. split.
  - intros k' r'. simpl. rewrite lookup_insert. case_decide; [intros _; subst; eauto|eauto].
  - intros k' r' Hr'. simpl. rewrite lookup_insert. case_decide; [|exists r'; by repeat split].
    subst k'. rewrite Hr in Hr'. injection Hr' as <-. eexists. split; [done|].
    by repeat split.
Qed.

Lemma remembered_createRecord r : respects remembered (db.createRecord r).
Proof.
  intros w. rewrite createRecord_run.
  store_cases w; try by apply remembered_store.
  all: intros Hf; split;
    [ intros k' c; simpl; rewrite lookup_insert; case_decide;
      [intros _; subst; lia | intros Hc; apply Hf in Hc; lia]
    | intros k' c Hc; simpl; rewrite lookup_insert_ne;
      [exists c; by repeat split | apply Hf in Hc; lia] ].
Qed.

Lemma remembered_run script w : remembered w (run w script).
Proof.
  apply marking_run; try apply _.
  - intros s w0. rewrite notify_run. destruct (told_store s w0) as (? & _).
    destruct (told_fields s w0) as (_ & _ & _ & _ & _ & ? & _).
    by apply remembered_store.
  - intros cb w0. by apply remembered_store.
  - intros k us w0. rewrite updateQueueItem_run.
    store_cases w0; try destruct (_ !! k); by apply remembered_store.
  - apply remembered_markSynced.
  - apply remembered_createRecord.
  - intros r w0. rewrite enqueueMedia_run. enqueue_cases w0; by apply remembered_store.
  - intros e w0. by apply remembered_store.
Qed.

(** X21. The engine never deletes a record and never rewrites one: through
    every later operation a stored record stays stored under its key with
    the title, description, media descriptors and creation time it has, and a
    record that is marked synced stays marked. *)
Theorem records_are_kept (w : World) (k : nat) (r : LocalRecord) :
  reachable w → records w !! k = Some r →
  ∀ script, ∃ r',
    records (run w script) !! k = Some r' ∧
    rec_title r' = rec_title r ∧ rec_description r' = rec_description r ∧
    rec_mediaFiles r' = rec_mediaFiles r ∧ rec_createdAt r' = rec_createdAt r ∧
    (rec_synced r = true → rec_synced r' = true).
Proof.
  intros [script0 ->] Hr script.
  assert (record_keys_fresh initial) as Hinit.
  { intros k' r'. simpl. by rewrite lookup_empty. }
  destruct (remembered_run script0 initial Hinit) as [Hfresh _].
  destruct (remembered_run script (run initial script0) Hfresh) as [_ Hkeep].
  destruct (Hkeep k r Hr) as (r' & Hr' & Hsame). by exists r'.
Qed.

(** One photo queued offline. *)
Definition photoStored : World :=
  run initial [(offline, OpEnqueue (sync.mkSubmission "trip" None [photo]))].

Lemma records_are_kept_witness :
  ∃ r', records (run photoStored [(calm, OpSyncQueue); (offline, OpRetryFailed)]) !! 1%nat
        = Some r' ∧ rec_title r' = "trip".
Proof.
  destruct (records_are_kept photoStored 1
              (mkRecord 1 "trip" None [mkDescriptor "photo.jpg" "image/jpeg" (2 * MiB)] 0 false)
              ltac:(by eexists) ltac:(vm_compute; reflexivity)
              [(calm, OpSyncQueue); (offline, OpRetryFailed)])
    as (r' & Hr' & Ht & _).
  exists r'. split; [exact Hr'|exact Ht].
Defined.

(** * A submission that is stored *)

(** The item [enqueueMedia] stores under key [k] for [file]. *)
Definition itemFor (s : sync.SubmissionData) (recordId : nat) (w : World)
    (k : nat) (file : File) : QueueItem :=
  storedItem (set_queueKey k w) (requestFor s recordId file).

Lemma enqueueAll_run s recordId files w :
  storeFaults w = [] → keepsTransaction w = true → keys_fresh w →
  ∃ m,
    settleAll (map (λ file, db.enqueueMedia (requestFor s recordId file)) files) w
    = ((λ i, Ok (Fulfilled (queueKey w + i)%nat)) <$> seq 0 (length files),
       set_queueKey (queueKey w + length files) (set_mediaQueue (λ _, m) w)) ∧
    db.getAll m
    = db.getAll (mediaQueue w)
      ++ imap (λ i file, itemFor s recordId w (queueKey w + i) file) files ∧
    (∀ k it, m !! k = Some it → (k < queueKey w + length files)%nat).
Proof.
  revert w. induction files as [|file files IH]; intros w Hf Hkeep Hfresh.
  { exists (mediaQueue w). simpl. rewrite Nat.add_0_r, app_nil_r.
    split; [by destruct w|]. split; [done|]. exact Hfresh. }
  rewrite map_cons, settleAll_cons, enqueueMedia_run, Hf, Hkeep. rewrite (drawn_healthy w Hf).
  cbn [fst snd].
  set (it := storedItem w (requestFor s recordId file)).
  set (w1 := set_queueKey (S (queueKey w)) (set_mediaQueue <[queueKey w := it]> w)).
  destruct (IH w1) as (m & Hrun & Hall & Hkeys).
  { done. }
  { done. }
  { intros k' c. simpl. rewrite lookup_insert. case_decide; [intros _; subst; lia|].
    intros Hc. apply Hfresh in Hc. lia. }
  exists m. rewrite Hrun. split; [|split].
  - cbn [fst snd length seq]. rewrite fmap_cons. rewrite <- fmap_S_seq, <- list_fmap_compose.
    f_equal.
    + f_equal; [by rewrite Nat.add_0_r|]. apply list_fmap_ext. intros i x Hx. simpl.
      do 2 f_equal. lia.
    + subst w1. unfold set_queueKey, set_mediaQueue. simpl. f_equal. lia.
  - rewrite Hall. subst w1. cbn [mediaQueue set_queueKey set_mediaQueue queueKey].
    rewrite getAll_insert_last by exact Hfresh. rewrite <- app_assoc. f_equal.
    cbn [imap app]. f_equal.
    + rewrite keyed_id by done. unfold itemFor. rewrite Nat.add_0_r.
      subst it. unfold storedItem. simpl. done.
    + apply imap_ext. intros i x Hx. unfold itemFor, storedItem. simpl.
      f_equal. lia.
  - intros k c Hc. apply Hkeys in Hc. subst w1. simpl in *. lia.
Qed.

(** In a store that follows the standard no promise of [enqueueMedia] is
    ever settled, and the world stays as it is. *)
Lemma enqueueAll_pending s recordId files w :
  storeFaults w = [] → keepsTransaction w = false →
  settleAll (map (λ file, db.enqueueMedia (requestFor s recordId file)) files) w
  = ((λ _, Ok Pending) <$> files, w).
Proof.
  intros Hf Hstd. induction files as [|file files IH]; [done|].
  rewrite map_cons, settleAll_cons, enqueueMedia_run, Hf, Hstd. rewrite (drawn_healthy w Hf).
  cbn [fst snd]. by rewrite IH.
Qed.

Lemma first_rejection_pending {A B} (l : list B) :
  first_rejection ((λ _, Ok (@Pending A)) <$> l) = None.
Proof. by induction l. Qed.

Lemma fulfilled_values_pending {A B} (l : list B) :
  fulfilled_values ((λ _, Ok (@Pending A)) <$> l) = (λ _, Pending) <$> l.
Proof.
  induction l as [|x l IH]; [done|]. rewrite !fmap_cons.
  unfold fulfilled_values in *. cbn [omap list_omap]. by rewrite IH.
Qed.

(** What the record store holds once the record of [s] is written. *)
Definition recordStored (s : sync.SubmissionData) (w : World) : World :=
  set_recordKey (S (recordKey w))
    (set_records
       <[recordKey w := mkRecord (recordKey w) (sync.title s) (sync.description s)
                          ((λ f, mkDescriptor (file_name f) (file_type f) (size f))
                             <$> sync.mediaFiles s)
                          (clock w) false]> w).

Lemma enqueueSubmission_pending s w :
  keepsTransaction w = false → availableStorage w >= totalSize s → storeFaults w = [] →
  sync.mediaFiles s ≠ [] →
  sync.enqueueSubmission s w = (Ok Pending, recordStored s w) ∧
  mediaQueue (recordStored s w) = mediaQueue w.
Proof.
  intros Hstd Hroom Hf Hfiles. split; [|done]. rewrite enqueueSubmission_run.
  rewrite bool_decide_eq_true_2 by done. rewrite Hf.
  unfold Promise_all. rewrite bind_allSettled.
  unfold recordWritten. rewrite (drawn_healthy w Hf).
  fold (recordFor s). change (set_recordKey _ _) with (recordStored s w).
  rewrite (enqueueAll_pending s (recordKey w) (sync.mediaFiles s) (recordStored s w))
    by done.
  cbn [fst snd]. rewrite first_rejection_pending. unfold ret at 1. cbv beta iota.
  rewrite fulfilled_values_pending.
  destruct (sync.mediaFiles s) as [|file files]; [done|]. done.
Qed.

(** X22. In a store that follows the standard, with room in the storage and
    a healthy store, [enqueueSubmission] writes the record, with the title,
    the description and one descriptor per file, not synced, and nothing
    else.  With at least one file its promise then stays pending for ever: no
    item is stored, no pass is started and nothing is sent.  Only a
    submission without files is answered, with the key of the record, and
    followed by a pass when the device is online. *)
Theorem enqueueSubmission_stops_at_the_queue (s : sync.SubmissionData) (w : World) :
  keepsTransaction w = false → availableStorage w >= totalSize s → storeFaults w = [] →
  let w1 := recordStored s w in
  (sync.mediaFiles s ≠ [] → sync.enqueueSubmission s w = (Ok Pending, w1)) ∧
  (sync.mediaFiles s = [] →
   sync.enqueueSubmission s w
   = (Ok (Fulfilled (recordKey w)), if onLine w then (sync.syncQueue w1).2 else w1)) ∧
  mediaQueue w1 = mediaQueue w ∧ queueKey w1 = queueKey w ∧
  trace w1 = trace w ∧ syncStatus w1 = syncStatus w ∧ network w1 = network w.
Proof.
  intros Hstd Hroom Hf. cbv zeta. split; [|split; [|done]].
  - intros Hfiles. by apply enqueueSubmission_pending.
  - intros Hfiles. rewrite enqueueSubmission_run.
    rewrite bool_decide_eq_true_2 by done. rewrite Hf, Hfiles.
    unfold recordWritten. rewrite (drawn_healthy w Hf).
    unfold recordStored, storedRecord, recordFor. rewrite Hfiles. done.
Qed.

Lemma enqueueSubmission_stops_at_the_queue_witness :
  (sync.enqueueSubmission twoFiles (with_env standard initial)).1 = Ok Pending ∧
  mediaQueue (sync.enqueueSubmission twoFiles (with_env standard initial)).2 = ∅.
Proof.
  destruct (enqueueSubmission_stops_at_the_queue twoFiles (with_env standard initial))
    as (H & _ & Hq & _).
  - reflexivity.
  - vm_compute. intros E. discriminate E.
  - reflexivity.
  - rewrite H by done. split; [reflexivity|]. cbn [snd]. rewrite Hq. reflexivity.
Defined.

(** * Enqueueing that fails *)

(** The stored items of the submission [sid], as
    [getQueueItemsBySubmissionId] lists them. *)
Definition children (sid : nat) (w : World) : list QueueItem :=
  filter (λ it, submissionId it = sid) (db.getAll (mediaQueue w)).

(** The promise of [enqueueMedia] was fulfilled: the item is stored. *)
Definition taken (r : Outcome (Awaited nat)) : bool :=
  match r with
  | Ok (Fulfilled _) => true
  | _ => false
  end.

Lemma enqueueAll_standard s sid files w :
  keepsTransaction w = false →
  mediaQueue (settleAll (map (λ file, db.enqueueMedia (requestFor s sid file)) files) w).2
  = mediaQueue w.
Proof.
  revert w. induction files as [|file files IH]; intros w Hstd; [done|].
  rewrite map_cons, settleAll_cons, enqueueMedia_run, Hstd. cbn [snd].
  destruct (storeFaults w) as [|[e|] rest]; cbn [snd]; by rewrite IH.
Qed.

Lemma enqueueAll_children s sid files w :
  keys_fresh w →
  let r := settleAll (map (λ file, db.enqueueMedia (requestFor s sid file)) files) w in
  keys_fresh r.2 ∧
  length (children sid r.2)
  = (length (children sid w) + length (filter (λ o, taken o = true) r.1))%nat.
Proof.
  revert w. induction files as [|file files IH]; intros w Hfresh; cbv zeta.
  { simpl. split; [done|]. lia. }
  rewrite map_cons, settleAll_cons, enqueueMedia_run.
  set (it := storedItem w (requestFor s sid file)).
  assert (keys_fresh (drawn w)) as Hd by done.
  assert (children sid (drawn w) = children sid w) as Hcd by done.
  destruct (storeFaults w) as [|[e|] rest] eqn:Hf; destruct (keepsTransaction w) eqn:Hk;
    cbn [fst snd].
  2, 3, 4, 6: destruct (IH (drawn w) Hd) as (IH1 & IH2); cbv zeta in IH1, IH2;
    split; [exact IH1|]; rewrite IH2, Hcd;
    rewrite filter_cons; cbn [taken]; by case_decide.
  all: set (w1 := set_queueKey (S (queueKey w))
                    (set_mediaQueue <[queueKey w := it]> (drawn w))).
  all: assert (keys_fresh w1) as Hfresh1
         by (intros k' c; simpl; rewrite lookup_insert; case_decide;
             [intros _; subst; lia | intros Hc; apply Hfresh in Hc; lia]).
  all: assert (children sid w1 = children sid w ++ [it]) as Hc1.
  1, 3: unfold children; subst w1;
    cbn [mediaQueue set_queueKey set_mediaQueue drawn set_storeFaults];
    rewrite getAll_insert_last by exact Hfresh;
    rewrite filter_app, keyed_id by done;
    by rewrite filter_cons, decide_True by done.
  all: destruct (IH w1 Hfresh1) as (IH1 & IH2); cbv zeta in IH1, IH2;
    split; [exact IH1|]; rewrite IH2, Hc1, length_app;
    rewrite filter_cons; cbn [taken]; rewrite decide_True by done; simpl; lia.
Qed.

Lemma rejection_not_taken (rs : list (Outcome (Awaited nat))) e :
  first_rejection rs = Some e → (length (filter (λ o, taken o = true) rs) < length rs)%nat.
Proof.
  induction rs as [|[a|e0] rs IH]; [done| |].
  - intros H. simpl in H. specialize (IH H). rewrite filter_cons. case_decide; simpl; lia.
  - intros _. rewrite filter_cons. cbn [taken]. rewrite decide_False by done.
    pose proof (length_filter (λ o, taken o = true) rs). simpl. lia.
Qed.

(** Two files, in a store that follows the standard, takes the record and
    opens the transaction for the first item, and cannot open the one for the
    second. *)
Definition failingStore : World :=
  with_env (mkEnv false (Some (Some 1000000000, Some 0)) 0
                  [None; None;
                   Some (mkError "InvalidStateError" "The database connection is closing.")]
                  [] false)
           initial.

(** Enqueue fails, and the record stays, with no child for two files. *)
Lemma enqueue_leaves_record_without_items :
  (sync.enqueueSubmission twoFiles failingStore).1
    = Throw (mkError "InvalidStateError" "The database connection is closing.") ∧
  is_Some (records (sync.enqueueSubmission twoFiles failingStore).2 !! 1%nat) ∧
  records failingStore !! 1%nat = None ∧
  children 1 (sync.enqueueSubmission twoFiles failingStore).2 = [] ∧
  length (sync.mediaFiles twoFiles) = 2%nat.
Proof.
  split; [vm_compute; reflexivity|]. split; [|split; [|split]].
  - assert (records (sync.enqueueSubmission twoFiles failingStore).2 !! 1%nat
            = Some (mkRecord 1 "trip" None
                      [mkDescriptor "photo.jpg" "image/jpeg" (2 * MiB);
                       mkDescriptor "video.mp4" "video/mp4" (22 * MiB)] 0 false)) as ->
      by (vm_compute; reflexivity).
    by eexists.
  - vm_compute. reflexivity.
  - vm_compute. reflexivity.
  - reflexivity.
Qed.

(** C1, as the code has it. When the payload does not fit the available
    storage, or the write of the Record fails, enqueue fails and neither store
    is touched. When it fails after the Record was written, because the store
    rejects the enqueueing of a file, the Record stays persisted: nothing is
    rolled back, and the Record is left with fewer children than files
    supplied; in a store that follows the standard the queue is as it
    was. *)
Theorem enqueue_failure_persistence (s : sync.SubmissionData) (w : World) :
  let result := (sync.enqueueSubmission s w).1 in
  let w' := (sync.enqueueSubmission s w).2 in
  (availableStorage w < totalSize s →
   (∃ e, result = Throw e) ∧ records w' = records w ∧ mediaQueue w' = mediaQueue w) ∧
  (∀ e rest, storeFaults w = Some e :: rest →
   (∃ e', result = Throw e') ∧ records w' = records w ∧ mediaQueue w' = mediaQueue w) ∧
  (∀ e, result = Throw e → availableStorage w >= totalSize s →
   (∀ e' rest, storeFaults w ≠ Some e' :: rest) →
   records w' = <[recordKey w := storedRecord w (recordFor s)]> (records w) ∧
   (keepsTransaction w = false → mediaQueue w' = mediaQueue w) ∧
   (keys_fresh w → children (recordKey w) w = [] →
    (length (children (recordKey w) w') < length (sync.mediaFiles s))%nat)).
Proof.
  cbv zeta. rewrite enqueueSubmission_run. split; [|split].
  - intros Hlt. rewrite bool_decide_eq_false_2 by lia. simpl. eauto.
  - intros e rest E. rewrite E. case_bool_decide; simpl; eauto.
  - intros e He Hge Hok. rewrite bool_decide_eq_true_2 in * by done.
    set (tasks := map (λ file, db.enqueueMedia (requestFor s (recordKey w) file))
                      (sync.mediaFiles s)) in *.
    pose proof (respects_all same_records tasks) as Hall.
    specialize (Hall (λ t Ht, ltac:(apply list_elem_of_fmap in Ht as (f & -> & _);
                                    apply same_records_enqueueMedia)) (recordWritten s w)).
    assert (∀ e1 w2, Promise_all tasks (recordWritten s w) = (Throw e1, w2) →
      (keepsTransaction w = false → mediaQueue w2 = mediaQueue w) ∧
      (keys_fresh w → children (recordKey w) w = [] →
       (length (children (recordKey w) w2) < length (sync.mediaFiles s))%nat)) as Hq.
    { intros e1 w2. unfold Promise_all. rewrite bind_allSettled.
      destruct (first_rejection (settleAll tasks (recordWritten s w)).1) as [e2|] eqn:Hrej;
        [|done].
      intros [= _ <-].
      split.
      - intros Hstd.
        exact (enqueueAll_standard s (recordKey w) (sync.mediaFiles s)
                 (recordWritten s w) Hstd).
      - intros Hfresh Hnone.
        destruct (enqueueAll_children s (recordKey w) (sync.mediaFiles s)
                    (recordWritten s w) Hfresh) as (_ & Hlen).
        cbv zeta in Hlen. fold tasks in Hlen. rewrite Hlen.
        change (children (recordKey w) (recordWritten s w)) with (children (recordKey w) w).
        rewrite Hnone. simpl.
        pose proof (rejection_not_taken _ _ Hrej) as Hlt.
        rewrite settleAll_length in Hlt. unfold tasks in Hlt at 2.
        by rewrite length_map in Hlt. }
    destruct (storeFaults w) as [|[e0|] rest] eqn:E.
    + destruct (Promise_all _ _) as [[v|e1] w2] eqn:EP;
        [by destruct (forallb fulfilled v)|].
      simpl in *. split; [exact Hall|]. by apply (Hq e1).
    + by destruct (Hok e0 rest).
    + destruct (Promise_all _ _) as [[v|e1] w2] eqn:EP;
        [by destruct (forallb fulfilled v)|].
      simpl in *. split; [exact Hall|]. by apply (Hq e1).
Qed.

(** A submission larger than the storage left. *)
Definition cramped : World :=
  with_env (mkEnv true (Some (Some (10 * MiB), Some 0)) 0 [] [] false) initial.

Lemma enqueue_failure_persistence_witness :
  records (sync.enqueueSubmission twoFiles cramped).2 = records cramped ∧
  mediaQueue (sync.enqueueSubmission twoFiles cramped).2 = mediaQueue cramped ∧
  records (sync.enqueueSubmission twoFiles failingStore).2
  = <[1%nat := storedRecord failingStore (recordFor twoFiles)]> (records failingStore) ∧
  (length (children 1 (sync.enqueueSubmission twoFiles failingStore).2) < 2)%nat.
Proof.
  destruct (enqueue_failure_persistence twoFiles cramped) as (H1 & _ & _).
  destruct (enqueue_failure_persistence twoFiles failingStore) as (_ & _ & H3).
  destruct H1 as (_ & Hr & Hq); [vm_compute; reflexivity|].
  split; [exact Hr|]. split; [exact Hq|].
  destruct (H3 (mkError "InvalidStateError" "The database connection is closing."))
    as (Hrec & _ & Hless).
  - vm_compute. reflexivity.
  - vm_compute. intros H. discriminate H.
  - intros e rest H. vm_compute in H. discriminate H.
  - split; [exact Hrec|]. apply Hless.
    + intros k it. simpl. by rewrite lookup_empty.
    + reflexivity.
Defined.

(** * The page *)

Lemma includes_empty sub : sub ≠ "" → includes "" sub = false.
Proof. destruct sub; [done|]. done. Qed.

(** The quota test of the page sees through the [catch] of
    [enqueueSubmission]. *)
Lemma isQuotaError_rethrown e : ui.isQuotaError (rethrown e) = ui.isQuotaError e.
Proof.
  unfold rethrown, ui.isQuotaError, utils.handleQuotaError.
  destruct (String.eqb (err_name e) "QuotaExceededError") eqn:En; cbn [orb].
  { vm_compute. reflexivity. }
  destruct (includes (err_message e) "quota") eqn:Em; cbn [orb].
  - cbn [utils.qe_message newError err_name err_message str_or].
    destruct (String.eqb (err_message e) "") eqn:E0.
    + apply String.eqb_eq in E0. rewrite E0 in Em. by rewrite includes_empty in Em.
    + by rewrite Em.
  - by rewrite En, Em.
Qed.

Lemma rethrown_other e : ui.isQuotaError e = false → rethrown e = e.
Proof. unfold rethrown, ui.isQuotaError. by intros ->. Qed.

Lemma onSubmit_run title description mediaFiles w :
  title ≠ "" → mediaFiles ≠ [] →
  ui.onSubmit title description mediaFiles w =
  match sync.enqueueSubmission (sync.mkSubmission title (Some description) mediaFiles) w with
  | (Ok (Fulfilled _), w1) =>
      (Ok (Fulfilled ui.AlertCreated), (ui.loadQueue (ui.loadSubmissions w1).2).2)
  | (Ok Pending, w1) => (Ok Pending, w1)
  | (Throw e, w1) =>
      (Ok (Fulfilled (if ui.isQuotaError e then ui.AlertQuota
                      else ui.AlertError ("Error creating submission: " +:+ err_message e))),
       w1)
  end.
Proof.
  intros Ht Hm. unfold ui.onSubmit.
  assert (String.eqb title "" = false) as -> by by apply String.eqb_neq.
  rewrite bool_decide_eq_false_2 by (by destruct mediaFiles). cbn [orb].
  unfold try_catch. rewrite bind_run.
  destruct (sync.enqueueSubmission _ w) as [[[k|]|e] w1]; [done|done|].
  by destruct (ui.isQuotaError e).
Qed.

(** In a store that follows the standard, a submission with a file is never
    answered. *)
Lemma enqueueSubmission_unanswered s w k :
  keepsTransaction w = false → sync.mediaFiles s ≠ [] →
  (sync.enqueueSubmission s w).1 ≠ Ok (Fulfilled k).
Proof.
  intros Hstd Hfiles. rewrite enqueueSubmission_run.
  case_bool_decide; [|done].
  assert (∀ w1, keepsTransaction w1 = false →
    ∀ v w2, Promise_all (map (λ file, db.enqueueMedia (requestFor s (recordKey w) file))
                             (sync.mediaFiles s)) w1 = (Ok v, w2) →
    forallb fulfilled v = false) as Hall.
  { intros w1 Hstd1 v w2. unfold Promise_all. rewrite bind_allSettled.
    destruct (sync.mediaFiles s) as [|file files]; [done|].
    rewrite map_cons, settleAll_cons, enqueueMedia_run, Hstd1. cbn [fst snd].
    destruct (storeFaults w1) as [|[e|] rest]; cbn [fst snd first_rejection]; try done.
    all: destruct (first_rejection _); [done|]; by intros [= <- _]. }
  destruct (storeFaults w) as [|[e|] rest]; try done.
  all: destruct (Promise_all _ _) as [[v|e1] w2] eqn:E; [|done];
    by rewrite (Hall (recordWritten s w) Hstd _ _ E).
Qed.

(** X23. The form never throws.  Without a title or without a file it asks
    for them and the engine is not called; when the storage left is smaller
    than the files it alerts that the quota is exceeded and nothing is
    stored; when the store rejects the write of the record it shows that
    error.  In a store that follows the standard it never reports a
    submission as created: with a title, a file, room and a healthy store the
    record is written and the handler then waits for ever, showing no alert,
    with no item stored. *)
Theorem onSubmit_never_reports_success
    (title description : string) (mediaFiles : list File) (w : World) :
  let s := sync.mkSubmission title (Some description) mediaFiles in
  let r := ui.onSubmit title description mediaFiles w in
  (∃ a, r.1 = Ok a) ∧
  (title = "" ∨ mediaFiles = [] → r = (Ok (Fulfilled ui.AlertMissing), w)) ∧
  (title ≠ "" → mediaFiles ≠ [] → availableStorage w < totalSize s →
   r = (Ok (Fulfilled ui.AlertQuota), w)) ∧
  (title ≠ "" → mediaFiles ≠ [] → availableStorage w >= totalSize s →
   ∀ e rest, storeFaults w = Some e :: rest →
     r = (Ok (Fulfilled (if ui.isQuotaError e then ui.AlertQuota
                         else ui.AlertError ("Error creating submission: " +:+
                                             err_message e))),
          drawn w)) ∧
  (keepsTransaction w = false →
   r.1 ≠ Ok (Fulfilled ui.AlertCreated) ∧
   (title ≠ "" → mediaFiles ≠ [] → availableStorage w >= totalSize s →
    storeFaults w = [] →
    r = (Ok Pending, recordStored s w) ∧
    mediaQueue (recordStored s w) = mediaQueue w)).
Proof.
  cbv zeta.
  assert (title = "" ∨ mediaFiles = [] →
          ui.onSubmit title description mediaFiles w
          = (Ok (Fulfilled ui.AlertMissing), w)) as Hmissing.
  { intros H. unfold ui.onSubmit. destruct H as [-> | ->]; [done|].
    cbn [length]. rewrite bool_decide_eq_true_2 by done. by rewrite orb_true_r. }
  destruct (decide (title = "")) as [Ht|Ht].
  { rewrite Hmissing by auto. split; [by eexists|]. split; [done|].
    split; [done|]. split; [done|]. intros _. split; [done|done]. }
  destruct (decide (mediaFiles = [])) as [Hm|Hm].
  { rewrite Hmissing by auto. split; [by eexists|]. split; [done|].
    split; [done|]. split; [done|]. intros _. split; [done|done]. }
  rewrite onSubmit_run by done. split; [|split; [|split; [|split]]].
  - destruct (sync.enqueueSubmission _ w) as [[[k|]|e] w1]; by eexists.
  - by intros [?|?].
  - intros _ _ Hlt. rewrite enqueueSubmission_run.
    rewrite bool_decide_eq_false_2 by lia. vm_compute. reflexivity.
  - intros _ _ Hge e rest Hf. rewrite enqueueSubmission_run.
    rewrite bool_decide_eq_true_2 by done. rewrite Hf.
    rewrite isQuotaError_rethrown.
    destruct (ui.isQuotaError e) eqn:E; [done|]. by rewrite rethrown_other.
  - intros Hstd. split.
    + pose proof (enqueueSubmission_unanswered
                    (sync.mkSubmission title (Some description) mediaFiles) w) as Hun.
      destruct (sync.enqueueSubmission _ w) as [[[k|]|e] w1]; cbn [fst] in *.
      * by destruct (Hun k Hstd Hm).
      * done.
      * by destruct (ui.isQuotaError e).
    + intros _ _ Hroom Hf.
      destruct (enqueueSubmission_pending
                  (sync.mkSubmission title (Some description) mediaFiles) w Hstd Hroom Hf)
        as [-> Hq]; [exact Hm|]. done.
Qed.

Lemma onSubmit_never_reports_success_witness :
  ui.onSubmit "trip" "" [photo] (with_env standard initial)
  = (Ok Pending,
     recordStored (sync.mkSubmission "trip" (Some "") [photo]) (with_env standard initial)).
Proof.
  destruct (onSubmit_never_reports_success "trip" "" [photo] (with_env standard initial))
    as (_ & _ & _ & _ & H).
  destruct H as [_ H]; [reflexivity|].
  destruct H as [H _]; [done|done|vm_compute; intros E; discriminate E|reflexivity|].
  exact H.
Defined.

(** ** The queue as it is shown *)

Section Sorting.
Context {A : Type} (compare : A → A → Z).
Hypothesis compare_total : ∀ a b, compare a b ≤ 0 ∨ compare b a ≤ 0.
Hypothesis compare_trans : ∀ a b c, compare a b ≤ 0 → compare b c ≤ 0 → compare a c ≤ 0.

Lemma insertBy_Permutation x l : ui.insertBy compare x l ≡ₚ x :: l.
Proof.
  induction l as [|y l IH]; [done|]. simpl. case_decide; [done|].
  rewrite IH. apply Permutation_swap.
Qed.

Lemma Array_sort_Permutation l : ui.Array_sort compare l ≡ₚ l.
Proof.
  induction l as [|x l IH]; [done|]. simpl. rewrite insertBy_Permutation. by rewrite IH.
Qed.

Lemma insertBy_sorted x l :
  StronglySorted (λ a b, compare a b ≤ 0) l →
  StronglySorted (λ a b, compare a b ≤ 0) (ui.insertBy compare x l).
Proof.
  induction 1 as [|y l Hl IH Hy]; simpl; [repeat constructor|].
  case_decide as Hxy.
  - constructor; [by constructor|]. constructor; [done|].
    eapply Forall_impl; [exact Hy|]. intros z Hz. by apply (compare_trans x y z).
  - constructor; [exact IH|]. rewrite insertBy_Permutation. constructor; [|done].
    destruct (compare_total x y); [done|done].
Qed.

Lemma Array_sort_sorted l :
  StronglySorted (λ a b, compare a b ≤ 0) (ui.Array_sort compare l).
Proof. induction l as [|x l IH]; simpl; [constructor|by apply insertBy_sorted]. Qed.
End Sorting.

Lemma sorted_weaken {A} (R1 R2 : relation A) l :
  (∀ a b, R1 a b → R2 a b) → StronglySorted R1 l → StronglySorted R2 l.
Proof.
  intros H. induction 1 as [|x l Hl IH Hx]; constructor; [done|].
  eapply Forall_impl; [exact Hx|]. intros y. apply H.
Qed.

Lemma compareItems_order a b :
  ui.compareItems a b ≤ 0 ↔
  ui.statusOrder (status a) < ui.statusOrder (status b) ∨
  (status a = status b ∧ createdAt a ≤ createdAt b).
Proof.
  unfold ui.compareItems. case_decide as H.
  - split; [intros; left; lia|]. intros [?|[E _]]; [lia|]. by rewrite E in H.
  - assert (status a = status b) as E.
    { destruct (status a), (status b); simpl in H; try done; exfalso; apply H; lia. }
    split; [intros; right; split; [done|lia]|]. intros [?|[_ ?]]; lia.
Qed.

Lemma loadQueue_run w :
  storeFaults w = [] →
  ui.loadQueue w
  = (Ok (ui.mkView (Some (Z.of_nat (length (pendingOf w))))
                   (Some (ui.Array_sort ui.compareItems (db.getAll (mediaQueue w))))), w).
Proof.
  intros Hf. unfold ui.loadQueue, settle, sync.getSyncStats.
  rewrite bind_run, bind_run, getAllQueueItems_run, Hf. rewrite (drawn_healthy w Hf).
  cbv zeta. unfold ret at 1. cbv beta iota.
  unfold try_catch. rewrite bind_run, getAllQueueItems_run, Hf. rewrite (drawn_healthy w Hf).
  done.
Qed.

(** X24. With a healthy store [loadQueue] changes nothing and shows every
    stored item once, ordered by status (pending, uploading, synced, failed)
    and, within one status, by creation time; the count it shows is the
    number of pending items shown.  When the first read fails it shows the
    error state and leaves the count as it was, and it never throws. *)
Theorem loadQueue_shows_sorted_queue (w : World) :
  (storeFaults w = [] →
   ∃ shown,
     ui.loadQueue w
     = (Ok (ui.mkView (Some (Z.of_nat (length (filter (λ i, status i = pending) shown))))
                      (Some shown)), w) ∧
     shown ≡ₚ db.getAll (mediaQueue w) ∧
     StronglySorted (λ a b, ui.statusOrder (status a) < ui.statusOrder (status b) ∨
                            (status a = status b ∧ createdAt a ≤ createdAt b)) shown) ∧
  (∀ e rest, storeFaults w = Some e :: rest →
     ui.loadQueue w = (Ok (ui.mkView None None), drawn w)) ∧
  (∃ v, (ui.loadQueue w).1 = Ok v).
Proof.
  split; [|split].
  - intros Hf. exists (ui.Array_sort ui.compareItems (db.getAll (mediaQueue w))).
    assert (∀ a b, ui.compareItems a b ≤ 0 ∨ ui.compareItems b a ≤ 0) as Htotal.
    { intros a b. unfold ui.compareItems. repeat case_decide; lia. }
    assert (∀ a b c, ui.compareItems a b ≤ 0 → ui.compareItems b c ≤ 0 →
                     ui.compareItems a c ≤ 0) as Htrans.
    { intros a b c. unfold ui.compareItems. repeat case_decide; lia. }
    split; [|split].
    + rewrite loadQueue_run by done.
      assert (length (pendingOf w)
              = length (filter (λ i, status i = pending)
                          (ui.Array_sort ui.compareItems (db.getAll (mediaQueue w))))) as ->;
        [|done].
      unfold pendingOf. apply Permutation_length.
      apply filter_Permutation. symmetry. by apply Array_sort_Permutation.
    + apply Array_sort_Permutation.
    + eapply sorted_weaken; [|by apply Array_sort_sorted].
      intros a b. apply compareItems_order.
  - intros e rest Hf. unfold ui.loadQueue, settle, sync.getSyncStats.
    rewrite bind_run, bind_run, getAllQueueItems_run, Hf. done.
  - unfold ui.loadQueue, settle. rewrite bind_run.
    destruct (sync.getSyncStats w) as [[st|e] w1]; [|by eexists].
    unfold try_catch. rewrite bind_run.
    destruct (db.getAllQueueItems w1) as [[l|e] w2]; by eexists.
Qed.

(** X25. A selection the file input keeps holds no file above 500 MiB and at
    most 2 GiB in all, so no kept file needs more than 100 chunks; the mark
    "will use chunked upload" it shows for a file is the flag the engine
    stores for it.  A selection with a file above 500 MiB is refused, and
    the alert shows that file. *)
Theorem onFilesChange_bounds (files : list File) :
  (∀ fileInfo, ui.onFilesChange files = ui.Selected fileInfo →
     Forall (λ f, size f ≤ 500 * 1024 * 1024 ∧ api.totalChunksOf (size f) ≤ 100) files ∧
     foldl (λ sum file, sum + size file) 0 files ≤ 2 * 1024 * 1024 * 1024 ∧
     fileInfo = (λ f, (file_name f, size f, api.shouldUseChunkedUpload f)) <$> files) ∧
  (∀ f, f ∈ files → size f > 500 * 1024 * 1024 →
     ∃ shown, ui.onFilesChange files = ui.TooLarge shown ∧ (file_name f, size f) ∈ shown).
Proof.
  unfold ui.onFilesChange. cbv zeta. split.
  - intros fileInfo. case_bool_decide as Hbig; [done|].
    case_bool_decide as Htotal; [done|]. intros [= <-].
    split; [|split; [unfold ui.MAX_TOTAL_SIZE in Htotal; lia|done]].
    apply Forall_forall. intros f Hf.
    assert (size f ≤ 500 * 1024 * 1024) as Hsize.
    { destruct (decide (size f > ui.MAX_FILE_SIZE)) as [Hgt|Hle];
        [|unfold ui.MAX_FILE_SIZE in Hle; lia].
      exfalso. apply Hbig. rewrite length_fmap.
      assert (f ∈ filter (λ file, size file > ui.MAX_FILE_SIZE) files) as Hin
        by by apply list_elem_of_filter.
      destruct (filter _ files); [by apply elem_of_nil in Hin|simpl; lia]. }
    split; [done|].
    pose proof (totalChunksOf_ceil (size f)) as Hceil. unfold api.CHUNK_SIZE in Hceil. lia.
  - intros f Hf Hgt.
    assert (f ∈ filter (λ file, size file > ui.MAX_FILE_SIZE) files) as Hin
      by by apply list_elem_of_filter.
    rewrite bool_decide_eq_true_2.
    + eexists. split; [done|].
      by apply (list_elem_of_fmap_2 (λ file, (file_name file, size file))).
    + rewrite length_fmap. destruct (filter _ files); [by apply elem_of_nil in Hin|simpl; lia].
Qed.

(** * Items and their records *)

Lemma merge_names it us :
  fileName (merge it us) = fileName it ∧ fileType (merge it us) = fileType it.
Proof.
  revert it. induction us as [|u us IH]; intros it; [done|].
  unfold merge in *. simpl. destruct (IH (assign it u)) as (-> & ->).
  by destruct u.
Qed.

(** The record lists the file of the item. *)
Definition listed (it : QueueItem) (r : LocalRecord) : Prop :=
  ∃ d, d ∈ rec_mediaFiles r ∧
       d_name d = fileName it ∧ d_type d = fileType it ∧ d_size d = fileSize it.

(** Every stored item has its parent record, and the record lists it. *)
Definition Linked (w : World) : Prop :=
  record_keys_fresh w ∧
  ∀ k it, mediaQueue w !! k = Some it →
    ∃ r, records w !! submissionId it = Some r ∧ listed it r.

Definition linking (w w' : World) : Prop := Linked w → Linked w'.

Global Instance linking_preorder : PreOrder linking.
Proof. split; [intros w H; exact H|]. intros w1 w2 w3 H1 H2 H. by apply H2, H1. Qed.

Lemma linking_store w w' :
  records w' = records w → recordKey w' = recordKey w → mediaQueue w' = mediaQueue w →
  linking w w'.
Proof. intros Hr Hk Hq. unfold linking, Linked, record_keys_fresh. by rewrite Hr, Hk, Hq. Qed.

Global Instance linking_ambient : Ambient linking.
Proof.
  split; [apply _| | |].
  - intros w. rewrite request_world. by apply linking_store.
  - intros n w. by apply linking_store.
  - intros ev w. by apply linking_store.
Qed.

Lemma linking_notify s : respects linking (sync.notifySyncStatusChange s).
Proof.
  intros w. rewrite notify_run. destruct (told_store s w) as (? & ? & _).
  destruct (told_fields s w) as (_ & _ & _ & _ & _ & ? & _). by apply linking_store.
Qed.

Lemma linking_updateQueueItem k us : respects linking (db.updateQueueItem k us).
Proof.
  apply respects_updateQueueItem; [apply _|]. intros w it Hit [Hfresh Hl].
  split; [exact Hfresh|]. intros k' c. simpl. rewrite lookup_insert. case_decide.
  - intros [= <-]. destruct (Hl k it Hit) as (r & Hr & d & Hd & Hn & Ht & Hs).
    destruct (merge_static (keyed k it) us) as (_ & Ms & Mfs & _).
    destruct (merge_names (keyed k it) us) as (Mn & Mt).
    exists r. rewrite Ms. split; [done|]. exists d. by rewrite Mn, Mt, Mfs.
  - apply Hl.
Qed.

Lemma linking_markSynced k : respects linking (db.updateRecord k [db.upd_synced true]).
Proof.
  apply respects_updateRecord; [apply _|]. intros w r Hr [Hfresh Hl]. split.
  - intros k' r'. simpl. rewrite lookup_insert. case_decide; [intros _; subst; eauto|eauto].
  - intros k' c Hc. simpl. destruct (Hl k' c Hc) as (r' & Hr' & Hlist).
    rewrite lookup_insert. case_decide; [|by exists r'].
    subst k. rewrite Hr in Hr'. injection Hr' as <-. eexists. split; [done|]. exact Hlist.
Qed.

Lemma linking_syncQueue : respects linking sync.syncQueue.
Proof.
  apply marking_syncQueue; try apply _.
  - apply linking_notify.
  - apply linking_updateQueueItem.
  - apply linking_markSynced.
Qed.

Lemma linking_retryFailedItems : respects linking sync.retryFailedItems.
Proof.
  apply marking_retryFailedItems; try apply _.
  - apply linking_notify.
  - apply linking_updateQueueItem.
  - apply linking_markSynced.
Qed.

(** The record of the submission [s] is stored under [recordId]. *)
Definition parent (s : sync.SubmissionData) (recordId : nat) (w : World) : Prop :=
  ∃ r, records w !! recordId = Some r ∧ rec_mediaFiles r = nr_mediaFiles (recordFor s).

Definition linking_for (s : sync.SubmissionData) (recordId : nat) (w w' : World) : Prop :=
  Linked w ∧ parent s recordId w → Linked w' ∧ parent s recordId w'.

Global Instance linking_for_preorder s recordId : PreOrder (linking_for s recordId).
Proof. split; [intros w H; exact H|]. intros w1 w2 w3 H1 H2 H. by apply H2, H1. Qed.

Lemma linking_for_enqueueMedia s recordId file :
  file ∈ sync.mediaFiles s →
  respects (linking_for s recordId) (db.enqueueMedia (requestFor s recordId file)).
Proof.
  intros Hfile w. rewrite enqueueMedia_run.
  assert (linking_for s recordId w (drawn w)) as Hdrawn by by intros H.
  assert (linking_for s recordId w
            (set_queueKey (S (queueKey w))
               (set_mediaQueue <[queueKey w := storedItem w (requestFor s recordId file)]>
                  (drawn w)))) as Hput.
  { intros [[Hfresh Hl] (r & Hr & Hm)]. split; [split; [exact Hfresh|]|by exists r].
    intros k c. simpl. rewrite lookup_insert. case_decide; [|apply Hl].
    intros [= <-]. simpl. exists r. split; [done|].
    exists (mkDescriptor (file_name file) (file_type file) (size file)).
    split; [|done]. rewrite Hm. simpl. apply list_elem_of_fmap.
    by exists file. }
  by destruct (storeFaults w) as [|[e|] rest]; destruct (keepsTransaction w).
Qed.

Lemma Linked_recordWritten s w :
  Linked w → Linked (recordWritten s w) ∧ parent s (recordKey w) (recordWritten s w).
Proof.
  intros [Hfresh Hl]. split; [split|].
  - intros k r. simpl. rewrite lookup_insert. case_decide; [intros _; subst; lia|].
    intros Hr. apply Hfresh in Hr. lia.
  - intros k it Hit. simpl in *. destruct (Hl k it Hit) as (r & Hr & Hlist).
    exists r. split; [|done]. rewrite lookup_insert_ne; [done|].
    apply Hfresh in Hr. lia.
  - eexists. simpl. rewrite lookup_insert_eq. done.
Qed.

Lemma linking_enqueueSubmission s : respects linking (sync.enqueueSubmission s).
Proof.
  intros w HL. rewrite enqueueSubmission_run.
  case_bool_decide; [|done].
  assert (Linked (drawn w)) as Hdrawn by by apply (linking_store w).
  pose proof (respects_all (linking_for s (recordKey w))
    (map (λ file, db.enqueueMedia (requestFor s (recordKey w) file)) (sync.mediaFiles s)))
    as Hall.
  specialize (Hall (λ t Ht, ltac:(apply list_elem_of_fmap in Ht as (f & -> & Hf);
                                  by apply linking_for_enqueueMedia)) (recordWritten s w)
                   (Linked_recordWritten s w HL)).
  destruct Hall as [Hall _].
  destruct (storeFaults w) as [|[e|] rest]; [|done|].
  all: destruct (Promise_all _ _) as [[v|e1] w2]; cbn [fst snd] in *; [|done];
    destruct (forallb fulfilled v); [|done];
    destruct (onLine w2); [by apply linking_syncQueue|done].
Qed.

Lemma Linked_run script w : Linked w → Linked (run w script).
Proof.
  revert w. induction script as [|[e op] script IH]; intros w HL; [done|].
  simpl. apply IH. unfold step. cbn [fst snd].
  assert (Linked (with_env e w)) as HL' by by apply (linking_store w).
  destruct op; cbn [perform].
  - by apply linking_enqueueSubmission.
  - by apply linking_syncQueue.
  - by apply linking_retryFailedItems.
  - revert HL'. by apply linking_store.
  - by apply linking_syncQueue.
  - by apply linking_notify.
Qed.

Lemma Linked_initial : Linked initial.
Proof. split; intros k x; simpl; by rewrite lookup_empty. Qed.

(** X26. In every world the engine reaches, every queue item has its parent
    record, whose key was handed out before, and the record lists a media
    file with the name, the type and the size of the item. *)
Theorem items_have_their_record (w : World) (k : nat) (it : QueueItem) :
  reachable w → mediaQueue w !! k = Some it →
  ∃ r, records w !! submissionId it = Some r ∧
       (submissionId it < recordKey w)%nat ∧
       ∃ d, d ∈ rec_mediaFiles r ∧
            d_name d = fileName it ∧ d_type d = fileType it ∧ d_size d = fileSize it.
Proof.
  intros [script ->] Hit.
  destruct (Linked_run script initial Linked_initial) as [Hfresh Hl].
  destruct (Hl k it Hit) as (r & Hr & Hlist).
  exists r. split; [done|]. split; [by apply (Hfresh _ r)|done].
Qed.

Lemma items_have_their_record_witness :
  ∃ r, records videoQueued !! submissionId videoItem = Some r ∧
       (submissionId videoItem < recordKey videoQueued)%nat.
Proof.
  destruct (items_have_their_record videoQueued 1 videoItem) as (r & Hr & Hk & _).
  - by eexists.
  - vm_compute. reflexivity.
  - by exists r.
Defined.

(** ** The sync button *)

(** What a read leaves as it was. *)
Definition untouched (w w' : World) : Prop :=
  mediaQueue w' = mediaQueue w ∧ records w' = records w ∧
  trace w' = trace w ∧ syncStatus w' = syncStatus w.

Global Instance untouched_preorder : PreOrder untouched.
Proof.
  split; [done|]. intros w1 w2 w3 (?&?&?&?) (?&?&?&?). repeat split; congruence.
Qed.

Lemma untouched_request : respects untouched db.request.
Proof. intros w. by rewrite request_world. Qed.

Lemma untouched_loadQueue : respects untouched ui.loadQueue.
Proof.
  unfold ui.loadQueue, sync.getSyncStats, db.getAllQueueItems. cbv zeta.
  respects_with ltac:(apply untouched_request).
Qed.

Lemma untouched_loadSubmissions : respects untouched ui.loadSubmissions.
Proof.
  unfold ui.loadSubmissions, db.getAllRecords.
  respects_with ltac:(apply untouched_request).
Qed.

(** X27. The sync button never throws.  Offline, or while a pass is
    running, it reports "0 synced, 0 failed" although nothing was tried, and
    only reads the stores; when the pass throws, which it does for a failed
    read of the queue, it shows "Error syncing: " and the message of the
    error. *)
Theorem onSyncNow_alerts (w : World) :
  (∃ a, (ui.onSyncNow w).1 = Ok a) ∧
  (onLine w = false ∨ syncStatus w = SYNCING →
   (ui.onSyncNow w).1 = Ok (ui.AlertSyncComplete 0 0) ∧
   mediaQueue (ui.onSyncNow w).2 = mediaQueue w ∧ records (ui.onSyncNow w).2 = records w ∧
   trace (ui.onSyncNow w).2 = trace w ∧ syncStatus (ui.onSyncNow w).2 = syncStatus w) ∧
  (onLine w = true → syncStatus w ≠ SYNCING →
   ∀ e, nextFault w = Some e →
     (ui.onSyncNow w).1 = Ok (ui.AlertError ("Error syncing: " +:+ err_message e))).
Proof.
  unfold ui.onSyncNow, try_catch. rewrite bind_run.
  split; [|split].
  - destruct (sync.syncQueue w) as [[c|e] w1]; by eexists.
  - intros H. rewrite syncQueue_idle by done. cbn [fst snd].
    unfold detached. rewrite !bind_run. cbn [fst snd]. split; [done|].
    pose proof (untouched_loadQueue w) as HQ.
    pose proof (untouched_loadSubmissions (ui.loadQueue w).2) as HS.
    destruct (transitivity HQ HS) as (?&?&?&?). done.
  - intros Hon Hst e Hf. rewrite syncQueue_run by done. cbv zeta.
    destruct (told_store SYNCING w) as (_ & _ & _ & Hsf).
    unfold nextFault in Hf. rewrite Hsf.
    destruct (storeFaults w) as [|[e'|] rest]; try done. by injection Hf as ->.
Qed.

(** ** Records made through the form *)

(** No record appears, and none changes its title or its files. *)
Definition no_new_record (w w' : World) : Prop :=
  ∀ k r', records w' !! k = Some r' →
    ∃ r, records w !! k = Some r ∧
         rec_title r' = rec_title r ∧ rec_mediaFiles r' = rec_mediaFiles r.

Global Instance no_new_record_preorder : PreOrder no_new_record.
Proof.
  split.
  - intros w k r Hr. by exists r.
  - intros w1 w2 w3 H12 H23 k r3 Hr3.
    destruct (H23 k r3 Hr3) as (r2 & Hr2 & ? & ?).
    destruct (H12 k r2 Hr2) as (r1 & Hr1 & ? & ?).
    exists r1. split; [done|]. split; congruence.
Qed.

Lemma no_new_record_store w w' : records w' = records w → no_new_record w w'.
Proof. intros Hr k r. rewrite Hr. intros H. by exists r. Qed.

Global Instance no_new_record_ambient : Ambient no_new_record.
Proof.
  split; [apply _| | |].
  - intros w. rewrite request_world. by apply no_new_record_store.
  - intros n w. by apply no_new_record_store.
  - intros ev w. by apply no_new_record_store.
Qed.

Lemma no_new_record_syncQueue : respects no_new_record sync.syncQueue.
Proof.
  apply marking_syncQueue; try apply _.
  - intros s w. rewrite notify_run. destruct (told_store s w) as (? & _).
    by apply no_new_record_store.
  - intros k us w. rewrite updateQueueItem_run.
    store_cases w; try destruct (_ !! k); by apply no_new_record_store.
  - intros k. apply respects_updateRecord; [apply _|]. intros w r Hr k' r'. simpl.
    rewrite lookup_insert. case_decide; [|intros H'; by exists r'].
    intros [= <-]. subst k'. by exists r.
Qed.

(** X28. Through the form no record without a title or without a file is
    made: a record that is stored after [onSubmit] and was not stored before
    has the key the counter had, the title typed in, which is not empty, and
    one descriptor for each of the files, of which there is at least one. *)
Theorem onSubmit_makes_no_empty_record
    (title description : string) (mediaFiles : list File) (w : World) (k : nat)
    (r : LocalRecord) :
  records (ui.onSubmit title description mediaFiles w).2 !! k = Some r →
  records w !! k = None →
  k = recordKey w ∧ title ≠ "" ∧ mediaFiles ≠ [] ∧
  rec_title r = title ∧
  rec_mediaFiles r = (λ f, mkDescriptor (file_name f) (file_type f) (size f)) <$> mediaFiles ∧
  rec_mediaFiles r ≠ [].
Proof.
  intros Hr Hnone.
  destruct (decide (title = "")) as [->|Ht].
  { unfold ui.onSubmit in Hr. simpl in Hr. congruence. }
  destruct (decide (mediaFiles = [])) as [->|Hm].
  { unfold ui.onSubmit in Hr. cbn [length] in Hr.
    rewrite bool_decide_eq_true_2, orb_true_r in Hr by done. simpl in Hr. congruence. }
  set (s := sync.mkSubmission title (Some description) mediaFiles).
  assert (∀ w1, records w1 = records (sync.enqueueSubmission s w).2 →
          records w1 !! k = Some r →
          k = recordKey w ∧ rec_title r = title ∧
          rec_mediaFiles r
          = (λ f, mkDescriptor (file_name f) (file_type f) (size f)) <$> mediaFiles) as Hnew.
  { intros w1 -> Hr1. rewrite enqueueSubmission_run in Hr1.
    case_bool_decide; [|simpl in Hr1; congruence].
    pose proof (respects_all same_records
      (map (λ file, db.enqueueMedia (requestFor s (recordKey w) file)) (sync.mediaFiles s)))
      as Hall.
    specialize (Hall (λ t Ht', ltac:(apply list_elem_of_fmap in Ht' as (f & -> & _);
                                    apply same_records_enqueueMedia)) (recordWritten s w)).
    unfold same_records in Hall.
    assert (∀ w2, no_new_record (recordWritten s w) w2 → records w2 !! k = Some r →
            k = recordKey w ∧ rec_title r = title ∧
            rec_mediaFiles r
            = (λ f, mkDescriptor (file_name f) (file_type f) (size f)) <$> mediaFiles) as Hin.
    { intros w2 Hno Hr2. destruct (Hno k r Hr2) as (r0 & Hr0 & Ht0 & Hm0).
      simpl in Hr0. rewrite lookup_insert in Hr0. case_decide; [|congruence].
      injection Hr0 as <-. subst k. split; [done|]. by rewrite Ht0, Hm0. }
    destruct (storeFaults w) as [|[e|] rest]; [|simpl in Hr1; congruence|].
    all: destruct (Promise_all _ _) as [[v|e1] w2]; cbn [fst snd] in *;
      [|apply (Hin w2); [by apply no_new_record_store|done]];
      destruct (forallb fulfilled v); cbn [fst snd] in *;
      [|apply (Hin w2); [by apply no_new_record_store|done]];
      destruct (onLine w2);
      [ apply (Hin (sync.syncQueue w2).2); [|done];
        etrans; [apply (no_new_record_store _ w2 Hall)|apply no_new_record_syncQueue]
      | apply (Hin w2); [by apply no_new_record_store|done] ]. }
  rewrite onSubmit_run in Hr by done.
  assert (k = recordKey w ∧ rec_title r = title ∧
          rec_mediaFiles r
          = (λ f, mkDescriptor (file_name f) (file_type f) (size f)) <$> mediaFiles)
    as (Hk & Hrt & Hrm).
  { fold s in Hr.
    destruct (sync.enqueueSubmission s w) as [[[k0|]|e] w1] eqn:E; cbn [snd] in *.
    - apply (Hnew (ui.loadQueue (ui.loadSubmissions w1).2).2); [|done].
      destruct (untouched_loadSubmissions w1) as (_ & R1 & _).
      destruct (untouched_loadQueue (ui.loadSubmissions w1).2) as (_ & R2 & _).
      by rewrite R2, R1.
    - by apply (Hnew w1).
    - by apply (Hnew w1). }
  repeat split; try done. rewrite Hrm. by destruct mediaFiles.
Qed.

Lemma onSubmit_makes_no_empty_record_witness :
  1%nat = recordKey (with_env offline initial) ∧
  rec_title (mkRecord 1 "trip" (Some "")
               [mkDescriptor "photo.jpg" "image/jpeg" (2 * MiB)] 0 false) = "trip".
Proof.
  destruct (onSubmit_makes_no_empty_record "trip" "" [photo] (with_env offline initial) 1
              (mkRecord 1 "trip" (Some "")
                 [mkDescriptor "photo.jpg" "image/jpeg" (2 * MiB)] 0 false))
    as (Hk & _ & _ & Ht & _).
  - vm_compute. reflexivity.
  - reflexivity.
  - split; [exact Hk|exact Ht].
Defined.

(** ** A file sent in chunks *)

(** The world after chunk [i] was sent, accepted and reported. *)
Definition chunkDone (file : File) (fs tc : Z) (uid url : option string) (k : nat)
    (w : World) (i : Z) : World :=
  let b := api.chunkEnd fs i in
  let p := percentage b fs in
  emit (EvUploadProgress k p b fs)
    (set_mediaQueue
       (λ m, match m !! k with
             | Some c => <[k := merge (keyed k c) [upd_uploadProgress p; upd_bytesUploaded b]]> m
             | None => m
             end)
       (emit (EvFetch (chunkReq file fs tc uid url i) (Responded plainOk)) w)).

Lemma chunkDone_fields file fs tc uid url k w i :
  let w' := chunkDone file fs tc uid url k w i in
  network w' = network w ∧ storeFaults w' = storeFaults w ∧ records w' = records w ∧
  clock w' = clock w ∧
  (is_Some (mediaQueue w !! k) → is_Some (mediaQueue w' !! k)) ∧
  (∀ k', k' ≠ k → mediaQueue w' !! k' = mediaQueue w !! k').
Proof.
  cbv zeta. unfold chunkDone. cbv zeta. simpl. repeat split; try done.
  - intros [c Hc]. rewrite Hc. rewrite lookup_insert_eq. by eexists.
  - intros k' Hne. destruct (mediaQueue w !! k); [|done]. by rewrite lookup_insert_ne.
Qed.

Lemma chunkDone_lookup file fs tc uid url k w i c :
  mediaQueue w !! k = Some c →
  mediaQueue (chunkDone file fs tc uid url k w i) !! k
  = Some (merge (keyed k c)
            [upd_uploadProgress (percentage (api.chunkEnd fs i) fs);
             upd_bytesUploaded (api.chunkEnd fs i)]).
Proof.
  intros Hc. unfold chunkDone. cbv zeta. cbn [mediaQueue emit set_mediaQueue].
  rewrite Hc. by rewrite lookup_insert_eq.
Qed.

Lemma chunk_accepted file fs tc uid url k i w :
  network w = [] → storeFaults w = [] → is_Some (mediaQueue w !! k) →
  api.chunkRetryLoop 3
    (api.chunkAttempt file fs tc uid url (Some (sync.createProgressCallback k)) i) i tc w
  = (Ok tt, chunkDone file fs tc uid url k w i).
Proof.
  intros Hn Hf [c Hc]. rewrite chunkRetryLoop_S, chunkAttempt_run. cbv zeta.
  destruct (answered_quiet w Hn) as [-> ->]. cbn [isFailure plainOk ok negb].
  unfold sync.createProgressCallback. cbv zeta.
  rewrite bind_run, (updateQueueItem_healthy _ _ _ c) by done.
  unfold chunkDone. cbv zeta. cbn [fst snd modify]. f_equal. f_equal.
  apply set_mediaQueue_ext. simpl. by rewrite Hc.
Qed.

Lemma chunks_accepted file fs tc uid url k l w :
  network w = [] → storeFaults w = [] → is_Some (mediaQueue w !! k) →
  forEach l (λ i,
    api.chunkRetryLoop 3
      (api.chunkAttempt file fs tc uid url (Some (sync.createProgressCallback k)) i) i tc) w
  = (Ok tt, foldl (chunkDone file fs tc uid url k) w l).
Proof.
  revert w. induction l as [|i l IH]; intros w Hn Hf Hk; [done|].
  rewrite forEach_cons, chunk_accepted by done. cbn [foldl].
  destruct (chunkDone_fields file fs tc uid url k w i) as (Fn & Ff & _ & _ & Fk & _).
  cbv zeta in Fn, Ff, Fk. apply IH; [by rewrite Fn|by rewrite Ff|by apply Fk].
Qed.

(** What the chunks leave of the item [c]: its progress and its bytes are
    those of the last chunk, and nothing else has changed. *)
Definition reported (fs : Z) (l : list Z) (c : QueueItem) : QueueItem :=
  match last l with
  | Some i =>
      merge c [upd_uploadProgress (percentage (api.chunkEnd fs i) fs);
               upd_bytesUploaded (api.chunkEnd fs i)]
  | None => c
  end.

Lemma chunks_fields file fs tc uid url k l w c :
  mediaQueue w !! k = Some c → id c = k →
  let w' := foldl (chunkDone file fs tc uid url k) w l in
  network w' = network w ∧ storeFaults w' = storeFaults w ∧ records w' = records w ∧
  clock w' = clock w ∧
  mediaQueue w' !! k = Some (reported fs l c) ∧
  (∀ k', k' ≠ k → mediaQueue w' !! k' = mediaQueue w !! k').
Proof.
  intros Hc Hid. cbv zeta. induction l as [|i l IH] using rev_ind.
  { by repeat split. }
  rewrite foldl_app. cbn [foldl].
  destruct IH as (In & If & Ir & Ic & Iq & Io).
  destruct (chunkDone_fields file fs tc uid url k
              (foldl (chunkDone file fs tc uid url k) w l) i) as (Fn & Ff & Fr & Fc & _ & Fo).
  cbv zeta in Fn, Ff, Fr, Fc, Fo.
  rewrite Fn, Ff, Fr, Fc, In, If, Ir, Ic. repeat split; try done.
  - rewrite (chunkDone_lookup _ _ _ _ _ _ _ _ _ Iq).
    unfold reported. rewrite last_snoc. f_equal.
    destruct (last l) as [j|]; destruct c; simpl in *; by subst.
  - intros k' Hne. rewrite Fo by done. by apply Io.
Qed.

(** The item once the chunked transfer of its snapshot [q] is done. *)
Definition finishedChunked (q it : QueueItem) (now : Z) : QueueItem :=
  merge (reported (size (fileOf q)) (seqZ 0 (api.totalChunksOf (size (fileOf q)))) (begun q it))
    [upd_status synced; upd_syncedAt now; upd_uploadProgress 100].

Lemma seqZ_last n : 0 < n → last (seqZ 0 n) = Some (n - 1).
Proof.
  intros Hn. replace n with ((n - 1) + 1) at 1 by lia.
  rewrite seqZ_app by lia. rewrite last_app. simpl.
  replace (0 + (n - 1)) with (n - 1) by lia. done.
Qed.

Lemma finishedChunked_fields q it now :
  let it' := finishedChunked q it now in
  let S := size (fileOf q) in
  id it' = id q ∧ status it' = synced ∧ attempts it' = attempts q + 1 ∧
  uploadProgress it' = 100 ∧ syncedAt it' = Some now ∧ error it' = error it ∧
  submissionId it' = submissionId it ∧
  (0 < S → bytesUploaded it' = S) ∧ (S ≤ 0 → bytesUploaded it' = 0).
Proof.
  cbv zeta. unfold finishedChunked, reported.
  set (S := size (fileOf q)). set (n := api.totalChunksOf S).
  pose proof (totalChunksOf_ceil S) as Hceil. fold n in Hceil.
  unfold api.CHUNK_SIZE in Hceil.
  destruct (decide (0 < S)) as [HS|HS].
  - rewrite seqZ_last by lia. simpl. repeat split; try done; [|lia].
    intros _. unfold api.chunkEnd, api.chunkStart, api.CHUNK_SIZE. lia.
  - rewrite seqZ_nil by lia. simpl. repeat split; try done; try lia.
Qed.

Lemma attemptItem_chunked q it w :
  storeFaults w = [] → network w = [] → mediaQueue w !! id q = Some it →
  sync.chosenMode q (fileOf q) = true →
  ∃ w4,
    sync.attemptItem q w =
    match sync.checkAndUpdateRecordSyncStatus (submissionId q) w4 with
    | (Ok _, w5) => (Ok (sync.mkResult true (id q) None None), w5)
    | (Throw e, w5) => (Throw e, w5)
    end ∧
    storeFaults w4 = [] ∧ network w4 = [] ∧ records w4 = records w ∧
    mediaQueue w4 !! id q = Some (finishedChunked q it (clock w)) ∧
    (∀ k, k ≠ id q → mediaQueue w4 !! k = mediaQueue w !! k) ∧
    ∃ d, trace w4 = trace w ++ d ∧
      requests d
      = [mkRequest (api.API_BASE_URL +:+ "/media-uploads/init")
           (InitBody (submissionId q) (fileName q) (size (fileOf q)) (fileType q)
              (api.totalChunksOf (size (fileOf q)))
              (pretty (submissionId q) +:+ "-" +:+ fileName q +:+ "-" +:+ pretty (clock w)))]
        ++ (chunkReq (fileOf q) (size (fileOf q)) (api.totalChunksOf (size (fileOf q)))
                     None None <$> seqZ 0 (api.totalChunksOf (size (fileOf q))))
        ++ [mkRequest (api.API_BASE_URL +:+ "/media-uploads/finalize")
              (FinalizeBody None (submissionId q))].
Proof.
  intros Hf Hn Hit Hmode. unfold sync.attemptItem. cbv zeta. unfold fileOf in Hmode.
  rewrite bind_run, (updateQueueItem_healthy _ _ _ it) by done. fold (begun q it).
  rewrite Hmode. fold (fileOf q).
  set (w1 := set_mediaQueue <[id q := begun q it]> w).
  rewrite bind_run, bind_run, uploadMediaChunked_run. cbv zeta.
  set (S := size (fileOf q)). set (n := api.totalChunksOf S).
  rewrite post_run.
  assert (network w1 = []) as Hn1 by done.
  destruct (answered_quiet w1 Hn1) as [-> ->].
  cbn [answerOf parsed plainOk ok json]. set (w2 := emit _ w1).
  assert (id (begun q it) = id q) as Hid.
  { unfold begun. by destruct (merge_static (keyed (id q) it)
      [upd_status uploading; upd_attempts (attempts q + 1);
       upd_uploadProgress 0; upd_bytesUploaded 0]) as (-> & _). }
  assert (mediaQueue w2 !! id q = Some (begun q it)) as Hq2.
  { subst w2 w1. simpl. by rewrite lookup_insert_eq. }
  unfold api.uploadChunks.
  rewrite (chunks_accepted (fileOf q) S n None None (id q) (seqZ 0 n) w2);
    [|done|done|by eexists].
  destruct (chunks_healthy (fileOf q) S n None None (id q) (seqZ 0 n) w2 Hn)
    as (_ & _ & d & Hd & Hreq & _).
  cbv zeta in Hd. rewrite chunks_accepted in Hd; [|done|done|by eexists]. cbn [snd] in Hd.
  destruct (chunks_fields (fileOf q) S n None None (id q) (seqZ 0 n) w2 (begun q it) Hq2 Hid)
    as (Cn & Cf & Cr & Cc & Cq & Co).
  cbv zeta in Cn, Cf, Cr, Cc, Cq, Co.
  set (w3 := foldl (chunkDone (fileOf q) S n None None (id q)) w2 (seqZ 0 n)) in *.
  rewrite post_run.
  assert (network w3 = []) as Hn3 by by rewrite Cn.
  destruct (answered_quiet w3 Hn3) as [-> ->].
  cbn [answerOf parsed plainOk ok json]. unfold ret at 1. cbv beta iota.
  set (w3' := emit _ w3).
  unfold Date_now. rewrite bind_gets.
  assert (id (reported S (seqZ 0 n) (begun q it)) = id q) as Hidr.
  { unfold reported. destruct (last (seqZ 0 n)); [|done].
    by destruct (merge_static (begun q it)
      [upd_uploadProgress (percentage (api.chunkEnd S z) S);
       upd_bytesUploaded (api.chunkEnd S z)]) as (-> & _). }
  rewrite bind_run, (updateQueueItem_healthy _ _ _ (reported S (seqZ 0 n) (begun q it)));
    [|subst w3'; simpl; by rewrite Cf|subst w3'; simpl; exact Cq].
  rewrite (keyed_id _ _ Hidr).
  assert (clock w3' = clock w) as -> by (subst w3'; simpl; by rewrite Cc).
  exists (set_mediaQueue <[id q := finishedChunked q it (clock w)]> w3').
  unfold finishedChunked. fold S n.
  split; [rewrite bind_run; by destruct (sync.checkAndUpdateRecordSyncStatus _ _)
                                          as [[[]|e] w5]|].
  split; [subst w3'; simpl; by rewrite Cf|]. split; [subst w3'; simpl; exact Hn3|].
  split; [subst w3'; simpl; by rewrite Cr|].
  split; [simpl; by rewrite lookup_insert_eq|].
  split.
  - intros k Hne. simpl. rewrite lookup_insert_ne by done. rewrite Co by done.
    subst w2 w1. simpl. by rewrite lookup_insert_ne.
  - eexists (_ :: d ++ [_]). split.
    + subst w3'. simpl. rewrite Hd. subst w2. simpl. by rewrite <- !app_assoc.
    + rewrite requests_cons, requests_app, Hreq. done.
Qed.

(** ** The arithmetic of a chunked transfer *)

(** The progress reports of a trace, in order: the item, the percentage, the
    bytes and the total of each. *)
Definition reports (t : list Event) : list (nat * Z * Z * Z) :=
  omap (λ ev, match ev with
              | EvUploadProgress k p b t => Some (k, p, b, t)
              | _ => None
              end) t.

Lemma reports_app t1 t2 : reports (t1 ++ t2) = reports t1 ++ reports t2.
Proof. apply omap_app. Qed.

(** What the progress callback does when the store takes its write. *)
Lemma createProgressCallback_run k b t w it :
  nextFault w = None → mediaQueue w !! k = Some it →
  sync.createProgressCallback k b t w
  = (Ok tt,
     emit (EvUploadProgress k (percentage b t) b t)
       (set_mediaQueue
          <[k := merge (keyed k it) [upd_uploadProgress (percentage b t); upd_bytesUploaded b]]>
          (drawn w))).
Proof.
  intros Hf Hit. unfold sync.createProgressCallback. cbv zeta.
  fold (percentage b t). rewrite bind_run, updateQueueItem_run, Hit. unfold nextFault in Hf.
  by destruct (storeFaults w) as [|[e|] rest].
Qed.

Lemma chunks_keep file fs tc uid url k l w :
  is_Some (mediaQueue w !! k) →
  is_Some (mediaQueue (foldl (chunkDone file fs tc uid url k) w l) !! k).
Proof.
  revert w. induction l as [|i l IH]; intros w Hk; [done|]. cbn [foldl]. apply IH.
  by destruct (chunkDone_fields file fs tc uid url k w i) as (_ & _ & _ & _ & H & _); apply H.
Qed.

(** After the chunks of [l] the item holds the bytes and the percentage of
    the last of them. *)
Lemma chunks_persisted file fs tc uid url k l w i :
  is_Some (mediaQueue w !! k) → last l = Some i →
  ∃ c, mediaQueue (foldl (chunkDone file fs tc uid url k) w l) !! k = Some c ∧
       bytesUploaded c = api.chunkEnd fs i ∧
       uploadProgress c = percentage (api.chunkEnd fs i) fs.
Proof.
  intros Hk Hl. apply last_Some in Hl as [l0 ->]. rewrite foldl_app. cbn [foldl].
  destruct (chunks_keep file fs tc uid url k l0 w Hk) as [c0 Hc0].
  rewrite (chunkDone_lookup _ _ _ _ _ _ _ _ _ Hc0). by eexists.
Qed.

(** What the chunks of [l] add to the trace. *)
Lemma chunks_trace file fs tc uid url k l w :
  ∃ d, trace (foldl (chunkDone file fs tc uid url k) w l) = trace w ++ d ∧
       requests d = chunkReq file fs tc uid url <$> l ∧
       reports d = (λ i, (k, percentage (api.chunkEnd fs i) fs, api.chunkEnd fs i, fs)) <$> l.
Proof.
  revert w. induction l as [|i l IH]; intros w.
  { exists []. by rewrite app_nil_r. }
  cbn [foldl]. destruct (IH (chunkDone file fs tc uid url k w i)) as (d & Hd & Hreq & Hrep).
  exists ([EvFetch (chunkReq file fs tc uid url i) (Responded plainOk);
           EvUploadProgress k (percentage (api.chunkEnd fs i) fs) (api.chunkEnd fs i) fs] ++ d).
  split; [|split].
  - rewrite Hd. unfold chunkDone. cbv zeta. simpl. by rewrite <- !app_assoc.
  - rewrite requests_app, Hreq. done.
  - rewrite reports_app, Hrep. done.
Qed.

(** A film of 200 MiB, queued offline. *)
Definition film : File := mkFile "film.mp4" "video/mp4" (mkBuffer (200 * MiB) 4).

Definition filmQueued : World :=
  run initial [(offline, OpEnqueue (sync.mkSubmission "film" None [film]))].

(** After chunk 22 of the film 115 MiB of 200 MiB are uploaded, 57.5 per
    cent.  The double quotient 0.575 lies just below the exact one, so does
    the double product, 57.49999999999999, and the percentage reported and
    persisted is 57, where the exact product rounds to 58. *)
Lemma progress_falls_below_the_tie :
  let S := 200 * MiB in
  let b := Z.min ((22 + 1) * api.CHUNK_SIZE) S in
  let cb := Some (sync.createProgressCallback 1) in
  b = 115 * MiB ∧
  trace (api.uploadMediaChunked 1 film cb (with_env calm filmQueued)).2 !! 46%nat
  = Some (EvUploadProgress 1 57 b S) ∧
  uploadProgress <$>
    mediaQueue (api.chunkAttempt film S (api.totalChunksOf S) None None cb 22
                  (with_env calm filmQueued)).2 !! 1%nat
  = Some 57 ∧
  Math_round (num b / num S * 100) = 58.
Proof.
  cbv zeta. split; [reflexivity|]. split; [vm_compute; reflexivity|].
  split; vm_compute; reflexivity.
Qed.

(** C6, as the code has it. For a file of size [S > 0]: the chunk count is
    [ceil(S / C)] with [C] = 5 MiB, and up to 2^44 bytes the double quotient
    has the same ceiling; chunk [i] covers the bytes from [i * C]
    up to [min((i + 1) * C, S)]; when the request for chunk [i] succeeds and
    the store takes the write, the bytes reported and persisted are
    [min((i + 1) * C, S)], and the percentage reported and persisted is
    [Math.round] of the double product [(bytes / S) * 100].  It lies between
    0 and 100; for a file of at most 2^44 bytes it is the exact
    [round(bytes / S * 100)] or one less, and it is the exact one unless the
    exact product lies halfway between two integers.  When every request is
    answered and the store is healthy, [uploadMediaChunked] sends the
    handshake with the chunk count, the chunks 0, 1, ..., n - 1 and the
    finalisation, reports these bytes and percentages in this order, and
    leaves the item with all the bytes and 100 per cent. *)
Theorem chunk_arithmetic_and_progress
    (sid k : nat) (file : File) (uid url : option string) :
  let S := size file in
  let C := api.CHUNK_SIZE in
  let n := api.totalChunksOf S in
  let reported i := Z.min ((i + 1) * C) S in
  let percent i := percentage (reported i) S in
  let cb := Some (sync.createProgressCallback k) in
  0 < S →
  C = 5 * 1024 * 1024 ∧
  (n - 1) * C < S ≤ n * C ∧
  (S ≤ 2 ^ 44 → Math_ceil (Number_div (num S) (num C)) = n) ∧
  (∀ i, 0 ≤ i < n →
     api.chunkStart i = i * C ∧
     api.chunkEnd S i = reported i ∧
     i * C < reported i ≤ S ∧
     req_body (chunkReq file S n uid url i)
     = ChunkBody (mkBlob (file_content file) (i * C) (reported i)) uid i n ∧
     0 ≤ percent i ≤ 100 ∧
     (S ≤ 2 ^ 44 →
      let exact := Math_round (num (reported i) / num S * 100) in
      (percent i = exact ∨ percent i = exact - 1) ∧
      ((200 * reported i + S) mod (2 * S) ≠ 0 → percent i = exact)) ∧
     ∀ (w : World) (it : QueueItem) (resp : Response),
       nextOutcome w = Responded resp → ok resp = true →
       nextFault w = None → mediaQueue w !! k = Some it →
       let w' := (api.chunkAttempt file S n uid url cb i w).2 in
       trace w' = trace w ++ [EvFetch (chunkReq file S n uid url i) (Responded resp);
                              EvUploadProgress k (percent i) (reported i) S] ∧
       ∃ it', mediaQueue w' !! k = Some it' ∧
              bytesUploaded it' = reported i ∧ uploadProgress it' = percent i) ∧
  percent (n - 1) = 100 ∧
  ∀ (w : World) (it : QueueItem),
    network w = [] → storeFaults w = [] → mediaQueue w !! k = Some it →
    let r := api.uploadMediaChunked sid file cb w in
    r.1 = Ok (JObj None None None) ∧
    (∃ d, trace r.2 = trace w ++ d ∧
       requests d
       = [mkRequest (api.API_BASE_URL +:+ "/media-uploads/init")
            (InitBody sid (file_name file) S (file_type file) n
               (pretty sid +:+ "-" +:+ file_name file +:+ "-" +:+ pretty (clock w)))]
         ++ (chunkReq file S n None None <$> seqZ 0 n)
         ++ [mkRequest (api.API_BASE_URL +:+ "/media-uploads/finalize")
               (FinalizeBody None sid)] ∧
       reports d = (λ i, (k, percent i, reported i, S)) <$> seqZ 0 n) ∧
    ∃ it', mediaQueue r.2 !! k = Some it' ∧
           bytesUploaded it' = S ∧ uploadProgress it' = 100.
Proof.
  intros S C n reported percent cb HS.
  pose proof (totalChunksOf_ceil S) as Hceil. fold n C in Hceil.
  assert (C = 5 * 1024 * 1024) as HC by done.
  assert (∀ i, api.chunkEnd S i = reported i) as Hend.
  { intros i. unfold api.chunkEnd, api.chunkStart, reported. fold C. f_equal. lia. }
  assert (reported (n - 1) = S) as Hlast by (unfold reported; lia).
  assert (percent (n - 1) = 100) as H100.
  { unfold percent. rewrite Hlast. by apply percentage_full. }
  split; [done|]. split; [done|].
  split; [intros Hbig; apply totalChunksOf_double; lia|]. split; [|split; [done|]].
  - intros i Hi.
    assert (i * C < reported i ≤ S) as Hrep by (unfold reported; lia).
    split; [done|]. split; [done|]. split; [done|].
    split; [unfold chunkReq, slice; cbn [req_body]; by rewrite Hend|].
    split; [apply percentage_bounds; lia|]. split.
    + intros Hbig. cbv zeta.
      destruct (percentage_near (reported i) S ltac:(lia) ltac:(lia)) as [Hne Hor].
      cbv zeta in Hne, Hor. by split.
    + intros w it resp Hout Hok Hfault Hit. cbv zeta.
      unfold cb. rewrite chunkAttempt_run. cbv zeta. rewrite Hout. cbn [isFailure]. rewrite Hok.
      cbn [negb snd]. rewrite Hend.
      destruct (answered_fields w) as (Aq & Af & At & _).
      rewrite (createProgressCallback_run _ _ _ _ it);
        [|unfold nextFault in *; simpl; by rewrite Af|simpl; by rewrite Aq].
      cbn [snd]. split.
      * simpl. rewrite At. by rewrite <- app_assoc.
      * simpl. rewrite lookup_insert_eq. by eexists.
  - intros w it Hn Hf Hit. cbv zeta. unfold cb. rewrite uploadMediaChunked_run. cbv zeta. fold S n.
    rewrite post_run. destruct (answered_quiet w Hn) as [-> ->].
    cbn [answerOf parsed plainOk ok json]. set (w1 := emit _ w).
    unfold api.uploadChunks.
    rewrite (chunks_accepted file S n None None k (seqZ 0 n) w1); [|done|done|by eexists].
    set (w2 := foldl (chunkDone file S n None None k) w1 (seqZ 0 n)).
    destruct (chunks_trace file S n None None k (seqZ 0 n) w1) as (d & Hd & Hreq & Hrep).
    fold w2 in Hd.
    destruct (chunks_persisted file S n None None k (seqZ 0 n) w1 (n - 1))
      as (c & Hc & Hb & Hp); [by eexists|apply seqZ_last; lia|].
    fold w2 in Hc.
    assert (network w2 = []) as Hn2.
    { subst w2. clear Hd Hc. generalize (seqZ 0 n). intros l.
      assert (network w1 = []) as Hn1 by done. revert Hn1. generalize w1.
      induction l as [|i l IH]; intros w0 H0; [done|]. cbn [foldl]. apply IH.
      by destruct (chunkDone_fields file S n None None k w0 i) as (-> & _). }
    rewrite post_run. destruct (answered_quiet w2 Hn2) as [-> ->].
    cbn [answerOf parsed plainOk ok json fst snd]. split; [done|]. split.
    + eexists (_ :: d ++ [_]). split; [|split].
      * simpl. rewrite Hd. subst w1. simpl. by rewrite <- !app_assoc.
      * rewrite requests_cons, requests_app, Hreq. done.
      * cbn [reports omap list_omap]. fold (reports (d ++ [EvFetch
          (mkRequest (api.API_BASE_URL +:+ "/media-uploads/finalize") (FinalizeBody None sid))
          (Responded plainOk)])).
        rewrite reports_app, Hrep. cbn [reports omap list_omap]. rewrite app_nil_r.
        apply list_fmap_ext. intros j i _. unfold percent. by rewrite Hend.
    + exists c. split; [exact Hc|]. rewrite Hb, Hp, !Hend, Hlast. split; [done|].
      by apply percentage_full.
Qed.

Lemma chunk_arithmetic_and_progress_witness :
  api.totalChunksOf (22 * MiB) = 5 ∧
  ∃ d, trace (api.uploadMediaChunked 1 video (Some (sync.createProgressCallback 1))
                (with_env calm videoQueued)).2
       = trace (with_env calm videoQueued) ++ d ∧
       reports d = [(1%nat, 23, 5 * MiB, 22 * MiB); (1%nat, 45, 10 * MiB, 22 * MiB);
                    (1%nat, 68, 15 * MiB, 22 * MiB); (1%nat, 91, 20 * MiB, 22 * MiB);
                    (1%nat, 100, 22 * MiB, 22 * MiB)].
Proof.
  pose proof (chunk_arithmetic_and_progress 1 1 video None None) as H.
  cbv zeta in H. destruct H as (_ & _ & _ & _ & _ & H); [reflexivity|].
  destruct (H (with_env calm videoQueued) videoItem) as (_ & (d & Hd & _ & Hrep) & _).
  - reflexivity.
  - reflexivity.
  - vm_compute. reflexivity.
  - split; [vm_compute; reflexivity|]. exists d. split; [exact Hd|].
    rewrite Hrep. vm_compute. reflexivity.
Defined.



(** X29. A file sent in chunks on a network that answers every request,
    with a healthy store: [syncQueueItem] sends the handshake, every chunk
    once and the finalisation, and answers with success; the item is left
    synced with one attempt more, progress 100 and, for a file that is not
    empty, all its bytes uploaded; no other item changes.  The parent record
    is marked synced when every other item of the submission is synced
    already, and no record changes when one of them is not. *)
Theorem chunked_upload_accepted (q it : QueueItem) (r : LocalRecord) (w : World) :
  storeFaults w = [] → network w = [] →
  mediaQueue w !! id q = Some it → submissionId it = submissionId q →
  sync.chosenMode q (fileOf q) = true →
  records w !! submissionId q = Some r →
  let res := sync.syncQueueItem q w in
  let sid := submissionId q in
  let S := size (fileOf q) in
  let n := api.totalChunksOf S in
  res.1 = Ok (sync.mkResult true (id q) None None) ∧
  (∃ d, trace res.2 = trace w ++ d ∧
     requests d
     = [mkRequest (api.API_BASE_URL +:+ "/media-uploads/init")
          (InitBody sid (fileName q) S (fileType q) n
             (pretty sid +:+ "-" +:+ fileName q +:+ "-" +:+ pretty (clock w)))]
       ++ (chunkReq (fileOf q) S n None None <$> seqZ 0 n)
       ++ [mkRequest (api.API_BASE_URL +:+ "/media-uploads/finalize") (FinalizeBody None sid)]) ∧
  (∃ it', mediaQueue res.2 !! id q = Some it' ∧
     status it' = synced ∧ attempts it' = attempts q + 1 ∧ uploadProgress it' = 100 ∧
     (0 < S → bytesUploaded it' = S) ∧ syncedAt it' = Some (clock w)) ∧
  (∀ k, k ≠ id q → mediaQueue res.2 !! k = mediaQueue w !! k) ∧
  ((∀ k c, mediaQueue w !! k = Some c → k ≠ id q → submissionId c = sid → status c = synced) →
   rec_synced <$> records res.2 !! sid = Some true) ∧
  (∀ k c, mediaQueue w !! k = Some c → k ≠ id q → submissionId c = sid →
     status c ≠ synced → records res.2 = records w).
Proof.
  intros Hf Hn Hit Hsid Hmode Hr. cbv zeta.
  unfold sync.syncQueueItem, try_catch.
  destruct (attemptItem_chunked q it w Hf Hn Hit Hmode)
    as (w4 & -> & Hf4 & _ & Hr4 & Hq4 & Hother & d & Hd & Hreq).
  rewrite checkAndUpdate_run by done. rewrite Hr4, Hr.
  destruct (finishedChunked_fields q it (clock w)) as (F1 & F2 & F3 & F4 & F5 & F6 & F7 & F8 & _).
  cbv zeta in F1, F2, F3, F4, F5, F6, F7, F8.
  destruct (allSynced (submissionId q) (mediaQueue w4)) eqn:Hall; cbn [fst snd].
  - split; [done|]. split; [by exists d|].
    split; [exists (finishedChunked q it (clock w)); split; [exact Hq4|done]|].
    split; [exact Hother|]. split.
    + intros _. cbn [records set_records]. by rewrite lookup_insert_eq.
    + intros k c Hc Hne Hs Hst. exfalso. apply Hst.
      rewrite allSynced_spec in Hall. apply (Hall k c); [|done].
      by rewrite Hother.
  - split; [done|]. split; [by exists d|].
    split; [exists (finishedChunked q it (clock w)); split; [exact Hq4|done]|].
    split; [exact Hother|]. split; [|done].
    intros Hothers. exfalso.
    assert (allSynced (submissionId q) (mediaQueue w4) = true); [|congruence].
    apply allSynced_spec. intros k c Hc Hs.
    destruct (decide (k = id q)) as [->|Hne].
    + rewrite Hq4 in Hc. injection Hc as <-. done.
    + rewrite Hother in Hc by done. by apply (Hothers k c).
Qed.

Lemma chunked_upload_accepted_witness :
  rec_synced <$> records (sync.syncQueueItem videoItem (with_env calm videoQueued)).2
                   !! submissionId videoItem = Some true.
Proof.
  destruct (chunked_upload_accepted videoItem videoItem
              (mkRecord 1 "clip" None [mkDescriptor "video.mp4" "video/mp4" (22 * MiB)] 0 false)
              (with_env calm videoQueued)) as (_ & _ & _ & _ & H & _).
  - reflexivity.
  - reflexivity.
  - vm_compute. reflexivity.
  - reflexivity.
  - vm_compute. reflexivity.
  - vm_compute. reflexivity.
  - apply H. intros k c Hc Hne. exfalso. revert Hc.
    assert (mediaQueue (with_env calm videoQueued) = {[1%nat := videoItem]}) as ->
      by (vm_compute; reflexivity).
    rewrite lookup_singleton_ne; [done|]. intros E. apply Hne. by rewrite <- E.
Defined.

(** * A pass when everything answers *)

Lemma syncQueueItem_accepted q it w :
  storeFaults w = [] → network w = [] → mediaQueue w !! id q = Some it →
  is_Some (records w !! submissionId q) →
  ∃ w',
    sync.syncQueueItem q w = (Ok (sync.mkResult true (id q) None None), w') ∧
    storeFaults w' = [] ∧ network w' = [] ∧
    (∃ it', mediaQueue w' !! id q = Some it' ∧ status it' = synced) ∧
    (∀ k, k ≠ id q → mediaQueue w' !! k = mediaQueue w !! k) ∧
    (∀ k, is_Some (records w !! k) → is_Some (records w' !! k)).
Proof.
  intros Hf Hn Hit [r Hr]. unfold sync.syncQueueItem, try_catch.
  assert (∀ w4, storeFaults w4 = [] → network w4 = [] → records w4 = records w →
    ∃ w', (match sync.checkAndUpdateRecordSyncStatus (submissionId q) w4 with
           | (Ok _, w5) => (Ok (sync.mkResult true (id q) None None), w5)
           | (Throw e, w5) => (Throw e, w5)
           end) = (Ok (sync.mkResult true (id q) None None), w') ∧
          storeFaults w' = [] ∧ network w' = [] ∧ mediaQueue w' = mediaQueue w4 ∧
          (∀ k, is_Some (records w !! k) → is_Some (records w' !! k))) as Hcheck.
  { intros w4 Hf4 Hn4 Hr4. rewrite checkAndUpdate_run by done. rewrite Hr4, Hr.
    destruct (allSynced _ _); eexists; (split; [done|]); repeat split; try done.
    - intros k Hk. simpl. rewrite lookup_insert. case_decide; [by eexists|by rewrite Hr4].
    - intros k Hk. by rewrite Hr4. }
  destruct (sync.chosenMode q (fileOf q)) eqn:Hmode.
  - destruct (attemptItem_chunked q it w Hf Hn Hit Hmode)
      as (w4 & -> & Hf4 & Hn4 & Hr4 & Hq4 & Hother & _).
    destruct (Hcheck w4 Hf4 Hn4 Hr4) as (w' & -> & Hf' & Hn' & Hq' & Hrec).
    exists w'. split; [done|]. split; [done|]. split; [done|]. rewrite Hq'.
    split; [|split; [exact Hother|exact Hrec]].
    eexists. split; [exact Hq4|].
    by destruct (finishedChunked_fields q it (clock w)) as (_ & ? & _).
  - rewrite (attemptItem_whole q it w) by done. cbv zeta.
    destruct (answered_quiet w Hn) as [_ ->]. cbn [answerOf parsed plainOk ok json].
    fold (uploaded q it w).
    assert (nextOutcome w = Responded plainOk) as Hout by by destruct (answered_quiet w Hn).
    assert (uploaded q it w
            = set_mediaQueue <[id q := finished q it (clock w)]>
                (emit (EvFetch (mediaReq q) (Responded plainOk))
                   (answered (set_mediaQueue <[id q := begun q it]> w)))) as Hup
      by (unfold uploaded; by rewrite Hout).
    rewrite <- Hup.
    destruct (uploaded_fields q it w Hf) as (Hf4 & Hr4 & _ & _ & Hq4 & Hother & Hn4).
    cbv zeta in Hf4, Hr4, Hq4, Hother, Hn4. rewrite Hn in Hn4.
    destruct (Hcheck (uploaded q it w) Hf4 Hn4 Hr4) as (w' & -> & Hf' & Hn' & Hq' & Hrec).
    exists w'. split; [done|]. split; [done|]. split; [done|]. rewrite Hq'.
    split; [|split; [exact Hother|exact Hrec]].
    eexists. split; [exact Hq4|]. done.
Qed.

Lemma pass_accepted f items w :
  NoDup (id <$> items) → storeFaults w = [] → network w = [] →
  (∀ q, q ∈ items →
     is_Some (mediaQueue w !! id q) ∧ is_Some (records w !! submissionId q)) →
  let pass := settleAll (imap (λ i, sync.dispatch (f i)) items) w in
  pass.1 = (λ q, Ok (inl (sync.mkResult true (id q) None None))) <$> items ∧
  storeFaults pass.2 = [] ∧ network pass.2 = [] ∧
  (∀ q, q ∈ items → ∃ it', mediaQueue pass.2 !! id q = Some it' ∧ status it' = synced) ∧
  (∀ k, k ∉ id <$> items → mediaQueue pass.2 !! k = mediaQueue w !! k).
Proof.
  revert f w. induction items as [|q items IH]; intros f w Hnd Hf Hn Hex; cbv zeta.
  { repeat split; try done. intros q Hq. by apply elem_of_nil in Hq. }
  rewrite imap_cons, settleAll_cons, dispatch_run. cbv zeta. cbn [fst snd].
  set (w0 := emit (EvTimeout (Z.of_nat (f 0%nat) * 100)) w).
  rewrite fmap_cons in Hnd. apply NoDup_cons in Hnd as [Hq Hnd].
  destruct (Hex q ltac:(by left)) as [[it Hit] Hrec].
  destruct (syncQueueItem_accepted q it w0) as (w1 & Hrun & Hf1 & Hn1 & Hsynced & Hother & Hkeep);
    [done..|].
  rewrite Hrun. cbn [fst snd].
  change ((λ i : nat, sync.dispatch (f i)) ∘ S) with (λ i, sync.dispatch ((f ∘ S) i)).
  destruct (IH (f ∘ S) w1 Hnd Hf1 Hn1) as (Hres & Hf2 & Hn2 & Hall & Hrest).
  { intros q' Hq'. destruct (Hex q' ltac:(by right)) as [Hs Hr]. split; [|by apply Hkeep].
    rewrite Hother; [exact Hs|]. intros E. apply Hq. rewrite <- E.
    by apply list_elem_of_fmap_2. }
  cbv zeta in Hres, Hf2, Hn2, Hall, Hrest.
  split; [by rewrite Hres|]. split; [done|]. split; [done|]. split.
  - intros q' Hq'. apply elem_of_cons in Hq' as [->|Hq']; [|by apply Hall].
    rewrite Hrest by done. exact Hsynced.
  - intros k Hk. rewrite fmap_cons in Hk. apply not_elem_of_cons in Hk as [Hne Hk].
    rewrite Hrest by done. by apply Hother.
Qed.

Lemma all_succeeded (items : list QueueItem) :
  syncedOf ((λ q, Ok (inl (sync.mkResult true (id q) None None))) <$> items)
  = Z.of_nat (length items) ∧
  failedOf ((λ q, Ok (inl (sync.mkResult true (id q) None None))) <$> items) = 0.
Proof.
  unfold failedOf, syncedOf. rewrite length_fmap.
  assert (length (filter (λ r, sync.succeeded r = true)
                    ((λ q, Ok (inl (sync.mkResult true (id q) None None))) <$> items))
          = length items) as ->; [|lia].
  induction items as [|q items IH]; [done|].
  rewrite fmap_cons, filter_cons. cbn [sync.succeeded sync.success].
  rewrite decide_True by done. simpl. by rewrite IH.
Qed.

(** X30. A pass drains the queue when everything answers: online, with a
    healthy store, a network that accepts every request and every item
    having its record (which holds in every world the engine reaches), the
    pass returns the number of pending items as synced and zero as failed,
    ends with status [success], leaves every item that was pending synced
    and every other item as it was; nothing is pending afterwards. *)
Theorem healthy_pass_drains_queue (w : World) :
  onLine w = true → syncStatus w ≠ SYNCING → storeFaults w = [] → network w = [] →
  (∀ k it, mediaQueue w !! k = Some it → is_Some (records w !! submissionId it)) →
  let res := sync.syncQueue w in
  res.1 = Ok (sync.mkCounts (Z.of_nat (length (pendingOf w))) 0) ∧
  syncStatus res.2 = SUCCESS ∧
  (∀ k it, mediaQueue w !! k = Some it → status it = pending →
     ∃ it', mediaQueue res.2 !! k = Some it' ∧ status it' = synced) ∧
  (∀ k it, mediaQueue w !! k = Some it → status it ≠ pending →
     mediaQueue res.2 !! k = Some it) ∧
  pendingOf res.2 = [].
Proof.
  intros Hon Hst Hf Hn Hrec. cbv zeta. rewrite syncQueue_run by done. cbv zeta.
  destruct (told_store SYNCING w) as (Hr1 & Hq1 & _ & Hsf1).
  destruct (told_fields SYNCING w) as (_ & _ & _ & _ & Hn1 & _).
  assert (pendingOf (told SYNCING w) = pendingOf w) as Hp
    by (unfold pendingOf; by rewrite Hq1).
  rewrite Hp, Hsf1, Hf.
  assert (∀ s w2, mediaQueue (told s w2) = mediaQueue w2) as Htold
    by (intros s w2; by destruct (told_store s w2) as (_ & ? & _)).
  assert (∀ s w2, syncStatus (told s w2) = s) as Hstat
    by (intros s w2; by destruct (told_fields s w2) as (? & _)).
  assert (∀ w2,
    (∀ k it, mediaQueue w !! k = Some it → status it = pending →
       ∃ it', mediaQueue w2 !! k = Some it' ∧ status it' = synced) →
    (∀ k it, mediaQueue w !! k = Some it → status it ≠ pending →
       mediaQueue w2 !! k = Some it) →
    (∀ k, mediaQueue w !! k = None → mediaQueue w2 !! k = None) →
    pendingOf w2 = []) as Hdrained.
  { intros w2 H1 H2 H3. apply filter_none. intros x Hx Hs.
    apply elem_of_getAll in Hx as (k & c & Hc & ->). simpl in Hs.
    destruct (mediaQueue w !! k) as [it|] eqn:Hit.
    - destruct (decide (status it = pending)) as [Hpend|Hpend].
      + destruct (H1 k it Hit Hpend) as (it' & Hit' & Hs'). congruence.
      + rewrite (H2 k it Hit Hpend) in Hc. congruence.
    - rewrite (H3 k Hit) in Hc. done. }
  destruct (decide (length (pendingOf w) = 0%nat)) as [Hz|Hnz].
  - cbn [fst snd]. rewrite Hz. split; [done|]. split; [apply Hstat|].
    apply length_zero_iff_nil in Hz.
    assert (∀ k it, mediaQueue w !! k = Some it → status it ≠ pending) as Hnone.
    { intros k it Hit Hs.
      assert (keyed k it ∈ pendingOf w) as Hin by (apply elem_of_pendingOf; by exists k, it).
      rewrite Hz in Hin. by apply elem_of_nil in Hin. }
    split; [intros k it Hit Hs; by destruct (Hnone k it Hit)|].
    split; [intros k it Hit _; rewrite Htold; simpl; by rewrite Hq1|].
    unfold pendingOf. rewrite Htold. simpl. rewrite Hq1. exact Hz.
  - set (w1 := drawn (told SYNCING w)).
    destruct (pass_accepted (λ i, i) (pendingOf w) w1 (pendingOf_NoDup w))
      as (Hres & _ & _ & Hall & Hrest).
    { subst w1. simpl. by rewrite Hsf1, Hf. }
    { subst w1. simpl. by rewrite Hn1. }
    { intros q Hq. apply elem_of_pendingOf in Hq as (k & it & Hit & _ & ->).
      subst w1. simpl. rewrite Hq1, Hr1, Hit. split; [by eexists|]. by apply (Hrec k it). }
    cbv zeta in Hres, Hall, Hrest.
    change (imap _ (pendingOf w)) with (imap sync.dispatch (pendingOf w)) in Hres, Hall, Hrest.
    destruct (settleAll (imap sync.dispatch (pendingOf w)) w1) as [raw w2] eqn:Hpass.
    cbn [fst snd] in *. subst raw.
    destruct (all_succeeded (pendingOf w)) as [-> Hfailed]. rewrite Hfailed.
    unfold verdict. rewrite Hfailed. rewrite decide_True by done.
    split; [done|]. split; [apply Hstat|].
    assert (∀ k it, mediaQueue w !! k = Some it → status it = pending →
              ∃ it', mediaQueue w2 !! k = Some it' ∧ status it' = synced) as H1.
    { intros k it Hit Hs. apply (Hall (keyed k it)).
      apply elem_of_pendingOf. by exists k, it. }
    assert (∀ k, (∀ it, mediaQueue w !! k = Some it → status it ≠ pending) →
              mediaQueue w2 !! k = mediaQueue w !! k) as H2.
    { intros k Hk. rewrite Hrest; [subst w1; simpl; by rewrite Hq1|].
      intros Hin. apply list_elem_of_fmap in Hin as (x & -> & Hx).
      apply elem_of_pendingOf in Hx as (k' & it & Hit & Hs & ->). by apply (Hk it). }
    split; [intros k it Hit Hs; rewrite Htold; by apply (H1 k it)|]. split.
    + intros k it Hit Hs. rewrite Htold, H2; [done|]. intros it' Hit'. congruence.
    + unfold pendingOf. rewrite Htold. fold (pendingOf w2). apply Hdrained; [exact H1| |].
      * intros k it Hit Hs. rewrite H2; [done|]. intros it' Hit'. congruence.
      * intros k Hk. rewrite H2; [done|]. intros it'. by rewrite Hk.
Qed.

Lemma healthy_pass_drains_queue_witness :
  (sync.syncQueue (with_env calm videoQueued)).1 = Ok (sync.mkCounts 1 0).
Proof.
  destruct (healthy_pass_drains_queue (with_env calm videoQueued)) as (H & _).
  - reflexivity.
  - vm_compute. intros E. discriminate E.
  - reflexivity.
  - reflexivity.
  - intros k it Hit.
    destruct (Linked_run [(offline, OpEnqueue (sync.mkSubmission "clip" None [video]))]
                initial Linked_initial) as [_ Hl].
    destruct (Hl k it Hit) as (r & Hr & _). by exists r.
  - rewrite H. vm_compute. reflexivity.
Defined.
